(** * find_function_dupes: a shallow embedding of scripts/find_function_dupes.py

    The script walks a source tree, extracts function declarations with a
    regular expression and a brace-depth counter, collapses the body text,
    scores every pair of bodies and writes the pairs above a threshold to a
    JSON report.  This file embeds the script's functions as Rocq functions
    and proves the properties its specification states about them. *)

From Stdlib Require Import String Ascii.
From Stdlib Require Import List Bool Arith ZArith NArith Lia SpecFloat Sorted.
Import ListNotations.
Local Open Scope nat_scope.

(* ------------------------------------------------------------------ *)
(** ** Python values *)

(** A Python [str] is a sequence of Unicode code points. *)
Definition char := N.
Definition str := list char.

Definition ch (a : ascii) : char := N_of_ascii a.

(** An ASCII literal read as a Python [str]. *)
Definition lit (s : string) : str := map N_of_ascii (list_ascii_of_string s).

Definition char_eqb (c d : char) : bool := N.eqb c d.

Definition str_eqb (a b : str) : bool :=
  if list_eq_dec N.eq_dec a b then true else false.

(** [s[lo:hi]] for non-negative indices: out-of-range bounds are clamped. *)
Definition slice (s : str) (lo hi : nat) : str := firstn (hi - lo) (skipn lo s).

(** What running a piece of the script can end in: a value, an uncaught
    exception, or a loop that was cut off by the model's step bound. *)
Inductive exn : Type :=
  IndexError | OSError | OverflowError | ZeroDivisionError | ValueError
| UnicodeEncodeError.

Inductive outcome (A : Type) : Type :=
| Done (a : A)
| Raised (e : exn)
| NoFuel.
Arguments Done {A} a.
Arguments Raised {A} e.
Arguments NoFuel {A}.

Definition bind {A B : Type} (m : outcome A) (f : A -> outcome B) : outcome B :=
  match m with
  | Done a => f a
  | Raised e => Raised e
  | NoFuel => NoFuel
  end.

Notation "x <- m ;; k" := (bind m (fun x => k))
  (at level 61, m at next level, right associativity).

Fixpoint mapM {A B : Type} (f : A -> outcome B) (l : list A) : outcome (list B) :=
  match l with
  | [] => Done []
  | a :: l' => b <- f a ;; bs <- mapM f l' ;; Done (b :: bs)
  end.

(** [str.isspace] on one code point, the test behind [str.strip()]. *)
Definition isspace (c : char) : bool :=
  (((9 <=? c) && (c <=? 13)) || ((28 <=? c) && (c <=? 32))
   || (c =? 133) || (c =? 160) || (c =? 5760)
   || ((8192 <=? c) && (c <=? 8202))
   || (c =? 8232) || (c =? 8233) || (c =? 8239) || (c =? 8287)
   || (c =? 12288))%N.

Fixpoint lstrip (s : str) : str :=
  match s with
  | c :: s' => if isspace c then lstrip s' else s
  | [] => []
  end.

Definition rstrip (s : str) : str := rev (lstrip (rev s)).

(** [s.strip()] *)
Definition strip (s : str) : str := rstrip (lstrip s).

(* ------------------------------------------------------------------ *)
(** ** The fragment of [re] the script uses

    Patterns are built from single-character atoms (a literal, or a negated
    one-character class), greedy repetition of an atom, concatenation, a
    greedy optional group and capturing groups.  Matching is by backtracking
    in the order [re] tries alternatives, so the first result found is the
    match [re] reports. *)

Inductive atom : Type :=
| Lit (c : char)          (* a literal character *)
| NotLit (c : char).      (* [^c] *)

Inductive regex : Type :=
| Atom (a : atom)
| Star (a : atom)         (* a*  greedy *)
| Plus (a : atom)         (* a+  greedy *)
| Seq (r1 r2 : regex)
| Opt (r : regex)         (* (?:r)?  greedy *)
| Group (n : nat) (r : regex).   (* the n-th capturing group *)

Definition atom_ok (a : atom) (c : char) : bool :=
  match a with
  | Lit d => char_eqb c d
  | NotLit d => negb (char_eqb c d)
  end.

(** Capture groups: number and span [(start, end)]. *)
Definition groups := list (nat * (nat * nat)).

Fixpoint lookup_group (n : nat) (g : groups) : option (nat * nat) :=
  match g with
  | [] => None
  | (m, span) :: g' => if Nat.eqb m n then Some span else lookup_group n g'
  end.

Section Exec.
Variable R : Type.

(** Greedy repetition: take one more character while the atom accepts it,
    and give characters back one at a time when the rest fails. *)
Fixpoint star (p : char -> bool) (s : str) (pos : nat)
    (k : str -> nat -> option R) : option R :=
  match s with
  | c :: s' =>
      if p c then
        match star p s' (S pos) k with
        | Some r => Some r
        | None => k s pos
        end
      else k s pos
  | [] => k s pos
  end.

Fixpoint exec (r : regex) (s : str) (pos : nat) (g : groups)
    (k : str -> nat -> groups -> option R) : option R :=
  match r with
  | Atom a =>
      match s with
      | c :: s' => if atom_ok a c then k s' (S pos) g else None
      | [] => None
      end
  | Star a => star (atom_ok a) s pos (fun s' p' => k s' p' g)
  | Plus a =>
      match s with
      | c :: s' =>
          if atom_ok a c
          then star (atom_ok a) s' (S pos) (fun s' p' => k s' p' g)
          else None
      | [] => None
      end
  | Seq r1 r2 => exec r1 s pos g (fun s1 p1 g1 => exec r2 s1 p1 g1 k)
  | Opt r1 =>
      match exec r1 s pos g k with
      | Some x => Some x
      | None => k s pos g
      end
  | Group n r1 =>
      exec r1 s pos g (fun s1 p1 g1 => k s1 p1 ((n, (pos, p1)) :: g1))
  end.
End Exec.
Arguments star {R} p s pos k.
Arguments exec {R} r s pos g k.

(** A match object: [m.start()], [m.end()] and the groups' spans. *)
Record re_match : Type := MkMatch {
  m_start : nat;
  m_end : nat;
  m_groups : groups
}.

(** [pattern.match] anchored at position [pos], where [s] is the text from
    [pos] on. *)
Definition match_at (r : regex) (s : str) (pos : nat) : option re_match :=
  exec r s pos [] (fun _ e g => Some (MkMatch pos e g)).

(** [pattern.finditer]: the leftmost match, then the leftmost match in what
    follows it, and so on.  [s] is the text from [pos] on; [skip] counts the
    characters of the previous match still to be passed over (after an empty
    match the scan moves on by one character). *)
Fixpoint finditer_from (r : regex) (s : str) (pos skip : nat) : list re_match :=
  match s with
  | [] =>
      match skip with
      | 0 => match match_at r [] pos with Some m => [m] | None => [] end
      | S _ => []
      end
  | _ :: s' =>
      match skip with
      | S n => finditer_from r s' (S pos) n
      | 0 =>
          match match_at r s pos with
          | Some m => m :: finditer_from r s' (S pos) (m_end m - pos - 1)
          | None => finditer_from r s' (S pos) 0
          end
      end
  end.

Definition finditer (r : regex) (source : str) : list re_match :=
  finditer_from r source 0 0.

(** [m.group(n)]; a group that took no part in the match reads as [None]. *)
Definition group (source : str) (m : re_match) (n : nat) : option str :=
  match lookup_group n (m_groups m) with
  | Some (lo, hi) => Some (slice source lo hi)
  | None => None
  end.

(** [re.sub(pattern, repl, s)] with a fixed replacement text. *)
Fixpoint sub_from (r : regex) (repl : str) (s : str) (pos skip : nat) : str :=
  match s with
  | [] =>
      match skip with
      | 0 => match match_at r [] pos with Some _ => repl | None => [] end
      | S _ => []
      end
  | c :: s' =>
      match skip with
      | S n => sub_from r repl s' (S pos) n
      | 0 =>
          match match_at r s pos with
          | Some m =>
              if Nat.eqb (m_end m) pos
              then repl ++ c :: sub_from r repl s' (S pos) 0
              else repl ++ sub_from r repl s' (S pos) (m_end m - pos - 1)
          | None => c :: sub_from r repl s' (S pos) 0
          end
      end
  end.

Definition re_sub (r : regex) (repl : str) (s : str) : str :=
  sub_from r repl s 0 0.

(** Concatenation of the patterns [r], then those of [rs], in order. *)
Fixpoint cat (r : regex) (rs : list regex) : regex :=
  match rs with
  | [] => r
  | r' :: rs' => Seq r (cat r' rs')
  end.

(** The least number of characters a match of [r] takes. *)
Fixpoint min_len (r : regex) : nat :=
  match r with
  | Atom _ => 1
  | Star _ => 0
  | Plus _ => 1
  | Seq r1 r2 => min_len r1 + min_len r2
  | Opt _ => 0
  | Group _ r1 => min_len r1
  end.

(** Every match of [r] contains the character [c]. *)
Fixpoint requires (c : char) (r : regex) : bool :=
  match r with
  | Atom (Lit d) => char_eqb d c
  | Atom (NotLit _) => false
  | Star _ => false
  | Plus (Lit d) => char_eqb d c
  | Plus (NotLit _) => false
  | Seq r1 r2 => requires c r1 || requires c r2
  | Opt _ => false
  | Group _ r1 => requires c r1
  end.

(** Every match of [r] sets the group number [i]. *)
Fixpoint sets_group (i : nat) (r : regex) : bool :=
  match r with
  | Atom _ | Star _ | Plus _ | Opt _ => false
  | Seq r1 r2 => sets_group i r1 || sets_group i r2
  | Group n r1 => Nat.eqb n i || sets_group i r1
  end.

Definition c_backslash : char := ch "\".
Definition c_lbrace : char := ch "{".
Definition c_rbrace : char := ch "}".
Definition c_space : char := ch " ".

(** The text of the pattern is, character for character,
    [(?:pub\\s+)?fn\\s+(\\w+)\\s*\\([^)]*\\)\\s*\\{] :
    the literal is a raw string, so each doubled backslash reaches [re] as
    [\\], a literal backslash, and the letter after it is an ordinary
    letter.  The second parenthesis pair follows a literal backslash and is
    therefore a capturing group. *)
Definition FUNC_RE : regex :=
  cat (Opt (cat (Atom (Lit (ch "p")))
                [Atom (Lit (ch "u")); Atom (Lit (ch "b"));
                 Atom (Lit c_backslash); Plus (Lit (ch "s"))]))
      [ Atom (Lit (ch "f")); Atom (Lit (ch "n"));
        Atom (Lit c_backslash); Plus (Lit (ch "s"));
        Group 1 (cat (Atom (Lit c_backslash)) [Plus (Lit (ch "w"))]);
        Atom (Lit c_backslash); Star (Lit (ch "s"));
        Atom (Lit c_backslash);
        Group 2 (cat (Star (NotLit (ch ")"))) [Atom (Lit c_backslash)]);
        Atom (Lit c_backslash); Star (Lit (ch "s"));
        Atom (Lit c_backslash); Atom (Lit c_lbrace) ].

(** The pattern of the whitespace collapse, [\\s+] in a raw string: a
    literal backslash followed by one or more letters s. *)
Definition SPACE_RE : regex := cat (Atom (Lit c_backslash)) [Plus (Lit (ch "s"))].

(* ------------------------------------------------------------------ *)
(** ** extract_functions *)

(** One step of the brace counter on the character [c]. *)
Definition depth_step (depth : Z) (c : char) : Z :=
  if char_eqb c c_lbrace then (depth + 1)%Z
  else if char_eqb c c_rbrace then (depth - 1)%Z
  else depth.

(** The loop [while i < len(source) and depth: ...; i += 1]; it returns the
    final [i].  [source[i]] raises [IndexError] out of range. *)
Fixpoint brace_loop (fuel : nat) (source : str) (i : nat) (depth : Z) : outcome nat :=
  if (i <? length source) && negb (depth =? 0)%Z then
    match fuel with
    | 0 => NoFuel
    | S fuel' =>
        match nth_error source i with
        | None => Raised IndexError
        | Some c => brace_loop fuel' source (S i) (depth_step depth c)
        end
    end
  else Done i.

(** The body of the [for m in FUNC_RE.finditer(source)] loop up to
    [body = source[start:i]]: the name and the raw body text of one match. *)
Definition match_name (source : str) (m : re_match) : str :=
  match group source m 1 with Some n => n | None => [] end.

Definition function_body (source : str) (m : re_match) : outcome (str * str) :=
  let name := match_name source m in
  let start := m_start m in
  i <- brace_loop (length source) source (m_end m) 1%Z ;;
  Done (name, slice source start i).

(** [re.sub(r"\\s+", " ", body).strip()] *)
Definition normalize (body : str) : str := strip (re_sub SPACE_RE [c_space] body).

Definition extract_functions (source : str) : outcome (list (str * str)) :=
  mapM (fun m =>
          nb <- function_body source m ;;
          Done (fst nb, normalize (snd nb)))
       (finditer FUNC_RE source).

(* ------------------------------------------------------------------ *)
(** ** main: the pairwise scan and the report *)

(** A function's identity: [(str(zig_file), fn_name)]. *)
Definition key := (str * str)%type.

Definition key_eqb (k1 k2 : key) : bool :=
  str_eqb (fst k1) (fst k2) && str_eqb (snd k1) (snd k2).

(** [f"{file}::{name}"] *)
Definition key_str (k : key) : str := fst k ++ lit "::" ++ snd k.

(** Python dicts keep insertion order; a dict is its list of items. *)
Definition tokens_t := list (key * str).
Definition clusters_t := list (str * list key).

(** [tokens[k] = v]: an existing key keeps its place and takes the new
    value, a new key goes to the end. *)
Fixpoint dict_set (k : key) (v : str) (d : tokens_t) : tokens_t :=
  match d with
  | [] => [(k, v)]
  | (k', v') :: d' =>
      if key_eqb k' k then (k', v) :: d' else (k', v') :: dict_set k v d'
  end.

Fixpoint dict_get (k : str) (d : clusters_t) : option (list key) :=
  match d with
  | [] => None
  | (k', l) :: d' => if str_eqb k' k then Some l else dict_get k d'
  end.

(** [clusters.setdefault(k, []).append(v)] *)
Fixpoint setdefault_append (k : str) (v : key) (d : clusters_t) : clusters_t :=
  match d with
  | [] => [(k, [v])]
  | (k', l) :: d' =>
      if str_eqb k' k then (k', l ++ [v]) :: d'
      else (k', l) :: setdefault_append k v d'
  end.

(** [str(n)] for a non-negative int: its decimal digits. *)
Fixpoint digits_of (fuel n : nat) (acc : str) : str :=
  match fuel with
  | 0 => acc
  | S fuel' =>
      let acc' := (ch "0" + N.of_nat (n mod 10))%N :: acc in
      if Nat.eqb (n / 10) 0 then acc' else digits_of fuel' (n / 10) acc'
  end.

Definition str_of_nat (n : nat) : str := digits_of (S n) n [].

(** The check mark U+2713 that starts the summary line. *)
Definition c_check_mark : char := 10003%N.

(** The text of line 140: the check mark, then
    [f" wrote {out_path} with {len(clusters)} duplicate groups"]. *)
Definition summary_text (out_path : str) (n_groups : nat) : str :=
  c_check_mark :: lit " wrote " ++ out_path ++ lit " with " ++ str_of_nat n_groups
    ++ lit " duplicate groups".

(** A text stream whose error handler is [strict]: writing a text that
    holds a code point the encoding lacks raises UnicodeEncodeError. *)
Definition strict_stream (encodes : char -> bool) (text : str) : option exn :=
  if forallb encodes text then None else Some UnicodeEncodeError.

Inductive read_result : Type :=
| Text (code : str)
| UnicodeDecodeError
| ReadError.            (* any other exception of read_text *)

Section Script.

(** The pair of functions bound at import time: ssdeep's, or the difflib
    fallback below. *)
Variable hash_fn : str -> str.
Variable similar_fn : str -> str -> Z.

(** pathlib and the file system the script runs on. *)
Variable path : Type.
Variable Path : str -> path.                 (* pathlib.Path(s) *)
Variable path_str : path -> str.             (* str(p) *)
Variable parts : path -> list str.           (* p.parts *)
Variable path_exists : path -> bool.         (* p.exists() *)
Variable rglob_zig : path -> list path.      (* root.rglob("*.zig") *)
Variable read_text : path -> read_result.    (* p.read_text(encoding="utf-8") *)
Variable write_ok : bool.                    (* whether write_text succeeds *)
Variable stdout_print : str -> option exn.   (* what print(text) raises, if anything *)
Variable sys_argv : list str.

Definition iter_zig_files (root : path) : list path :=
  filter (fun p =>
            negb (existsb (str_eqb (lit "zig-cache")) (parts p)
                  || existsb (str_eqb (lit "zig-out")) (parts p)))
         (rglob_zig root).

(** The inner loop [for j in range(i + 1, total)] for the entry
    [((file1, name1), sig1)] and the entries [rest] after it. *)
Definition scan_pairs (k1 : key) (sig1 : str) (rest : tokens_t)
    (clusters : clusters_t) : clusters_t :=
  fold_left
    (fun cl it =>
       let score := similar_fn sig1 (snd it) in
       if (90 <? score)%Z then setdefault_append (key_str k1) (fst it) cl else cl)
    rest clusters.

(** The outer loop [for i in range(total)]. *)
Fixpoint scan_items (items : tokens_t) (clusters : clusters_t) : clusters_t :=
  match items with
  | [] => clusters
  | (k1, sig1) :: rest => scan_items rest (scan_pairs k1 sig1 rest clusters)
  end.

(** Lines 124-136: the cluster mapping built from the items of [tokens]. *)
Definition build_clusters (items : tokens_t) : clusters_t := scan_items items [].

(** What the run did to the outside world, in order. *)
Inductive event : Type :=
| Stderr (line : str)
| ReadText (p : path)
| WriteText (out_path : str) (report : clusters_t)   (* the JSON of [report] *)
| Stdout (line : str).                               (* a line printed on stdout *)

Inductive ending : Type :=
| Returned                 (* main returns; the process exits with 0 *)
| SysExit (status : Z)
| Uncaught (e : exn).

Record run : Type := MkRun { trace : list event; how : ending }.

(** [for fn_name, body in extract_functions(code): tokens[...] = _hash(body)] *)
Definition add_functions (file : str) (fs : list (str * str)) (tokens : tokens_t)
    : tokens_t :=
  fold_left (fun t nb => dict_set (file, fst nb) (hash_fn (snd nb)) t) fs tokens.

(** The loop over the located files: the reads done, and the token mapping
    or the exception that ended the loop. *)
Fixpoint load_tokens (files : list path) (tokens : tokens_t)
    : list event * outcome tokens_t :=
  match files with
  | [] => ([], Done tokens)
  | zig_file :: files' =>
      match read_text zig_file with
      | UnicodeDecodeError =>
          let (tr, r) := load_tokens files' tokens in (ReadText zig_file :: tr, r)
      | ReadError => ([ReadText zig_file], Raised OSError)
      | Text code =>
          match extract_functions code with
          | Done fs =>
              let (tr, r) :=
                load_tokens files' (add_functions (path_str zig_file) fs tokens) in
              (ReadText zig_file :: tr, r)
          | Raised e => ([ReadText zig_file], Raised e)
          | NoFuel => ([ReadText zig_file], NoFuel)
          end
      end
  end.

Definition out_path : str := lit "function_dupes.json".

(** [argv = argv or sys.argv[1:]] and
    [root = pathlib.Path(argv[0]) if argv else pathlib.Path("src")] *)
Definition root_of (argv : option (list str)) : path :=
  let argv :=
    match argv with
    | Some (a :: l) => a :: l
    | _ => tl sys_argv
    end in
  match argv with a :: _ => Path a | [] => Path (lit "src") end.

Definition main (argv : option (list str)) : outcome run :=
  let root := root_of argv in
  if negb (path_exists root) then
    Done (MkRun [Stderr (lit "error: path " ++ path_str root ++ lit " does not exist")]
                (SysExit 1))
  else
    let (reads, r) := load_tokens (iter_zig_files root) [] in
    match r with
    | NoFuel => NoFuel
    | Raised e => Done (MkRun reads (Uncaught e))
    | Done tokens =>
        let clusters := build_clusters tokens in
        if write_ok then
          let line := summary_text out_path (length clusters) in
          match stdout_print line with
          | None =>
              Done (MkRun (reads ++ [WriteText out_path clusters; Stdout line])
                          Returned)
          | Some e =>
              Done (MkRun (reads ++ [WriteText out_path clusters]) (Uncaught e))
          end
        else Done (MkRun reads (Uncaught OSError))
    end.

End Script.
Arguments Stderr {path} line.
Arguments ReadText {path} p.
Arguments WriteText {path} out_path report.
Arguments Stdout {path} line.
Arguments MkRun {path} trace how.
Arguments trace {path} r.
Arguments how {path} r.
Arguments iter_zig_files {path} parts rglob_zig root.
Arguments load_tokens hash_fn {path} path_str read_text files tokens.
Arguments root_of {path} Path sys_argv argv.
Arguments main hash_fn similar_fn {path} Path path_str parts path_exists
  rglob_zig read_text write_ok stdout_print sys_argv argv.

(** The keys stored after [k1] that score above the threshold against the
    fingerprint [sig1]. *)
Definition members (similar_fn : str -> str -> Z) (sig1 : str) (rest : tokens_t)
    : list key :=
  map fst (filter (fun it => (90 <? similar_fn sig1 (snd it))%Z) rest).

(** Everything appended under the string key [K]: for each entry, in
    order, whose key is written [K], its members. *)
Fixpoint cluster_members (similar_fn : str -> str -> Z) (K : str) (items : tokens_t)
    : list key :=
  match items with
  | [] => []
  | (k1, sig1) :: rest =>
      (if str_eqb (key_str k1) K then members similar_fn sig1 rest else [])
      ++ cluster_members similar_fn K rest
  end.

Definition lists_nonempty (d : clusters_t) : Prop :=
  Forall (fun kl => snd kl <> []) d.

(** The key [k] stands in the list under [K] because of a pair of entries:
    an entry whose key is written [K], and a later entry with key [k] that
    scores above the threshold against it. *)
Definition caused (similar_fn : str -> str -> Z) (all : tokens_t) (K : str) (k : key)
    : Prop :=
  exists pre h sh mid sk post,
    all = pre ++ (h, sh) :: mid ++ (k, sk) :: post
    /\ key_str h = K /\ (90 < similar_fn sh sk)%Z.

Definition all_caused (similar_fn : str -> str -> Z) (all : tokens_t)
    (cl : clusters_t) : Prop :=
  forall K L k, In (K, L) cl -> In k L -> caused similar_fn all K k.

(** The list stored under [K], empty when [K] is absent. *)
Definition get_list (K : str) (d : clusters_t) : list key :=
  match dict_get K d with
  | Some l => l
  | None => []
  end.

(** A dict holds a list only once something was appended to it. *)
Definition nonempty (l : list key) : option (list key) :=
  match l with
  | [] => None
  | _ => Some l
  end.

(* ------------------------------------------------------------------ *)
(** ** Python floats

    A [float] is an IEEE 754 binary64 value; the operations are the
    correctly rounded ones of the standard library's specification. *)

Definition prec : Z := 53.
Definition emax : Z := 1024.
Definition float := spec_float.

Definition float_1 : float := S754_finite false 4503599627370496 (-52).   (* 1.0 *)
Definition float_2 : float := S754_finite false 4503599627370496 (-51).   (* 2.0 *)

(** [float(n)] for an int [n]: rounded to nearest, ties to even; an int
    beyond the largest float raises OverflowError. *)
Definition float_of_int (n : Z) : outcome float :=
  match binary_normalize prec emax n 0 false with
  | S754_infinity _ => Raised OverflowError
  | x => Done x
  end.

Definition float_mul (x y : float) : float := SFmul prec emax x y.

(** [x / y] *)
Definition float_div (x y : float) : outcome float :=
  match y with
  | S754_zero _ => Raised ZeroDivisionError
  | _ => Done (SFdiv prec emax x y)
  end.

(** [int(x)]: truncation towards zero. *)
Definition int_of_float (x : float) : outcome Z :=
  match x with
  | S754_nan => Raised ValueError
  | S754_infinity _ => Raised OverflowError
  | S754_zero _ => Done 0%Z
  | S754_finite s m e =>
      let magnitude :=
        match e with
        | Zneg p => Z.shiftr (Zpos m) (Zpos p)
        | _ => Z.shiftl (Zpos m) e
        end in
      Done (if s then Z.opp magnitude else magnitude)
  end.

(* ------------------------------------------------------------------ *)
(** ** difflib.SequenceMatcher(None, a, b), as far as ratio() uses it

    [isjunk] is None, so no element is junk, and [autojunk] is on. *)

Module Difflib.

(** The positions of [c] in [b], in ascending order, counted from [j]. *)
Fixpoint indices_from (b : str) (j : nat) (c : char) : list nat :=
  match b with
  | [] => []
  | x :: b' =>
      if char_eqb x c then j :: indices_from b' (S j) c
      else indices_from b' (S j) c
  end.

(** __chain_b: when [b] has 200 elements or more, an element that occurs
    more than [len(b) // 100 + 1] times is popular and leaves [b2j]. *)
Definition popular (b : str) (c : char) : bool :=
  (200 <=? length b) && (length b / 100 + 1 <? length (indices_from b 0 c)).

(** [b2j.get(c, nothing)] *)
Definition b2j (b : str) (c : char) : list nat :=
  if popular b c then [] else indices_from b 0 c.

(** The dicts [j2len] and [newj2len], latest entry first. *)
Definition j2len_t := list (nat * nat).

(** [d.get(j, 0)] *)
Fixpoint j2len_get (d : j2len_t) (j : nat) : nat :=
  match d with
  | [] => 0
  | (j', k) :: d' => if Nat.eqb j' j then k else j2len_get d' j
  end.

(** The named tuple [Match(a, b, size)]. *)
Record Match : Type := MkBlock { m_a : nat; m_b : nat; m_size : nat }.

(** The loop [for j in b2j.get(a[i], nothing)] of find_longest_match. *)
Fixpoint scan_row (js : list nat) (i blo bhi : nat) (j2len newj2len : j2len_t)
    (best : Match) : j2len_t * Match :=
  match js with
  | [] => (newj2len, best)
  | j :: js' =>
      if j <? blo then scan_row js' i blo bhi j2len newj2len best    (* continue *)
      else if bhi <=? j then (newj2len, best)                         (* break *)
      else
        (* k = newj2len[j] = j2lenget(j-1, 0) + 1 *)
        let k := match j with 0 => 0 | S j' => j2len_get j2len j' end + 1 in
        let best' :=
          if m_size best <? k then MkBlock (i + 1 - k) (j + 1 - k) k else best in
        scan_row js' i blo bhi j2len ((j, k) :: newj2len) best'
  end.

(** The loop [for i in range(alo, ahi)]. *)
Fixpoint scan_rows (rows : list nat) (a b : str) (blo bhi : nat) (j2len : j2len_t)
    (best : Match) : Match :=
  match rows with
  | [] => best
  | i :: rows' =>
      let (newj2len, best') :=
        scan_row (b2j b (nth i a 0%N)) i blo bhi j2len [] best in
      scan_rows rows' a b blo bhi newj2len best'
  end.

(** [while besti > alo and bestj > blo and a[besti-1] == b[bestj-1]] *)
Fixpoint extend_back (a b : str) (alo blo besti bestj bestsize : nat) : Match :=
  match besti with
  | 0 => MkBlock besti bestj bestsize
  | S besti' =>
      if (alo <? besti) && (blo <? bestj)
         && char_eqb (nth besti' a 0%N) (nth (bestj - 1) b 0%N)
      then extend_back a b alo blo besti' (bestj - 1) (bestsize + 1)
      else MkBlock besti bestj bestsize
  end.

(** [while besti+bestsize < ahi and bestj+bestsize < bhi and
    a[besti+bestsize] == b[bestj+bestsize]]; [n] is the room left in [a],
    [ahi - (besti + bestsize)]. *)
Fixpoint extend_fwd (n : nat) (a b : str) (ahi bhi besti bestj bestsize : nat) : nat :=
  match n with
  | 0 => bestsize
  | S n' =>
      if (besti + bestsize <? ahi) && (bestj + bestsize <? bhi)
         && char_eqb (nth (besti + bestsize) a 0%N) (nth (bestj + bestsize) b 0%N)
      then extend_fwd n' a b ahi bhi besti bestj (bestsize + 1)
      else bestsize
  end.

(** find_longest_match(alo, ahi, blo, bhi).  The two loops that extend the
    match over junk never run, the junk set being empty. *)
Definition find_longest_match (a b : str) (alo ahi blo bhi : nat) : Match :=
  let best := scan_rows (seq alo (ahi - alo)) a b blo bhi [] (MkBlock alo blo 0) in
  let best1 := extend_back a b alo blo (m_a best) (m_b best) (m_size best) in
  let size :=
    extend_fwd (ahi - (m_a best1 + m_size best1)) a b ahi bhi
               (m_a best1) (m_b best1) (m_size best1) in
  MkBlock (m_a best1) (m_b best1) size.

(** The loop [while queue] of get_matching_blocks; the head of [queue] is
    the element [queue.pop()] takes. *)
Fixpoint blocks_loop (fuel : nat) (a b : str) (queue : list (nat * nat * nat * nat))
    (matching_blocks : list Match) : outcome (list Match) :=
  match queue with
  | [] => Done matching_blocks
  | (alo, ahi, blo, bhi) :: queue' =>
      match fuel with
      | 0 => NoFuel
      | S fuel' =>
          let x := find_longest_match a b alo ahi blo bhi in
          let i := m_a x in
          let j := m_b x in
          let k := m_size x in
          if Nat.eqb k 0 then blocks_loop fuel' a b queue' matching_blocks
          else
            let q1 :=
              if (alo <? i) && (blo <? j) then (alo, i, blo, j) :: queue'
              else queue' in
            let q2 :=
              if (i + k <? ahi) && (j + k <? bhi) then (i + k, ahi, j + k, bhi) :: q1
              else q1 in
            blocks_loop fuel' a b q2 (matching_blocks ++ [x])
      end
  end.

(** Tuple order, for [matching_blocks.sort()]. *)
Definition block_leb (x y : Match) : bool :=
  (m_a x <? m_a y)
  || ((m_a x =? m_a y)
      && ((m_b x <? m_b y) || ((m_b x =? m_b y) && (m_size x <=? m_size y)))).

Fixpoint insert (x : Match) (l : list Match) : list Match :=
  match l with
  | [] => [x]
  | y :: l' => if block_leb x y then x :: l else y :: insert x l'
  end.

Fixpoint sort (l : list Match) : list Match :=
  match l with
  | [] => []
  | x :: l' => insert x (sort l')
  end.

(** The loop that merges adjacent blocks, and the append after it. *)
Fixpoint collapse (blocks : list Match) (i1 j1 k1 : nat) (non_adjacent : list Match)
    : list Match :=
  match blocks with
  | [] =>
      if Nat.eqb k1 0 then non_adjacent else non_adjacent ++ [MkBlock i1 j1 k1]
  | x :: blocks' =>
      if (i1 + k1 =? m_a x) && (j1 + k1 =? m_b x)
      then collapse blocks' i1 j1 (k1 + m_size x) non_adjacent
      else collapse blocks' (m_a x) (m_b x) (m_size x)
             (if Nat.eqb k1 0 then non_adjacent
              else non_adjacent ++ [MkBlock i1 j1 k1])
  end.

Definition get_matching_blocks (a b : str) : outcome (list Match) :=
  let la := length a in
  let lb := length b in
  matching_blocks <- blocks_loop (2 * la + 2) a b [(0, la, 0, lb)] [] ;;
  Done (collapse (sort matching_blocks) 0 0 0 [] ++ [MkBlock la lb 0]).

Definition sum_sizes (blocks : list Match) : nat :=
  fold_right (fun x n => m_size x + n) 0 blocks.

Definition _calculate_ratio (matches length : Z) : outcome float :=
  if (length =? 0)%Z then Done float_1
  else
    m <- float_of_int matches ;;
    let x := float_mul float_2 m in
    l <- float_of_int length ;;
    float_div x l.

Definition ratio (a b : str) : outcome float :=
  blocks <- get_matching_blocks a b ;;
  _calculate_ratio (Z.of_nat (sum_sizes blocks)) (Z.of_nat (length a + length b)).

End Difflib.

(* ------------------------------------------------------------------ *)
(** ** The difflib fallback of the hash and the comparison (lines 56-62) *)

Module Fallback.

Definition _hash (s : str) : str := s.

(** [int(SequenceMatcher(None, a, b).ratio() * 100)] *)
Definition _similar (a b : str) : outcome Z :=
  r <- Difflib.ratio a b ;;
  hundred <- float_of_int 100 ;;
  int_of_float (float_mul r hundred).

End Fallback.

(** The fallback comparison as the total function the pairwise scan calls.
    It raises nothing on strings Python can hold, so the default is never
    taken there. *)
Definition fallback_similar (a b : str) : Z :=
  match Fallback._similar a b with
  | Done score => score
  | _ => 0%Z
  end.

(** A token mapping of three functions: two with the same body, one with
    nothing in common with them. *)
Definition sample_items : tokens_t :=
  [ ((lit "x.zig", lit "foo"), lit "fn foo() { a(); b(); }");
    ((lit "y.zig", lit "bar"), lit "fn foo() { a(); b(); }");
    ((lit "y.zig", lit "baz"), lit "while (true) { doSomethingElseEntirely(); }") ].

(* ------------------------------------------------------------------ *)
(** ** Notions the statements use *)

(** The number of consecutive elements of [a] just before position [i]
    that are not popular. *)
Fixpoint run_before (a : str) (i : nat) : nat :=
  match i with
  | 0 => 0
  | S i' => if Difflib.popular a (nth i' a 0%N) then 0 else run_before a i' + 1
  end.

(** When a sequence is compared with itself, what [j2len] holds at the
    start of row [i]: no entry exceeds the run before row [i] or the run
    up to its own column, and the entry on the diagonal is that run. *)
Definition diagonal_j2len (a : str) (i : nat) (d : Difflib.j2len_t) : Prop :=
  (forall j, Difflib.j2len_get d j <= run_before a i
             /\ Difflib.j2len_get d j <= run_before a (S j))
  /\ (forall i0, i = S i0 -> Difflib.j2len_get d i0 = run_before a i).

(** Windows waiting in the queue of get_matching_blocks: each is
    well-formed; their total width in [a] and in [b]; and the number of
    loop iterations they can still cost. *)
Definition window_ok (w : nat * nat * nat * nat) : Prop :=
  let '(alo, ahi, blo, bhi) := w in alo <= ahi /\ blo <= bhi.

Definition width_a (queue : list (nat * nat * nat * nat)) : nat :=
  fold_right (fun w n => let '(alo, ahi, _, _) := w in (ahi - alo) + n) 0 queue.

Definition width_b (queue : list (nat * nat * nat * nat)) : nat :=
  fold_right (fun w n => let '(_, _, blo, bhi) := w in (bhi - blo) + n) 0 queue.

Definition potential (queue : list (nat * nat * nat * nat)) : nat :=
  fold_right (fun w n => let '(alo, ahi, _, _) := w in 2 * (ahi - alo) + 1 + n)
             0 queue.

(** A block lies inside the window [a[alo:ahi]], [b[blo:bhi]]. *)
Definition block_in (alo ahi blo bhi : nat) (x : Difflib.Match) : Prop :=
  alo <= Difflib.m_a x /\ Difflib.m_a x + Difflib.m_size x <= ahi
  /\ blo <= Difflib.m_b x /\ Difflib.m_b x + Difflib.m_size x <= bhi.

(** Every entry [j2len[j] = k] read in row [i] is a match of length [k]
    that ends before row [i] and at column [j], inside the window. *)
Definition j2len_in (alo blo i : nat) (d : Difflib.j2len_t) : Prop :=
  Forall (fun jk => alo + snd jk <= i /\ blo + snd jk <= fst jk + 1) d.


(** The value of the brace counter after the characters of [l], started
    at [depth]. *)
Definition depth_after (depth : Z) (l : str) : Z := fold_left depth_step l depth.

(** How many characters the brace loop consumes on the text [rest]. *)
Fixpoint scan_len (rest : str) (depth : Z) : nat :=
  match rest with
  | [] => 0
  | c :: rest' =>
      if (depth =? 0)%Z then 0 else S (scan_len rest' (depth_step depth c))
  end.

(** Text whose braces are balanced: every opening brace has its closing
    brace, properly nested; other characters are free. *)
Inductive balanced : str -> Prop :=
| bal_nil : balanced []
| bal_other c l :
    c <> c_lbrace -> c <> c_rbrace -> balanced l -> balanced (c :: l)
| bal_nest a b :
    balanced a -> balanced b -> balanced (c_lbrace :: a ++ c_rbrace :: b).

(** The whitespace collapse as the specification words it: every maximal
    run of whitespace characters becomes one space, then the ends are
    trimmed.  It is compared with [normalize], which is what the script
    computes. *)
Fixpoint collapse_ws (s : str) : str :=
  match s with
  | [] => []
  | c :: s' =>
      if isspace c then
        match s' with
        | d :: _ => if isspace d then collapse_ws s' else c_space :: collapse_ws s'
        | [] => [c_space]
        end
      else c :: collapse_ws s'
  end.

Definition normalize_spec (body : str) : str := strip (collapse_ws body).

(** Number of leading characters of [s] that satisfy [p]. *)
Fixpoint run_len (p : char -> bool) (s : str) : nat :=
  match s with
  | c :: s' => if p c then S (run_len p s') else 0
  | [] => 0
  end.

(** [s] starts with the letter s. *)
Definition starts_s (s : str) : bool :=
  match s with
  | c :: _ => char_eqb c (ch "s")
  | [] => false
  end.

(** No backslash of [s] is followed by the letter s: [SPACE_RE] matches
    nowhere in [s]. *)
Fixpoint no_space_re (s : str) : bool :=
  match s with
  | [] => true
  | c :: s' => negb (char_eqb c c_backslash && starts_s s') && no_space_re s'
  end.

Section FloatNotions.
Local Open Scope Z_scope.

(** Where the remainder of [a] by [D] lies between two multiples of [D]:
    the location that rounding reads. *)
Definition loc_of (a D : Z) : location :=
  if a mod D =? 0 then loc_Exact else loc_Inexact (2 * (a mod D) ?= D).

(** The shift record [mrs] holds the quotient of [a] by [D] and the
    location of the remainder. *)
Definition sinv (a D : Z) (mrs : shr_record) : Prop :=
  shr_m mrs = a / D /\ loc_of_shr_record mrs = loc_of a D.

(** The float [f] is +0.0 or a positive float of value at most [B]. *)
Definition float_le (B : Z) (f : float) : Prop :=
  f = S754_zero false
  \/ exists m e, f = S754_finite false m e /\ e <= 0 /\ Zpos m <= B * 2 ^ (- e).

(** [float(n)] for an int that a float holds exactly. *)
Definition int_float (n : Z) (m : positive) (e : Z) : Prop :=
  float_of_int n = Done (S754_finite false m e)
  /\ Zdigits2 (Zpos m) = 53
  /\ e = Zdigits2 n - 53
  /\ Zpos m = n * 2 ^ (- e).

(** [float(100)] *)
Definition float_100 : float := S754_finite false 7036874417766400 (-46).

(** How far [float(n)] shifts the bits of an int [n] to fit the mantissa,
    and the integer value of the float it gives. *)
Definition shift_of (n : Z) : Z := Z.max 0 (Zdigits2 n - 53).

Definition rounded (n : Z) : Z :=
  round_nearest_even (n / 2 ^ shift_of n) (loc_of n (2 ^ shift_of n))
  * 2 ^ shift_of n.

(** The normal float [m * 2^e] has the integer value [V]. *)
Definition float_value (V : Z) (m : positive) (e : Z) : Prop :=
  Zdigits2 (Zpos m) = 53 /\ -52 <= e /\ Zpos m * 2 ^ (e + 52) = V * 2 ^ 52.

(** The float [f] is +0.0 or a positive float of value at most [B * 2^s]. *)
Definition float_le_at (s B : Z) (f : float) : Prop :=
  f = S754_zero false
  \/ exists m e, f = S754_finite false m e /\ e <= s /\ Zpos m <= B * 2 ^ (s - e).

(** [fl(0.9) * 2^53], the mantissa of the float nearest to nine tenths. *)
Definition nine_tenths : Z := 8106479329266893.

End FloatNotions.

(** The texts a pattern matches. *)
Fixpoint matches (r : regex) (t : str) : Prop :=
  match r with
  | Atom a => exists c, t = [c] /\ atom_ok a c = true
  | Star a => Forall (fun c => atom_ok a c = true) t
  | Plus a => t <> [] /\ Forall (fun c => atom_ok a c = true) t
  | Seq r1 r2 => exists t1 t2, t = t1 ++ t2 /\ matches r1 t1 /\ matches r2 t2
  | Opt r1 => t = [] \/ matches r1 t
  | Group _ r1 => matches r1 t
  end.

(** [t] is a text that the capturing group number [i] of [r] matches. *)
Fixpoint group_matches (i : nat) (r : regex) (t : str) : Prop :=
  match r with
  | Atom _ | Star _ | Plus _ => False
  | Seq r1 r2 => group_matches i r1 t \/ group_matches i r2 t
  | Opt r1 => group_matches i r1 t
  | Group n r1 => (n = i /\ matches r1 t) \/ group_matches i r1 t
  end.

(** The entry [extract_functions] appends for the match [m]. *)
Definition entry_of (source : str) (m : re_match) : str * str :=
  (match_name source m,
   normalize (slice source (m_start m)
                (m_end m + scan_len (skipn (m_end m) source) 1%Z))).

(** [read_text] did not raise UnicodeDecodeError. *)
Definition decodable (r : read_result) : bool :=
  match r with
  | UnicodeDecodeError => false
  | _ => true
  end.

(** The first and the last character of [s], if any, are not whitespace. *)
Definition no_edge_space (s : str) : Prop :=
  match s with c :: _ => isspace c = false | [] => True end
  /\ match rev s with c :: _ => isspace c = false | [] => True end.

(** The pair of entries [(h, sh)] before [(k, sk)] occurs in [items]. *)
Definition pair_in (items : tokens_t) (h : key) (sh : str) (k : key) (sk : str)
    : Prop :=
  exists pre mid post, items = pre ++ (h, sh) :: mid ++ (k, sk) :: post.

(* ================================================================== *)
(** * Properties *)

Example finditer_minimal :
  finditer FUNC_RE (lit "fn\s\w\\\\\{a  b}") = [MkMatch 0 12 [(2, (8, 9)); (1, (4, 6))]].
Proof. vm_compute. reflexivity. Qed.

Example finditer_zig : finditer FUNC_RE (lit "fn a() { return 1; }") = [].
Proof. vm_compute. reflexivity. Qed.

Example finditer_second :
  map (fun m => (m_start m, m_end m))
    (finditer FUNC_RE (lit "pub\sss fn\ss\www\s\ab)c\\\\s\{ x { y } z } tail fn\s\w\\\\\{"))
  = [(49, 61)].
Proof. vm_compute. reflexivity. Qed.

Example extract_minimal :
  extract_functions (lit "fn\s\w\\\\\{a  b}   tail")
  = Done [(lit "\w", lit "fn \w\\\\\{a  b}")].
Proof. vm_compute. reflexivity. Qed.

(* ------------------------------------------------------------------ *)
(** ** The matcher stays inside the text *)

Lemma star_inv (R : Type) (p : char -> bool) (s : str) (pos : nat)
    (k : str -> nat -> option R) (x : R) :
  star p s pos k = Some x ->
  exists n, n <= length s /\ k (skipn n s) (pos + n) = Some x.
Proof.
  revert pos. induction s as [|c s IH]; intros pos H; simpl in H.
  - exists 0. rewrite Nat.add_0_r. auto.
  - destruct (p c).
    + destruct (star p s (S pos) k) as [r|] eqn:E.
      * inversion H; subst r. apply IH in E. destruct E as (n & Hn & Hk).
        exists (S n). simpl. split; [lia|].
        replace (pos + S n) with (S pos + n) by lia. exact Hk.
      * exists 0. rewrite Nat.add_0_r. simpl. split; [lia|exact H].
    + exists 0. rewrite Nat.add_0_r. simpl. split; [lia|exact H].
Qed.

Lemma firstn_In_le (A : Type) (l : list A) :
  forall n n' x, n <= n' -> In x (firstn n l) -> In x (firstn n' l).
Proof.
  induction l as [|a l IH]; intros [|n] [|n'] x Hn H; simpl in *;
    try contradiction; try lia.
  destruct H as [H|H]; [left; exact H|right].
  apply (IH n n'); [lia|exact H].
Qed.

Lemma firstn_add_In (A : Type) (l : list A) :
  forall n1 n2 x, In x (firstn n2 (skipn n1 l)) -> In x (firstn (n1 + n2) l).
Proof.
  induction l as [|a l IH]; intros [|n1] n2 x H; simpl in *.
  - rewrite firstn_nil in H. contradiction.
  - rewrite firstn_nil in H. contradiction.
  - exact H.
  - right. apply IH. exact H.
Qed.

(** What a successful run of the matcher did before calling its
    continuation: it took [n] characters of the text, at least [min_len r];
    a character every match needs is among them; and a group every match
    sets is set. *)
Lemma exec_inv (R : Type) (c : char) (i : nat) (r : regex) :
  forall (s : str) (pos : nat) (g : groups)
         (k : str -> nat -> groups -> option R) (x : R),
  exec r s pos g k = Some x ->
  exists n g',
    n <= length s /\ min_len r <= n
    /\ (requires c r = true -> In c (firstn n s))
    /\ (sets_group i r = true \/ lookup_group i g <> None ->
        lookup_group i g' <> None)
    /\ k (skipn n s) (pos + n) g' = Some x.
Proof.
  induction r as [a|a|a|r1 IH1 r2 IH2|r1 IH1|m r1 IH1]; intros s pos g k x H;
    simpl in H.
  - destruct s as [|d s]; [discriminate|].
    destruct (atom_ok a d) eqn:Ea; [|discriminate].
    exists 1, g. simpl. repeat split; try lia.
    + destruct a as [e|e]; [|discriminate]. intros Hc. simpl in Ea.
      unfold char_eqb in *. apply N.eqb_eq in Ea, Hc. left. congruence.
    + intros [Hs|Hg]; [discriminate|exact Hg].
    + replace (pos + 1) with (S pos) by lia. exact H.
  - apply star_inv in H. destruct H as (n & Hn & Hk). exists n, g.
    simpl. repeat split; try lia; try discriminate; try assumption.
    intros [Hs|Hg]; [discriminate|exact Hg].
  - destruct s as [|d s]; [discriminate|].
    destruct (atom_ok a d) eqn:Ea; [|discriminate].
    apply star_inv in H. destruct H as (n & Hn & Hk).
    exists (S n), g. simpl. repeat split; try lia.
    + destruct a as [e|e]; [|discriminate]. intros Hc. simpl in Ea.
      unfold char_eqb in *. apply N.eqb_eq in Ea, Hc. left. congruence.
    + intros [Hs|Hg]; [discriminate|exact Hg].
    + replace (pos + S n) with (S pos + n) by lia. exact Hk.
  - apply IH1 in H. destruct H as (n1 & g1 & Hn1 & Hm1 & Hc1 & Hg1 & H).
    apply IH2 in H. destruct H as (n2 & g2 & Hn2 & Hm2 & Hc2 & Hg2 & H).
    rewrite length_skipn in Hn2.
    exists (n1 + n2), g2. simpl. repeat split; try lia.
    + intros Hc. apply orb_true_iff in Hc. destruct Hc as [Hc|Hc].
      * apply (firstn_In_le _ s n1); [lia|auto].
      * apply firstn_add_In. auto.
    + intros [Hs|Hg].
      * apply orb_true_iff in Hs. destruct Hs as [Hs|Hs]; auto.
      * auto.
    + rewrite skipn_skipn in H.
      replace (n1 + n2) with (n2 + n1) at 1 by lia.
      replace (pos + (n1 + n2)) with (pos + n1 + n2) by lia. exact H.
  - destruct (exec r1 s pos g k) as [y|] eqn:E.
    + inversion H; subst y. apply IH1 in E.
      destruct E as (n & g' & Hn & Hm & Hc & Hg & E).
      exists n, g'. simpl. repeat split; try lia; try discriminate; try assumption.
      intros [Hs|Hg0]; [discriminate|auto].
    + exists 0, g. simpl. rewrite Nat.add_0_r.
      repeat split; try lia; try discriminate; try assumption.
      intros [Hs|Hg0]; [discriminate|auto].
  - apply IH1 in H. destruct H as (n & g' & Hn & Hm & Hc & Hg & H).
    exists n, ((m, (pos, pos + n)) :: g'). simpl.
    repeat split; try lia; try assumption.
    intros Hs. destruct (Nat.eqb m i); [discriminate|]. simpl in Hs. auto.
Qed.

Lemma match_at_inv (c : char) (i : nat) (r : regex) (s : str) (pos : nat)
    (m : re_match) :
  match_at r s pos = Some m ->
  m_start m = pos /\ pos + min_len r <= m_end m <= pos + length s
  /\ (requires c r = true -> In c s)
  /\ (sets_group i r = true -> lookup_group i (m_groups m) <> None).
Proof.
  unfold match_at. intros H. apply (exec_inv _ c i) in H.
  destruct H as (n & g' & Hn & Hm & Hc & Hg & H). inversion H; subst m; simpl.
  repeat split; try lia.
  - intros Hr. specialize (Hc Hr).
    apply (firstn_In_le _ s n (length s)) in Hc; [|lia].
    rewrite firstn_all in Hc. exact Hc.
  - intros Hs. auto.
Qed.

Lemma match_at_bounds (r : regex) (s : str) (pos : nat) (m : re_match) :
  match_at r s pos = Some m ->
  m_start m = pos /\ pos <= m_end m <= pos + length s.
Proof.
  intros H. apply (match_at_inv 0%N 0) in H. lia.
Qed.

Lemma finditer_from_bounds (r : regex) (s : str) :
  forall pos skip m,
  In m (finditer_from r s pos skip) ->
  pos <= m_start m /\ m_start m <= m_end m <= pos + length s.
Proof.
  induction s as [|c s IH]; intros pos skip m H; simpl in H.
  - destruct skip; [|contradiction].
    destruct (match_at r [] pos) as [m'|] eqn:E; [|contradiction].
    destruct H as [H|[]]; subst m'.
    apply match_at_bounds in E. simpl in E. lia.
  - destruct skip as [|n].
    + destruct (match_at r (c :: s) pos) as [m'|] eqn:E.
      * destruct H as [H|H].
        -- subst m'. apply match_at_bounds in E. simpl in *. lia.
        -- apply IH in H. simpl. lia.
      * apply IH in H. simpl. lia.
    + apply IH in H. simpl. lia.
Qed.

Lemma finditer_bounds (r : regex) (source : str) (m : re_match) :
  In m (finditer r source) -> m_start m <= m_end m <= length source.
Proof.
  intros H. apply finditer_from_bounds in H. lia.
Qed.

(** Every match [finditer] yields is at least [min_len r] characters long
    and has every group set that the pattern always sets. *)
Lemma finditer_from_inv (i : nat) (r : regex) (s : str) :
  forall pos skip m,
  In m (finditer_from r s pos skip) ->
  m_start m + min_len r <= m_end m
  /\ (sets_group i r = true -> lookup_group i (m_groups m) <> None).
Proof.
  induction s as [|c s IH]; intros pos skip m H; simpl in H.
  - destruct skip; [|contradiction].
    destruct (match_at r [] pos) as [m'|] eqn:E; [|contradiction].
    destruct H as [H|[]]; subst m'.
    apply (match_at_inv 0%N i) in E.
    destruct E as (E1 & E2 & _ & E3). split; [lia|exact E3].
  - destruct skip as [|n].
    + destruct (match_at r (c :: s) pos) as [m'|] eqn:E.
      * destruct H as [H|H].
        -- subst m'. apply (match_at_inv 0%N i) in E.
    destruct E as (E1 & E2 & _ & E3). split; [lia|exact E3].
        -- apply IH in H. exact H.
      * apply IH in H. exact H.
    + apply IH in H. exact H.
Qed.

(** A pattern that needs the character [c] finds nothing in a text without
    it. *)
Lemma finditer_from_requires (c : char) (r : regex) (s : str) :
  requires c r = true -> ~ In c s ->
  forall pos skip, finditer_from r s pos skip = [].
Proof.
  intros Hr. induction s as [|d s IH]; intros Hc pos skip; simpl.
  - destruct skip; [|reflexivity].
    destruct (match_at r [] pos) as [m|] eqn:E; [|reflexivity].
    apply (match_at_inv c 0) in E. destruct E as (_ & _ & E & _).
    exfalso. apply Hc, E, Hr.
  - assert (Hs : ~ In c s) by (intros H; apply Hc; right; exact H).
    destruct skip as [|n]; [|apply IH; exact Hs].
    destruct (match_at r (d :: s) pos) as [m|] eqn:E; [|apply IH; exact Hs].
    apply (match_at_inv c 0) in E. destruct E as (_ & _ & E & _).
    exfalso. apply Hc, E, Hr.
Qed.

(** [m.group(1)] is a string for every match of [FUNC_RE], never [None]:
    the name read at line 83 is the text of the first group. *)
Lemma match_name_group (source : str) (m : re_match) :
  In m (finditer FUNC_RE source) ->
  group source m 1 = Some (match_name source m)
  /\ m_start m + 12 <= m_end m.
Proof.
  intros H. apply (finditer_from_inv 1) in H. destruct H as [Hlen Hg].
  split; [|exact Hlen].
  specialize (Hg eq_refl). unfold match_name, group.
  destruct (lookup_group 1 (m_groups m)) as [[lo hi]|]; [reflexivity|].
  exfalso. apply Hg. reflexivity.
Qed.

(* ------------------------------------------------------------------ *)
(** ** The brace loop *)

Lemma skipn_nth_error (A : Type) (l : list A) :
  forall i c, nth_error l i = Some c -> skipn i l = c :: skipn (S i) l.
Proof.
  induction l as [|a l IH]; intros [|i] c H; simpl in H; try discriminate.
  - inversion H. reflexivity.
  - apply IH in H. exact H.
Qed.

Lemma scan_len_zero (rest : str) : scan_len rest 0%Z = 0.
Proof. destruct rest; reflexivity. Qed.

(** With as many steps as the text has characters the loop always ends, it
    never reads outside the text, and it stops where [scan_len] says. *)
Lemma brace_loop_scan (fuel : nat) :
  forall (source : str) (i : nat) (depth : Z),
  length source <= fuel + i ->
  brace_loop fuel source i depth = Done (i + scan_len (skipn i source) depth).
Proof.
  induction fuel as [|fuel IH]; intros source i depth Hf.
  - simpl. destruct (Nat.ltb_spec i (length source)); [lia|]. simpl.
    rewrite skipn_all2 by lia. simpl. f_equal. lia.
  - simpl. destruct (Nat.ltb_spec i (length source)) as [Hi|Hi]; simpl.
    + destruct (Z.eqb_spec depth 0) as [Hd|Hd]; simpl.
      * subst depth. rewrite scan_len_zero. f_equal. lia.
      * destruct (nth_error source i) as [c|] eqn:E.
        -- rewrite IH by lia. rewrite (skipn_nth_error _ _ _ _ E). simpl.
           destruct (Z.eqb_spec depth 0); [contradiction|]. f_equal. lia.
        -- apply nth_error_None in E. lia.
    + rewrite skipn_all2 by lia. simpl. f_equal. lia.
Qed.

Lemma function_body_eq (source : str) (m : re_match) :
  function_body source m
  = Done (match_name source m,
          slice source (m_start m)
                (m_end m + scan_len (skipn (m_end m) source) 1%Z)).
Proof.
  unfold function_body. rewrite brace_loop_scan by lia. reflexivity.
Qed.

Lemma mapM_Done (A B : Type) (f : A -> outcome B) (h : A -> B) (l : list A) :
  (forall a, In a l -> f a = Done (h a)) -> mapM f l = Done (map h l).
Proof.
  induction l as [|a l IH]; intros H; simpl.
  - reflexivity.
  - rewrite (H a) by (left; reflexivity). simpl.
    rewrite IH by (intros; apply H; right; assumption). reflexivity.
Qed.

(** What [extract_functions] returns, for every text. *)
Lemma extract_functions_eq (source : str) :
  extract_functions source
  = Done (map (fun m =>
                 (match_name source m,
                  normalize (slice source (m_start m)
                     (m_end m + scan_len (skipn (m_end m) source) 1%Z))))
              (finditer FUNC_RE source)).
Proof.
  unfold extract_functions. apply mapM_Done.
  intros m _. rewrite function_body_eq. reflexivity.
Qed.

Lemma scan_len_never_zero (l : str) :
  forall depth,
  (forall k, k < length l -> depth_after depth (firstn k l) <> 0%Z) ->
  scan_len l depth = length l.
Proof.
  induction l as [|c l IH]; intros depth H; simpl.
  - reflexivity.
  - destruct (Z.eqb_spec depth 0) as [Hd|Hd].
    + exfalso. apply (H 0); [simpl; lia|]. exact Hd.
    + f_equal. apply IH. intros k Hk.
      specialize (H (S k)). simpl in H. apply H. lia.
Qed.

Lemma depth_after_app (d : Z) (a b : str) :
  depth_after d (a ++ b) = depth_after (depth_after d a) b.
Proof. unfold depth_after. apply fold_left_app. Qed.

Lemma depth_step_lbrace (d : Z) : depth_step d c_lbrace = (d + 1)%Z.
Proof. reflexivity. Qed.

Lemma depth_step_rbrace (d : Z) : depth_step d c_rbrace = (d - 1)%Z.
Proof. reflexivity. Qed.

Lemma depth_step_other (d : Z) (c : char) :
  c <> c_lbrace -> c <> c_rbrace -> depth_step d c = d.
Proof.
  intros H1 H2. unfold depth_step, char_eqb.
  destruct (N.eqb_spec c c_lbrace); [contradiction|].
  destruct (N.eqb_spec c c_rbrace); [contradiction|]. reflexivity.
Qed.

(** Balanced text leaves the counter where it was and never takes it below
    its starting value. *)
Lemma balanced_depth (l : str) :
  balanced l ->
  forall d, depth_after d l = d /\
            forall k, (d <= depth_after d (firstn k l))%Z.
Proof.
  induction 1 as [|c l Hl Hr Hb IH|a b Ha IHa Hb IHb]; intros d.
  - split; [reflexivity|]. intros k. rewrite firstn_nil. simpl. lia.
  - split.
    + unfold depth_after. simpl. rewrite depth_step_other by assumption.
      apply IH.
    + intros [|k]; simpl; [unfold depth_after; simpl; lia|].
      unfold depth_after. simpl. rewrite depth_step_other by assumption.
      apply IH.
  - assert (E1 : depth_after (d + 1) a = (d + 1)%Z) by apply IHa.
    split.
    + change (c_lbrace :: a ++ c_rbrace :: b)
        with ([c_lbrace] ++ a ++ [c_rbrace] ++ b).
      rewrite !depth_after_app. change (depth_after d [c_lbrace]) with (depth_step d c_lbrace).
      rewrite depth_step_lbrace, E1.
      change (depth_after (d + 1) [c_rbrace]) with (depth_step (d + 1) c_rbrace).
      rewrite depth_step_rbrace.
      replace (d + 1 - 1)%Z with d by lia. apply IHb.
    + intros [|k]; [unfold depth_after; simpl; lia|].
      simpl firstn. unfold depth_after at 1. simpl fold_left.
      rewrite depth_step_lbrace. fold (depth_after (d + 1) (firstn k (a ++ c_rbrace :: b))).
      rewrite firstn_app, depth_after_app.
      destruct (Nat.le_gt_cases k (length a)) as [Hk|Hk].
      * replace (k - length a) with 0 by lia. simpl firstn.
        unfold depth_after at 1. simpl fold_left.
        pose proof (proj2 (IHa (d + 1)%Z) k). lia.
      * rewrite firstn_all2 by lia. rewrite E1.
        destruct (k - length a) as [|j] eqn:Ej; [lia|].
        simpl firstn. unfold depth_after at 1. simpl fold_left.
        rewrite depth_step_rbrace. replace (d + 1 - 1)%Z with d by lia.
        apply IHb.
Qed.

Lemma scan_len_positive_prefix (a : str) :
  forall tail depth,
  (forall k, k <= length a -> depth_after depth (firstn k a) <> 0%Z) ->
  scan_len (a ++ tail) depth = length a + scan_len tail (depth_after depth a).
Proof.
  induction a as [|c a IH]; intros tail depth H; simpl.
  - reflexivity.
  - destruct (Z.eqb_spec depth 0) as [Hd|Hd].
    + exfalso. apply (H 0); [lia|exact Hd].
    + f_equal. unfold depth_after. simpl.
      apply IH. intros k Hk. specialize (H (S k)). simpl in H. apply H. lia.
Qed.

Lemma skipn_slice (s : str) (lo hi : nat) :
  lo <= hi -> skipn lo s = slice s lo hi ++ skipn hi s.
Proof.
  intros H. unfold slice.
  rewrite <- (firstn_skipn (hi - lo) (skipn lo s)) at 1.
  rewrite skipn_skipn. replace (hi - lo + lo) with hi by lia. reflexivity.
Qed.

Lemma slice_length (s : str) (lo hi : nat) :
  lo <= hi -> hi <= length s -> length (slice s lo hi) = hi - lo.
Proof.
  intros H1 H2. unfold slice. rewrite length_firstn, length_skipn. lia.
Qed.

Lemma slice_to_end (s : str) (lo : nat) : slice s lo (length s) = skipn lo s.
Proof.
  unfold slice. apply firstn_all2. rewrite length_skipn. lia.
Qed.

(* ------------------------------------------------------------------ *)
(** ** Function Extractor *)

(** C1.  The text [fn a() { return 1; }] is a declaration with a balanced
    body (the text up to the opening brace, balanced text, the closing
    brace), and the extractor returns no entry for it: [FUNC_RE] as line 64
    writes it, each backslash doubled inside a raw string, asks for literal
    backslash characters and finds no declaration in the text, so no body
    string from [fn] through the closing brace is returned. *)
Theorem extract_misses_plain_declaration :
  let source := lit "fn a() { return 1; }" in
  source = lit "fn a() {" ++ lit " return 1; " ++ [c_rbrace]
  /\ balanced (lit " return 1; ")
  /\ finditer FUNC_RE source = []
  /\ extract_functions source = Done [].
Proof.
  cbv zeta. split; [reflexivity|]. split.
  - repeat (apply bal_other; [discriminate|discriminate|]). apply bal_nil.
  - split; vm_compute; reflexivity.
Qed.

(** X2.  The extractor returns the empty list for every text that holds no
    backslash character: every match of [FUNC_RE] contains one. *)
Theorem extract_needs_backslash (source : str) :
  ~ In c_backslash source ->
  finditer FUNC_RE source = [] /\ extract_functions source = Done [].
Proof.
  intros H.
  assert (E : finditer FUNC_RE source = []).
  { unfold finditer. apply (finditer_from_requires c_backslash); [reflexivity|exact H]. }
  split; [exact E|]. unfold extract_functions. rewrite E. reflexivity.
Qed.

Lemma extract_needs_backslash_witness :
  extract_functions (lit "pub fn add(a: i32, b: i32) i32 { return a + b; }") = Done [].
Proof.
  refine (proj2 (extract_needs_backslash
                   (lit "pub fn add(a: i32, b: i32) i32 { return a + b; }") _)).
  intros H. vm_compute in H.
  repeat (destruct H as [H|H]; [discriminate H|]). exact H.
Defined.

(** X1.  For every text and every match [m] of [FUNC_RE] in it: when the
    text after the opening brace is balanced text [inner]
    followed by a closing brace, the body computed for [m] is exactly the
    text from the start of the match through that closing brace (the
    text of the match, then [inner], then the brace); the counter is
    non-zero at every point before the closing brace and zero right after
    it; and the entry [extract_functions] returns for [m] is the name with
    this body passed through the collapse of line 95. *)
Theorem extract_balanced_body (source : str) (m : re_match) (inner rest : str) :
  In m (finditer FUNC_RE source) ->
  balanced inner ->
  skipn (m_end m) source = inner ++ c_rbrace :: rest ->
  function_body source m
    = Done (match_name source m,
            slice source (m_start m) (m_end m + length inner + 1))
  /\ slice source (m_start m) (m_end m + length inner + 1)
     = slice source (m_start m) (m_end m) ++ inner ++ [c_rbrace]
  /\ (forall k, k <= length inner -> depth_after 1 (firstn k inner) <> 0%Z)
  /\ depth_after 1 (inner ++ [c_rbrace]) = 0%Z
  /\ exists fs, extract_functions source = Done fs
       /\ In (match_name source m,
              normalize (slice source (m_start m) (m_end m + length inner + 1))) fs.
Proof.
  intros Hm Hbal Hsrc.
  pose proof (finditer_bounds _ _ _ Hm) as Hb.
  pose proof (balanced_depth _ Hbal 1%Z) as [Hd Hpre].
  assert (Hnz : forall k, k <= length inner ->
                          depth_after 1 (firstn k inner) <> 0%Z).
  { intros k _. specialize (Hpre k). lia. }
  assert (Hscan : scan_len (skipn (m_end m) source) 1%Z = length inner + 1).
  { rewrite Hsrc, scan_len_positive_prefix by exact Hnz.
    rewrite Hd. simpl. rewrite scan_len_zero. reflexivity. }
  assert (Hbody : function_body source m
    = Done (match_name source m,
            slice source (m_start m) (m_end m + length inner + 1))).
  { rewrite function_body_eq, Hscan. do 3 f_equal. lia. }
  split; [exact Hbody|]. split; [|split; [exact Hnz|split]].
  - unfold slice at 1.
    rewrite (skipn_slice source (m_start m) (m_end m)) by lia.
    rewrite Hsrc.
    rewrite firstn_app, slice_length by lia.
    rewrite firstn_all2 by (rewrite slice_length by lia; lia).
    f_equal.
    replace (m_end m + length inner + 1 - m_start m - (m_end m - m_start m))
      with (length inner + 1) by lia.
    change (inner ++ c_rbrace :: rest) with (inner ++ [c_rbrace] ++ rest).
    rewrite app_assoc, firstn_app.
    rewrite firstn_all2 by (rewrite length_app; simpl; lia).
    rewrite length_app. simpl length.
    replace (length inner + 1 - (length inner + 1)) with 0 by lia.
    simpl. rewrite app_nil_r. reflexivity.
  - rewrite depth_after_app, Hd. reflexivity.
  - eexists. split; [apply extract_functions_eq|].
    apply in_map_iff. exists m. split; [|exact Hm].
    rewrite Hscan. do 3 f_equal. lia.
Qed.

Lemma extract_balanced_body_witness :
  function_body (lit "fn\s\w\\\\\{a{b}c}d") (MkMatch 0 12 [(2, (8, 9)); (1, (4, 6))])
  = Done (lit "\w", lit "fn\s\w\\\\\{a{b}c}").
Proof.
  refine (proj1 (extract_balanced_body (lit "fn\s\w\\\\\{a{b}c}d")
            (MkMatch 0 12 [(2, (8, 9)); (1, (4, 6))])
            (lit "a{b}c") (lit "d") _ _ _)).
  - vm_compute. left. reflexivity.
  - apply bal_other; [discriminate|discriminate|].
    apply (bal_nest (lit "b") (lit "c")).
    + apply bal_other; [discriminate|discriminate|apply bal_nil].
    + apply bal_other; [discriminate|discriminate|apply bal_nil].
  - reflexivity.
Defined.

(** C6.  The text [fn a() { return 1; ] is a declaration whose body is
    never closed: after the opening brace the counter is non-zero at every
    position up to the end of the text.  The extractor ends without an
    exception, but it takes no remainder as the body: [FUNC_RE] as line 64
    writes it finds no declaration in the text, and the list returned is
    empty. *)
Theorem extract_misses_unclosed_declaration :
  let source := lit "fn a() { return 1; " in
  source = lit "fn a() {" ++ lit " return 1; "
  /\ (forall k, depth_after 1 (firstn k (lit " return 1; ")) <> 0%Z)
  /\ finditer FUNC_RE source = []
  /\ extract_functions source = Done [].
Proof.
  cbv zeta. split; [reflexivity|]. split.
  - intros k.
    do 11 (destruct k as [|k]; [vm_compute; discriminate|]).
    cbn [lit list_ascii_of_string map firstn]. rewrite firstn_nil.
    vm_compute. discriminate.
  - split; vm_compute; reflexivity.
Qed.

(** X20.  Extraction returns a list for every text, with no exception; and
    for every match [m] of [FUNC_RE] as line 64 writes it, when the counter
    is non-zero at every position before the end of the text, the body is
    the rest of the text from the start of the match. *)
Theorem extract_unclosed_body (source : str) :
  exists fs, extract_functions source = Done fs /\
  forall m, In m (finditer FUNC_RE source) ->
    (forall k, m_end m <= k < length source ->
       depth_after 1 (slice source (m_end m) k) <> 0%Z) ->
    function_body source m
      = Done (match_name source m, skipn (m_start m) source)
    /\ In (match_name source m, normalize (skipn (m_start m) source)) fs.
Proof.
  eexists. split; [apply extract_functions_eq|].
  intros m Hm Hnz.
  pose proof (finditer_bounds _ _ _ Hm) as Hb.
  assert (Hscan : scan_len (skipn (m_end m) source) 1%Z
                  = length source - m_end m).
  { rewrite scan_len_never_zero; [apply length_skipn|].
    intros k Hk. rewrite length_skipn in Hk.
    specialize (Hnz (m_end m + k)). unfold slice in Hnz.
    replace (m_end m + k - m_end m) with k in Hnz by lia.
    apply Hnz. lia. }
  split.
  - rewrite function_body_eq, Hscan.
    replace (m_end m + (length source - m_end m)) with (length source) by lia.
    rewrite slice_to_end. reflexivity.
  - apply in_map_iff. exists m. split; [|exact Hm].
    rewrite Hscan.
    replace (m_end m + (length source - m_end m)) with (length source) by lia.
    rewrite slice_to_end. reflexivity.
Qed.

Lemma extract_unclosed_body_witness :
  exists fs, extract_functions (lit "x fn\s\w\\\\\{ a { b } c") = Done fs /\
    In (lit "\w", normalize (lit "fn\s\w\\\\\{ a { b } c")) fs.
Proof.
  destruct (extract_unclosed_body (lit "x fn\s\w\\\\\{ a { b } c")) as (fs & Hfs & H).
  exists fs. split; [exact Hfs|].
  refine (proj2 (H (MkMatch 2 14 [(2, (10, 11)); (1, (6, 8))]) _ _)).
  - vm_compute. left. reflexivity.
  - intros k Hk. simpl in Hk.
    assert (Hc : k = 14 \/ k = 15 \/ k = 16 \/ k = 17 \/ k = 18 \/ k = 19
                 \/ k = 20 \/ k = 21 \/ k = 22 \/ k = 23 \/ k = 24) by lia.
    repeat (destruct Hc as [Hc|Hc]; [subst k; vm_compute; discriminate|]).
    subst k; vm_compute; discriminate.
Defined.

(* ------------------------------------------------------------------ *)
(** ** Normalizer *)

Lemma star_total (R : Type) (p : char -> bool) (k : str -> nat -> option R) :
  (forall s' p', k s' p' <> None) ->
  forall s pos, star p s pos k = k (skipn (run_len p s) s) (pos + run_len p s).
Proof.
  intros Hk. induction s as [|c s IH]; intros pos; simpl.
  - rewrite Nat.add_0_r. reflexivity.
  - destruct (p c); simpl.
    + rewrite IH. replace (pos + S (run_len p s)) with (S pos + run_len p s) by lia.
      destruct (k (skipn (run_len p s) s) (S pos + run_len p s)) eqn:E;
        [reflexivity|]. exfalso. eapply Hk; eauto.
    + rewrite Nat.add_0_r. reflexivity.
Qed.

(** Where [SPACE_RE] matches: at a backslash followed by the letter s, up to
    the end of the run of letters s. *)
Lemma match_at_SPACE_RE (s : str) (pos : nat) :
  match_at SPACE_RE s pos =
  match s with
  | c :: s' =>
      if char_eqb c c_backslash && starts_s s'
      then Some (MkMatch pos (pos + 1 + run_len (fun d => char_eqb d (ch "s")) s') [])
      else None
  | [] => None
  end.
Proof.
  unfold match_at, SPACE_RE. simpl.
  destruct s as [|c s']; [reflexivity|].
  destruct (char_eqb c c_backslash); simpl; [|reflexivity].
  destruct s' as [|d s'']; simpl; [reflexivity|].
  match goal with
  | |- context [char_eqb d ?x] => destruct (char_eqb d x) eqn:Ed
  end; [|reflexivity].
  rewrite star_total by discriminate. do 2 f_equal. unfold atom_ok. lia.
Qed.

Lemma sub_from_head (s : str) (pos : nat) :
  starts_s s = false -> starts_s (sub_from SPACE_RE [c_space] s pos 0) = false.
Proof.
  intros H. destruct s as [|c s']; simpl.
  - reflexivity.
  - rewrite match_at_SPACE_RE.
    destruct (char_eqb c c_backslash && starts_s s'); simpl.
    + destruct (Nat.eqb _ pos); reflexivity.
    + exact H.
Qed.

Lemma sub_from_clean (s : str) :
  forall pos skip, no_space_re (sub_from SPACE_RE [c_space] s pos skip) = true.
Proof.
  induction s as [|c s' IH]; intros pos skip; simpl.
  - destruct skip; reflexivity.
  - destruct skip as [|n]; [|apply IH].
    rewrite match_at_SPACE_RE.
    destruct (char_eqb c c_backslash && starts_s s') eqn:E; simpl.
    + match goal with
      | |- context [Nat.eqb ?a ?b] => destruct (Nat.eqb_spec a b)
      end; [lia|]. simpl. apply IH.
    + rewrite IH, andb_true_r.
      destruct (char_eqb c c_backslash); simpl in *; [|reflexivity].
      rewrite sub_from_head by exact E. reflexivity.
Qed.

Lemma sub_from_id (s : str) :
  forall pos, no_space_re s = true -> sub_from SPACE_RE [c_space] s pos 0 = s.
Proof.
  induction s as [|c s' IH]; intros pos H; simpl.
  - reflexivity.
  - simpl in H. apply andb_true_iff in H. destruct H as [H1 H2].
    rewrite match_at_SPACE_RE.
    apply negb_true_iff in H1. rewrite H1. f_equal. apply IH. exact H2.
Qed.

Lemma no_space_re_app (a b : str) :
  no_space_re (a ++ b) = true -> no_space_re a = true /\ no_space_re b = true.
Proof.
  induction a as [|c a IH]; simpl; intros H.
  - auto.
  - apply andb_true_iff in H. destruct H as [H1 H2].
    destruct (IH H2) as [Ha Hb]. split; [|exact Hb].
    rewrite Ha, andb_true_r.
    destruct (char_eqb c c_backslash); simpl in *; [|reflexivity].
    destruct a as [|d a]; [reflexivity|exact H1].
Qed.

Lemma lstrip_suffix (s : str) : exists t, s = t ++ lstrip s.
Proof.
  induction s as [|c s IH]; simpl.
  - exists []. reflexivity.
  - destruct (isspace c).
    + destruct IH as [t Ht]. exists (c :: t). simpl. f_equal. exact Ht.
    + exists []. reflexivity.
Qed.

Lemma rstrip_prefix (s : str) : exists t, s = rstrip s ++ t.
Proof.
  unfold rstrip. destruct (lstrip_suffix (rev s)) as [t Ht].
  exists (rev t). rewrite <- rev_app_distr, <- Ht, rev_involutive. reflexivity.
Qed.

Lemma strip_clean (s : str) :
  no_space_re s = true -> no_space_re (strip s) = true.
Proof.
  intros H. unfold strip.
  destruct (lstrip_suffix s) as [t Ht].
  rewrite Ht in H. apply no_space_re_app in H. destruct H as [_ H].
  destruct (rstrip_prefix (lstrip s)) as [u Hu].
  rewrite Hu in H. apply no_space_re_app in H. apply H.
Qed.

Lemma lstrip_fix (s : str) :
  match s with c :: _ => isspace c = false | [] => True end -> lstrip s = s.
Proof.
  destruct s as [|c s]; simpl; intros H; [reflexivity|]. rewrite H. reflexivity.
Qed.

Lemma lstrip_head (s : str) :
  match lstrip s with c :: _ => isspace c = false | [] => True end.
Proof.
  induction s as [|c s IH]; simpl; [exact I|].
  destruct (isspace c) eqn:E; [exact IH|exact E].
Qed.

Lemma lstrip_idem (s : str) : lstrip (lstrip s) = lstrip s.
Proof. apply lstrip_fix, lstrip_head. Qed.

Lemma rstrip_idem (s : str) : rstrip (rstrip s) = rstrip s.
Proof.
  unfold rstrip. rewrite rev_involutive, lstrip_idem. reflexivity.
Qed.

Lemma strip_idem (s : str) : strip (strip s) = strip s.
Proof.
  unfold strip.
  assert (H : lstrip (rstrip (lstrip s)) = rstrip (lstrip s)).
  { apply lstrip_fix.
    pose proof (lstrip_head s) as Hh.
    destruct (rstrip_prefix (lstrip s)) as [t Ht].
    destruct (rstrip (lstrip s)) as [|c r]; [exact I|].
    rewrite Ht in Hh. exact Hh. }
  rewrite H. apply rstrip_idem.
Qed.

(** C8.  Normalising an already normalised body returns it unchanged. *)
Theorem normalize_idempotent (body : str) :
  normalize (normalize body) = normalize body.
Proof.
  unfold normalize, re_sub.
  rewrite (sub_from_id (strip _)).
  - apply strip_idem.
  - apply strip_clean, sub_from_clean.
Qed.

(** C2, on the script as written.  The pattern of the collapse is a
    backslash followed by letters s, so a run of blanks in a body is kept
    as it is, and two bodies that differ only in the width of a blank run
    stay different; the collapse the specification describes maps both to
    the same text. *)
Theorem normalize_keeps_whitespace_runs :
  normalize (lit "fn\s\w\\\\\{a  b}") = lit "fn \w\\\\\{a  b}"
  /\ normalize_spec (lit "fn\s\w\\\\\{a  b}") = lit "fn\s\w\\\\\{a b}"
  /\ normalize (lit "fn\s\w\\\\\{a  b}") <> normalize (lit "fn\s\w\\\\\{a b}")
  /\ normalize_spec (lit "fn\s\w\\\\\{a  b}") = normalize_spec (lit "fn\s\w\\\\\{a b}")
  /\ extract_functions (lit "fn\s\w\\\\\{a  b}")
     = Done [(lit "\w", lit "fn \w\\\\\{a  b}")].
Proof.
  repeat split; try (vm_compute; reflexivity).
  vm_compute. discriminate.
Qed.

(* ------------------------------------------------------------------ *)
(** ** Cluster Aggregator *)

Lemma str_eqb_eq (a b : str) : str_eqb a b = true <-> a = b.
Proof.
  unfold str_eqb. destruct (list_eq_dec N.eq_dec a b); split; congruence.
Qed.

Lemma str_eqb_refl (a : str) : str_eqb a a = true.
Proof. apply str_eqb_eq. reflexivity. Qed.

Lemma str_eqb_neq (a b : str) : a <> b -> str_eqb a b = false.
Proof.
  intros H. destruct (str_eqb a b) eqn:E; [|reflexivity].
  apply str_eqb_eq in E. contradiction.
Qed.

Lemma setdefault_append_nonempty (k : str) (v : key) (d : clusters_t) :
  lists_nonempty d -> lists_nonempty (setdefault_append k v d).
Proof.
  unfold lists_nonempty. induction d as [|[k' l] d IH]; intros H; simpl.
  - constructor; [simpl; discriminate|constructor].
  - inversion H as [|x y Hx Hy]; subst. destruct (str_eqb k' k).
    + constructor; [|assumption]. simpl. destruct l; discriminate.
    + constructor; [assumption|]. apply IH. assumption.
Qed.

Section AggregatorFacts.
Variable similar_fn : str -> str -> Z.

Lemma scan_pairs_nonempty (k1 : key) (sig1 : str) (rest : tokens_t) :
  forall cl, lists_nonempty cl -> lists_nonempty (scan_pairs similar_fn k1 sig1 rest cl).
Proof.
  unfold scan_pairs. induction rest as [|it rest IH]; intros cl H; simpl.
  - exact H.
  - apply IH. destruct (90 <? similar_fn sig1 (snd it))%Z; [|exact H].
    apply setdefault_append_nonempty. exact H.
Qed.

Lemma scan_items_nonempty (items : tokens_t) :
  forall cl, lists_nonempty cl -> lists_nonempty (scan_items similar_fn items cl).
Proof.
  induction items as [|[k1 sig1] rest IH]; intros cl H; simpl.
  - exact H.
  - apply IH, scan_pairs_nonempty, H.
Qed.

(** Every list of the cluster mapping holds at least one key. *)
Theorem build_clusters_nonempty (items : tokens_t) :
  Forall (fun kl => snd kl <> []) (build_clusters similar_fn items).
Proof.
  apply (scan_items_nonempty items []). constructor.
Qed.

Lemma get_list_setdefault_append (K k : str) (v : key) (d : clusters_t) :
  get_list K (setdefault_append k v d)
  = if str_eqb k K then get_list K d ++ [v] else get_list K d.
Proof.
  unfold get_list. induction d as [|[k' l] d IH]; simpl.
  - destruct (str_eqb k K); reflexivity.
  - destruct (str_eqb k' k) eqn:E1; simpl.
    + apply str_eqb_eq in E1. subst k'.
      destruct (str_eqb k K); reflexivity.
    + destruct (str_eqb k' K) eqn:E2.
      * apply str_eqb_eq in E2. subst k'.
        destruct (str_eqb k K) eqn:E3; [|reflexivity].
        apply str_eqb_eq in E3. subst k. rewrite str_eqb_refl in E1. discriminate.
      * exact IH.
Qed.

Lemma get_list_scan_pairs (K : str) (k1 : key) (sig1 : str) (rest : tokens_t) :
  forall cl,
  get_list K (scan_pairs similar_fn k1 sig1 rest cl)
  = get_list K cl
    ++ (if str_eqb (key_str k1) K then members similar_fn sig1 rest else []).
Proof.
  unfold scan_pairs, members.
  induction rest as [|it rest IH]; intros cl; simpl.
  - destruct (str_eqb (key_str k1) K); rewrite app_nil_r; reflexivity.
  - rewrite IH. destruct (90 <? similar_fn sig1 (snd it))%Z; [|reflexivity].
    rewrite get_list_setdefault_append.
    destruct (str_eqb (key_str k1) K); [|reflexivity].
    simpl. rewrite <- app_assoc. reflexivity.
Qed.

Lemma get_list_scan_items (K : str) (items : tokens_t) :
  forall cl,
  get_list K (scan_items similar_fn items cl)
  = get_list K cl ++ cluster_members similar_fn K items.
Proof.
  induction items as [|[k1 sig1] rest IH]; intros cl; simpl.
  - rewrite app_nil_r. reflexivity.
  - rewrite IH, get_list_scan_pairs, app_assoc. reflexivity.
Qed.

Lemma dict_get_nonempty (K : str) (d : clusters_t) :
  lists_nonempty d -> dict_get K d = nonempty (get_list K d).
Proof.
  unfold get_list, lists_nonempty. induction d as [|[k' l] d IH]; intros H; simpl.
  - reflexivity.
  - inversion H as [|x y Hx Hy]; subst. destruct (str_eqb k' K).
    + simpl in Hx. destruct l; [contradiction|reflexivity].
    + apply IH. assumption.
Qed.

Lemma build_clusters_get (items : tokens_t) (K : str) :
  dict_get K (build_clusters similar_fn items)
  = nonempty (cluster_members similar_fn K items).
Proof.
  rewrite dict_get_nonempty by (apply (scan_items_nonempty items []); constructor).
  unfold build_clusters. rewrite get_list_scan_items. reflexivity.
Qed.

Lemma cluster_members_absent (K : str) (items : tokens_t) :
  ~ In K (map (fun it => key_str (fst it)) items) ->
  cluster_members similar_fn K items = [].
Proof.
  induction items as [|[k1 sig1] rest IH]; intros H; simpl.
  - reflexivity.
  - simpl in H. rewrite str_eqb_neq by tauto. simpl. apply IH. tauto.
Qed.

Lemma cluster_members_at (items : tokens_t) :
  forall i ki si,
  NoDup (map (fun it => key_str (fst it)) items) ->
  nth_error items i = Some (ki, si) ->
  cluster_members similar_fn (key_str ki) items
  = members similar_fn si (skipn (S i) items).
Proof.
  induction items as [|[k1 sig1] rest IH]; intros i ki si Hnd Hi.
  - destruct i; discriminate.
  - simpl in Hnd. inversion Hnd as [|x l Hx Hl]; subst.
    destruct i as [|i]; simpl in Hi.
    + inversion Hi; subst. simpl. rewrite str_eqb_refl.
      rewrite cluster_members_absent by exact Hx. apply app_nil_r.
    + simpl cluster_members. rewrite str_eqb_neq.
      * simpl. apply IH; assumption.
      * intros E. apply Hx. rewrite E.
        apply nth_error_In in Hi.
        apply (in_map (fun it => key_str (fst it))) in Hi. exact Hi.
Qed.

Lemma nodup_key_unique (items : tokens_t) (k : key) (s1 s2 : str) :
  NoDup (map (fun it => key_str (fst it)) items) ->
  In (k, s1) items -> In (k, s2) items -> s1 = s2.
Proof.
  induction items as [|[k0 s0] rest IH]; intros Hnd H1 H2; [contradiction|].
  simpl in Hnd. inversion Hnd as [|x l Hx Hl]; subst.
  destruct H1 as [H1|H1], H2 as [H2|H2].
  - congruence.
  - inversion H1; subst. exfalso. apply Hx.
    apply (in_map (fun it => key_str (fst it))) in H2. exact H2.
  - inversion H2; subst. exfalso. apply Hx.
    apply (in_map (fun it => key_str (fst it))) in H1. exact H1.
  - apply IH; assumption.
Qed.

Lemma In_skipn (A : Type) (l : list A) : forall n x, In x (skipn n l) -> In x l.
Proof.
  induction l as [|a l IH]; intros [|n] x H; simpl in *; auto.
  right. apply (IH n). exact H.
Qed.

Lemma nth_error_skipn_In (A : Type) (l : list A) :
  forall i j x, i < j -> nth_error l j = Some x -> In x (skipn (S i) l).
Proof.
  induction l as [|a l IH]; intros i j x Hij Hj.
  - destruct j; discriminate.
  - destruct j as [|j]; [lia|]. simpl in Hj. destruct i as [|i].
    + simpl. apply nth_error_In in Hj. exact Hj.
    + change (skipn (S (S i)) (a :: l)) with (skipn (S i) l).
      apply (IH i j); [lia|exact Hj].
Qed.

(** C3.  The list the cluster mapping holds under a string key [K] is, for
    the entries whose key is written [K] taken in order, the keys of the
    later entries that score strictly above 90 against them, and [K] is
    absent when there is none.  With pairwise distinct key strings this
    reads, for entries [i] before [j]: the key of [j] is in the list under
    the key of [i] exactly when the score of the pair exceeds 90. *)
Theorem build_clusters_spec (items : tokens_t) :
  (forall K,
     dict_get K (build_clusters similar_fn items)
     = nonempty (cluster_members similar_fn K items))
  /\ (NoDup (map (fun it => key_str (fst it)) items) ->
      forall i j ki si kj sj,
      i < j ->
      nth_error items i = Some (ki, si) ->
      nth_error items j = Some (kj, sj) ->
      dict_get (key_str ki) (build_clusters similar_fn items)
        = nonempty (members similar_fn si (skipn (S i) items))
      /\ ((exists L, dict_get (key_str ki) (build_clusters similar_fn items) = Some L
                     /\ In kj L)
          <-> (90 < similar_fn si sj)%Z)).
Proof.
  split; [intros K; apply build_clusters_get|].
  intros Hnd i j ki si kj sj Hij Hi Hj.
  rewrite build_clusters_get, (cluster_members_at items i ki si Hnd Hi).
  split; [reflexivity|].
  assert (Hin : In kj (members similar_fn si (skipn (S i) items))
                <-> (90 < similar_fn si sj)%Z).
  { unfold members. rewrite in_map_iff. split.
    - intros ([k s] & Hk & Hf). simpl in Hk. subst k.
      apply filter_In in Hf. destruct Hf as [Hf Hs]. simpl in Hs.
      apply In_skipn in Hf. apply nth_error_In in Hj.
      rewrite (nodup_key_unique items kj sj s Hnd Hj Hf).
      apply Z.ltb_lt. exact Hs.
    - intros Hs. exists (kj, sj). split; [reflexivity|].
      apply filter_In. split.
      + apply (nth_error_skipn_In _ items i j); assumption.
      + simpl. apply Z.ltb_lt. exact Hs. }
  rewrite <- Hin. split.
  - intros (L & HL & HkL).
    destruct (members similar_fn si (skipn (S i) items)); simpl in HL;
      [discriminate|]. inversion HL; subst. exact HkL.
  - intros H. exists (members similar_fn si (skipn (S i) items)).
    split; [|exact H].
    destruct (members similar_fn si (skipn (S i) items)); [contradiction|reflexivity].
Qed.

End AggregatorFacts.

Lemma sample_items_distinct :
  NoDup (map (fun it => key_str (fst it)) sample_items).
Proof.
  repeat constructor; simpl; intros H;
    repeat (destruct H as [H|H]; [vm_compute in H; discriminate|]);
    exact H.
Qed.

Lemma build_clusters_spec_witness :
  (exists L, dict_get (lit "x.zig::foo") (build_clusters fallback_similar sample_items)
             = Some L /\ In (lit "y.zig", lit "bar") L)
  /\ ~ (exists L, dict_get (lit "x.zig::foo")
                           (build_clusters fallback_similar sample_items) = Some L
                  /\ In (lit "y.zig", lit "baz") L).
Proof.
  pose proof (proj2 (build_clusters_spec fallback_similar sample_items)
                sample_items_distinct) as H.
  split.
  - apply (proj2 (H 0 1 (lit "x.zig", lit "foo") (lit "fn foo() { a(); b(); }")
                    (lit "y.zig", lit "bar") (lit "fn foo() { a(); b(); }")
                    ltac:(lia) eq_refl eq_refl)).
    vm_compute. reflexivity.
  - intros E.
    apply (proj2 (H 0 2 (lit "x.zig", lit "foo") (lit "fn foo() { a(); b(); }")
                    (lit "y.zig", lit "baz")
                    (lit "while (true) { doSomethingElseEntirely(); }")
                    ltac:(lia) eq_refl eq_refl)) in E.
    vm_compute in E. discriminate.
Defined.

Lemma setdefault_append_In (k : str) (v : key) (d : clusters_t) (K : str)
    (L : list key) (x : key) :
  In (K, L) (setdefault_append k v d) -> In x L ->
  (exists L0, In (K, L0) d /\ In x L0) \/ (K = k /\ x = v).
Proof.
  induction d as [|[k' l] d IH]; simpl; intros H Hx.
  - destruct H as [H|[]]. inversion H; subst.
    destruct Hx as [Hx|[]]. right. auto.
  - destruct (str_eqb k' k) eqn:E.
    + apply str_eqb_eq in E. subst k'. destruct H as [H|H].
      * inversion H; subst. apply in_app_or in Hx. destruct Hx as [Hx|[Hx|[]]].
        -- left. exists l. auto.
        -- right. auto.
      * left. exists L. auto.
    + destruct H as [H|H].
      * inversion H; subst. left. exists L. auto.
      * destruct (IH H Hx) as [(L0 & H0 & Hx0)|Hr]; [|right; exact Hr].
        left. exists L0. auto.
Qed.

Section NoSelfDuplicate.
Variable similar_fn : str -> str -> Z.
Variable all : tokens_t.

Lemma scan_pairs_caused (pre : tokens_t) (k1 : key) (sig1 : str) (rest : tokens_t) :
  forall mid cl,
  all = pre ++ (k1, sig1) :: mid ++ rest ->
  all_caused similar_fn all cl ->
  all_caused similar_fn all (scan_pairs similar_fn k1 sig1 rest cl).
Proof.
  unfold scan_pairs. induction rest as [|[k2 sig2] rest IH]; intros mid cl Hall Hcl.
  - exact Hcl.
  - simpl. apply (IH (mid ++ [(k2, sig2)])).
    + rewrite <- app_assoc. exact Hall.
    + destruct (Z.ltb_spec 90 (similar_fn sig1 sig2)) as [Hs|Hs]; [|exact Hcl].
      intros K L k HK Hk.
      destruct (setdefault_append_In _ _ _ _ _ _ HK Hk) as [(L0 & H0 & Hx)|[HK' Hk']].
      * apply (Hcl K L0 k); assumption.
      * subst K k. exists pre, k1, sig1, mid, sig2, rest. auto.
Qed.

Lemma scan_items_caused (items : tokens_t) :
  forall pre cl,
  all = pre ++ items -> all_caused similar_fn all cl ->
  all_caused similar_fn all (scan_items similar_fn items cl).
Proof.
  induction items as [|[k1 sig1] rest IH]; intros pre cl Hall Hcl; simpl.
  - exact Hcl.
  - apply (IH (pre ++ [(k1, sig1)])).
    + rewrite <- app_assoc. exact Hall.
    + apply (scan_pairs_caused pre k1 sig1 rest []); assumption.
Qed.

End NoSelfDuplicate.

Lemma NoDup_split_neq (A : Type) (pre : list A) (h : A) (mid : list A) (k : A)
    (post : list A) :
  NoDup (pre ++ h :: mid ++ k :: post) -> h <> k.
Proof.
  intros Hnd E. subst k. apply NoDup_remove_2 in Hnd. apply Hnd.
  apply in_or_app. right. apply in_or_app. right. left. reflexivity.
Qed.

(** C7.  In the cluster mapping built from a mapping of fingerprints (its
    keys pairwise distinct), every member [k] of the list under [K] was
    appended for a pair of entries: an earlier entry whose key [h] is
    written [K] and the later entry of [k], with [h <> k]; a key is never
    appended to the list of its own entry.  When distinct keys are written
    differently, the string of a member is never the key of its list. *)
Theorem cluster_never_holds_its_head (similar_fn : str -> str -> Z)
    (items : tokens_t) :
  NoDup (map fst items) ->
  forall K L k,
  In (K, L) (build_clusters similar_fn items) -> In k L ->
  (exists pre h sh mid sk post,
     items = pre ++ (h, sh) :: mid ++ (k, sk) :: post
     /\ key_str h = K /\ (90 < similar_fn sh sk)%Z /\ h <> k)
  /\ ((forall k1 k2, In k1 (map fst items) -> In k2 (map fst items) ->
                     key_str k1 = key_str k2 -> k1 = k2) ->
      key_str k <> K).
Proof.
  intros Hnd K L k HK Hk.
  assert (Hc : caused similar_fn items K k).
  { apply (scan_items_caused similar_fn items items [] []) with (L := L);
      [reflexivity| |exact HK|exact Hk].
    intros K' L' k' []. }
  destruct Hc as (pre & h & sh & mid & sk & post & Hit & HKh & Hs).
  assert (Hneq : h <> k).
  { rewrite Hit in Hnd. rewrite map_app in Hnd. simpl in Hnd.
    rewrite map_app in Hnd. simpl in Hnd.
    apply NoDup_split_neq in Hnd. exact Hnd. }
  split.
  - exists pre, h, sh, mid, sk, post. auto.
  - intros Hinj E. apply Hneq. symmetry. apply Hinj.
    + rewrite Hit, map_app. apply in_or_app. right. simpl. right.
      rewrite map_app. apply in_or_app. right. left. reflexivity.
    + rewrite Hit, map_app. apply in_or_app. right. left. reflexivity.
    + rewrite E. symmetry. exact HKh.
Qed.

Lemma cluster_never_holds_its_head_witness :
  key_str (lit "y.zig", lit "bar") <> lit "x.zig::foo".
Proof.
  refine (proj2 (cluster_never_holds_its_head fallback_similar sample_items _
                   (lit "x.zig::foo") [(lit "y.zig", lit "bar")]
                   (lit "y.zig", lit "bar") _ _) _).
  - repeat constructor; simpl; intros H;
      repeat (destruct H as [H|H]; [vm_compute in H; discriminate|]);
      exact H.
  - vm_compute. left. reflexivity.
  - left. reflexivity.
  - intros k1 k2 H1 H2 E. simpl in H1, H2.
    destruct H1 as [H1|[H1|[H1|[]]]]; destruct H2 as [H2|[H2|[H2|[]]]];
      subst k1 k2; try reflexivity; vm_compute in E; discriminate.
Defined.

(* ------------------------------------------------------------------ *)
(** ** main *)

(** C5.  When the root path does not exist, the run consists of one line
    on stderr and [sys.exit(1)]: no file is read, no report is written,
    and the exit status is not zero. *)
Theorem main_missing_root (hash_fn : str -> str) (similar_fn : str -> str -> Z)
    (path : Type) (Path : str -> path) (path_str : path -> str)
    (parts : path -> list str) (path_exists : path -> bool)
    (rglob_zig : path -> list path) (read_text : path -> read_result)
    (write_ok : bool) (stdout_print : str -> option exn)
    (sys_argv : list str) (argv : option (list str)) :
  path_exists (root_of Path sys_argv argv) = false ->
  exists r,
    main hash_fn similar_fn Path path_str parts path_exists rglob_zig read_text
         write_ok stdout_print sys_argv argv = Done r
    /\ trace r = [Stderr (lit "error: path "
                          ++ path_str (root_of Path sys_argv argv)
                          ++ lit " does not exist")]
    /\ how r = SysExit 1
    /\ (1 <> 0)%Z
    /\ (forall p, ~ In (ReadText p) (trace r))
    /\ (forall o c, ~ In (WriteText o c) (trace r)).
Proof.
  intros H. unfold main. rewrite H. simpl.
  eexists. split; [reflexivity|]. simpl.
  split; [reflexivity|]. split; [reflexivity|]. split; [discriminate|].
  split.
  - intros p [Hp|[]]. discriminate.
  - intros o c [Hp|[]]. discriminate.
Qed.

Lemma main_missing_root_witness :
  exists r,
    main (fun s => s) (fun _ _ => 0%Z) (fun s : str => s) (fun p => p)
         (fun p => [p]) (fun _ => false) (fun _ => []) (fun _ => ReadError)
         true (fun _ => None) [lit "find_function_dupes.py"; lit "nowhere"] None = Done r
    /\ how r = SysExit 1.
Proof.
  destruct (main_missing_root (fun s => s) (fun _ _ => 0%Z) str (fun s : str => s)
              (fun p => p) (fun p => [p]) (fun _ => false) (fun _ => [])
              (fun _ => ReadError) true (fun _ => None)
              [lit "find_function_dupes.py"; lit "nowhere"] None eq_refl)
    as (r & Hr & _ & Hh & _).
  exists r. split; assumption.
Defined.

(* ------------------------------------------------------------------ *)
(** ** difflib: the longest match stays inside its window *)

Section LongestMatchBounds.
Import Difflib.
Variables a b : str.
Variables alo ahi blo bhi : nat.

Lemma j2len_get_in (i j : nat) (d : j2len_t) :
  alo <= i -> blo <= j + 1 -> j2len_in alo blo i d ->
  alo + j2len_get d j <= i /\ blo + j2len_get d j <= j + 1.
Proof.
  intros Hi Hj. unfold j2len_in.
  induction d as [|[j' k] d IH]; intros H; simpl.
  - lia.
  - inversion H as [|x l Hx Hl]; subst. simpl in Hx.
    destruct (Nat.eqb_spec j' j) as [E|E]; [subst j'; exact Hx|].
    apply IH. exact Hl.
Qed.

Lemma scan_row_in (i : nat) (j2len : j2len_t) (js : list nat) :
  alo <= i -> i < ahi -> j2len_in alo blo i j2len ->
  forall newj2len best,
  j2len_in alo blo (S i) newj2len -> block_in alo ahi blo bhi best ->
  j2len_in alo blo (S i) (fst (scan_row js i blo bhi j2len newj2len best))
  /\ block_in alo ahi blo bhi (snd (scan_row js i blo bhi j2len newj2len best)).
Proof.
  intros Hi Hi' Hj2. induction js as [|j js IH]; intros newj2len best Hn Hb; simpl.
  - auto.
  - destruct (Nat.ltb_spec j blo) as [Hj|Hj]; [apply IH; assumption|].
    destruct (Nat.leb_spec bhi j) as [Hj'|Hj']; [simpl; auto|].
    assert (Hk : alo + (match j with 0 => 0 | S j' => j2len_get j2len j' end + 1) <= S i
                 /\ blo + (match j with 0 => 0 | S j' => j2len_get j2len j' end + 1) <= j + 1).
    { destruct j as [|j'].
      - lia.
      - destruct (j2len_get_in i j' j2len Hi ltac:(lia) Hj2). lia. }
    apply IH.
    + constructor; [simpl; exact Hk|exact Hn].
    + destruct (Nat.ltb_spec (m_size best)
                  (match j with 0 => 0 | S j' => j2len_get j2len j' end + 1));
        [|exact Hb].
      unfold block_in. simpl. lia.
Qed.

Lemma scan_rows_in (n : nat) :
  forall i0 j2len best,
  alo <= i0 -> i0 + n <= ahi ->
  j2len_in alo blo i0 j2len -> block_in alo ahi blo bhi best ->
  block_in alo ahi blo bhi (scan_rows (seq i0 n) a b blo bhi j2len best).
Proof.
  induction n as [|n IH]; intros i0 j2len best H0 Hn Hj Hb; simpl.
  - exact Hb.
  - destruct (scan_row (b2j b (nth i0 a 0%N)) i0 blo bhi j2len [] best)
      as [newj2len best'] eqn:E.
    destruct (scan_row_in i0 j2len (b2j b (nth i0 a 0%N)) H0 ltac:(lia) Hj
                [] best ltac:(constructor) Hb) as [H1 H2].
    rewrite E in H1, H2. simpl in H1, H2.
    apply IH; try assumption; lia.
Qed.

Lemma extend_back_in (besti : nat) :
  forall bestj bestsize,
  block_in alo ahi blo bhi (MkBlock besti bestj bestsize) ->
  block_in alo ahi blo bhi (extend_back a b alo blo besti bestj bestsize).
Proof.
  induction besti as [|besti IH]; intros bestj bestsize H; simpl.
  - exact H.
  - destruct (Nat.ltb_spec alo (S besti)) as [H1|H1]; simpl; [|exact H].
    destruct (Nat.ltb_spec blo bestj) as [H2|H2]; simpl; [|exact H].
    destruct (char_eqb (nth besti a 0%N) (nth (bestj - 1) b 0%N)); [|exact H].
    apply IH. unfold block_in in *. simpl in *. lia.
Qed.

Lemma extend_fwd_in (n : nat) :
  forall besti bestj bestsize,
  besti + bestsize <= ahi -> bestj + bestsize <= bhi ->
  bestsize <= extend_fwd n a b ahi bhi besti bestj bestsize
  /\ besti + extend_fwd n a b ahi bhi besti bestj bestsize <= ahi
  /\ bestj + extend_fwd n a b ahi bhi besti bestj bestsize <= bhi.
Proof.
  induction n as [|n IH]; intros besti bestj bestsize Ha Hb; simpl.
  - lia.
  - destruct (Nat.ltb_spec (besti + bestsize) ahi) as [H1|H1]; simpl; [|lia].
    destruct (Nat.ltb_spec (bestj + bestsize) bhi) as [H2|H2]; simpl; [|lia].
    destruct (char_eqb _ _); [|lia].
    destruct (IH besti bestj (bestsize + 1)) as (H3 & H4 & H5); lia.
Qed.

Lemma find_longest_match_in :
  alo <= ahi -> blo <= bhi ->
  block_in alo ahi blo bhi (find_longest_match a b alo ahi blo bhi).
Proof.
  intros Ha Hb. unfold find_longest_match.
  set (best := scan_rows (seq alo (ahi - alo)) a b blo bhi [] (MkBlock alo blo 0)).
  assert (H0 : block_in alo ahi blo bhi best).
  { apply scan_rows_in; try lia; [constructor|].
    unfold block_in. simpl. lia. }
  set (best1 := extend_back a b alo blo (m_a best) (m_b best) (m_size best)).
  assert (H1 : block_in alo ahi blo bhi best1).
  { apply extend_back_in. destruct best. exact H0. }
  destruct H1 as (B1 & B2 & B3 & B4).
  destruct (extend_fwd_in (ahi - (m_a best1 + m_size best1))
              (m_a best1) (m_b best1) (m_size best1) B2 B4) as (F1 & F2 & F3).
  unfold block_in. simpl. lia.
Qed.

End LongestMatchBounds.

(* ------------------------------------------------------------------ *)
(** ** difflib: get_matching_blocks ends, and what its blocks add up to *)

Section MatchingBlocks.
Import Difflib.
Variables a b : str.

Lemma sum_sizes_app (l1 l2 : list Match) :
  sum_sizes (l1 ++ l2) = sum_sizes l1 + sum_sizes l2.
Proof.
  unfold sum_sizes. induction l1 as [|x l1 IH]; simpl; [reflexivity|].
  rewrite IH. lia.
Qed.

Lemma blocks_loop_step (fuel alo ahi blo bhi : nat)
    (queue : list (nat * nat * nat * nat)) (blocks : list Match) :
  blocks_loop (S fuel) a b ((alo, ahi, blo, bhi) :: queue) blocks
  = let x := find_longest_match a b alo ahi blo bhi in
    if Nat.eqb (m_size x) 0 then blocks_loop fuel a b queue blocks
    else
      let q1 :=
        if (alo <? m_a x) && (blo <? m_b x) then (alo, m_a x, blo, m_b x) :: queue
        else queue in
      let q2 :=
        if (m_a x + m_size x <? ahi) && (m_b x + m_size x <? bhi)
        then (m_a x + m_size x, ahi, m_b x + m_size x, bhi) :: q1
        else q1 in
      blocks_loop fuel a b q2 (blocks ++ [x]).
Proof. reflexivity. Qed.

(** The loop ends within the fuel that get_matching_blocks gives it, and
    the blocks found fit side by side in [a] and in [b]. *)
Lemma blocks_loop_total (fuel : nat) :
  forall queue blocks,
  Forall window_ok queue -> potential queue <= fuel ->
  exists bl,
    blocks_loop fuel a b queue blocks = Done bl
    /\ sum_sizes bl <= sum_sizes blocks + width_a queue
    /\ sum_sizes bl <= sum_sizes blocks + width_b queue.
Proof.
  induction fuel as [|fuel IH]; intros queue blocks Hq Hp.
  - destruct queue as [|[[[alo ahi] blo] bhi] queue]; simpl in *.
    + exists blocks. split; [reflexivity|lia].
    + lia.
  - destruct queue as [|[[[alo ahi] blo] bhi] queue].
    + exists blocks. simpl. split; [reflexivity|lia].
    + inversion Hq as [|w q Hw Hq']; subst. simpl in Hw. destruct Hw as [Ha Hb].
      pose proof (find_longest_match_in a b alo ahi blo bhi Ha Hb) as Hin.
      rewrite blocks_loop_step. simpl in Hp.
      set (x := find_longest_match a b alo ahi blo bhi) in *. cbv zeta.
      destruct Hin as (B1 & B2 & B3 & B4). clearbody x.
      destruct (Nat.eqb_spec (m_size x) 0) as [Hk|Hk].
      * destruct (IH queue blocks Hq' ltac:(lia)) as (bl & Hbl & H1 & H2).
        exists bl. split; [exact Hbl|]. simpl. lia.
      * destruct ((alo <? m_a x) && (blo <? m_b x));
          destruct ((m_a x + m_size x <? ahi) && (m_b x + m_size x <? bhi));
          match goal with
          | |- exists bl, blocks_loop fuel a b ?q ?bs = Done bl /\ _ =>
              destruct (IH q bs) as (bl & Hbl & H1 & H2);
                [ repeat (constructor; [unfold window_ok; simpl; lia|]); exact Hq'
                | simpl; lia
                | exists bl; split; [exact Hbl|];
                  rewrite sum_sizes_app in H1, H2; simpl in *; lia ]
          end.
Qed.

Lemma sum_sizes_insert (x : Match) (l : list Match) :
  sum_sizes (insert x l) = m_size x + sum_sizes l.
Proof.
  induction l as [|y l IH]; simpl; [reflexivity|].
  destruct (block_leb x y); simpl; [reflexivity|].
  unfold sum_sizes in *. simpl. rewrite IH. lia.
Qed.

Lemma sum_sizes_sort (l : list Match) : sum_sizes (sort l) = sum_sizes l.
Proof.
  induction l as [|x l IH]; simpl; [reflexivity|].
  rewrite sum_sizes_insert. unfold sum_sizes in *. simpl. rewrite IH. reflexivity.
Qed.

Lemma sum_sizes_collapse (blocks : list Match) :
  forall i1 j1 k1 acc,
  sum_sizes (collapse blocks i1 j1 k1 acc) = sum_sizes acc + k1 + sum_sizes blocks.
Proof.
  induction blocks as [|x blocks IH]; intros i1 j1 k1 acc; simpl.
  - destruct (Nat.eqb_spec k1 0).
    + subst. unfold sum_sizes. simpl. lia.
    + rewrite sum_sizes_app. unfold sum_sizes. simpl. lia.
  - destruct ((i1 + k1 =? m_a x) && (j1 + k1 =? m_b x)); rewrite IH.
    + unfold sum_sizes. simpl. lia.
    + destruct (Nat.eqb_spec k1 0).
      * subst. unfold sum_sizes. simpl. lia.
      * rewrite sum_sizes_app. unfold sum_sizes. simpl. lia.
Qed.

(** get_matching_blocks always returns, and the sizes of its blocks add up
    to at most the length of either sequence. *)
Lemma get_matching_blocks_total :
  exists blocks,
    get_matching_blocks a b = Done blocks
    /\ sum_sizes blocks <= length a /\ sum_sizes blocks <= length b.
Proof.
  unfold get_matching_blocks.
  destruct (blocks_loop_total (2 * length a + 2) [(0, length a, 0, length b)] [])
    as (bl & Hbl & H1 & H2).
  - constructor; [simpl; lia|constructor].
  - simpl. lia.
  - rewrite Hbl. simpl. eexists. split; [reflexivity|].
    rewrite sum_sizes_app, sum_sizes_collapse, sum_sizes_sort.
    unfold sum_sizes in *. simpl in *. lia.
Qed.

End MatchingBlocks.

(* ------------------------------------------------------------------ *)
(** ** difflib: a sequence compared with itself *)

Section SelfMatch.
Import Difflib.
Variable a : str.

Lemma indices_from_In (b : str) (c : char) :
  forall j0 j,
  In j (indices_from b j0 c) <->
  j0 <= j /\ j < j0 + length b /\ nth (j - j0) b 0%N = c.
Proof.
  induction b as [|x b IH]; intros j0 j; simpl.
  - split; [intros []|lia].
  - unfold char_eqb. destruct (N.eqb_spec x c) as [E|E]; simpl; rewrite IH.
    + split.
      * intros [H|(H1 & H2 & H3)].
        -- subst j. replace (j0 - j0) with 0 by lia. repeat split; [lia|lia|exact E].
        -- replace (j - j0) with (S (j - S j0)) by lia. repeat split; [lia|lia|exact H3].
      * intros (H1 & H2 & H3).
        destruct (Nat.eq_dec j0 j) as [Ej|Ej]; [left; exact Ej|right].
        replace (j - j0) with (S (j - S j0)) in H3 by lia.
        repeat split; [lia|lia|exact H3].
    + split.
      * intros (H1 & H2 & H3).
        replace (j - j0) with (S (j - S j0)) by lia. repeat split; [lia|lia|exact H3].
      * intros (H1 & H2 & H3).
        destruct (Nat.eq_dec j0 j) as [Ej|Ej].
        -- subst j. replace (j0 - j0) with 0 in H3 by lia. contradiction.
        -- replace (j - j0) with (S (j - S j0)) in H3 by lia.
           repeat split; [lia|lia|exact H3].
Qed.

Lemma indices_from_sorted (b : str) (c : char) :
  forall j0, StronglySorted lt (indices_from b j0 c).
Proof.
  induction b as [|x b IH]; intros j0; simpl.
  - constructor.
  - destruct (char_eqb x c); [|apply IH].
    constructor; [apply IH|].
    apply Forall_forall. intros j Hj. apply indices_from_In in Hj. lia.
Qed.

(** One row of the table, for a row [i] whose element is not popular. *)
Lemma scan_row_diagonal (i : nat) (j2len : j2len_t) :
  i < length a ->
  popular a (nth i a 0%N) = false ->
  diagonal_j2len a i j2len ->
  forall js newj2len best,
  StronglySorted lt js ->
  (forall j, In j js -> j < length a /\ nth j a 0%N = nth i a 0%N) ->
  (forall j, j2len_get newj2len j <= run_before a (S i)
             /\ j2len_get newj2len j <= run_before a (S j)) ->
  (In i js \/ j2len_get newj2len i = run_before a (S i)) ->
  m_a best = m_b best ->
  (forall i', i' < i -> run_before a (S i') <= m_size best) ->
  (In i js \/ run_before a (S i) <= m_size best) ->
  let r := scan_row js i 0 (length a) j2len newj2len best in
  diagonal_j2len a (S i) (fst r)
  /\ m_a (snd r) = m_b (snd r)
  /\ (forall i', i' < S i -> run_before a (S i') <= m_size (snd r)).
Proof.
  intros Hi Hpop [HJ1 HJ2].
  induction js as [|j js IH]; intros newj2len best Hs Hjs HN1 HN2 HB1 HB2 HB3.
  - simpl. destruct HN2 as [[]|HN2]. destruct HB3 as [[]|HB3].
    split; [split|split].
    + exact HN1.
    + intros i0 E. inversion E; subst i0. exact HN2.
    + exact HB1.
    + intros i' Hi'. destruct (Nat.eq_dec i' i) as [E|E]; [subst; exact HB3|].
      apply HB2. lia.
  - simpl scan_row. cbv zeta.
    destruct (Hjs j (or_introl eq_refl)) as [Hjn Hjc].
    destruct (Nat.leb_spec (length a) j) as [Hge|_]; [lia|].
    apply StronglySorted_inv in Hs. destruct Hs as [Hs Hlt].
    rewrite Forall_forall in Hlt.
    set (k := match j with 0 => 0 | S j' => j2len_get j2len j' end + 1).
    assert (Hri : run_before a (S i) = run_before a i + 1).
    { simpl. rewrite Hpop. reflexivity. }
    assert (Hrj : run_before a (S j) = run_before a j + 1).
    { simpl. rewrite Hjc, Hpop. reflexivity. }
    assert (kA : k <= run_before a (S i)).
    { unfold k. rewrite Hri. destruct j as [|j']; [lia|].
      destruct (HJ1 j'). lia. }
    assert (kB : k <= run_before a (S j)).
    { unfold k. rewrite Hrj. destruct j as [|j']; [lia|].
      destruct (HJ1 j'). lia. }
    assert (kC : j = i -> k = run_before a (S i)).
    { intros E. subst j. unfold k. rewrite Hri. destruct i as [|i0]; [reflexivity|].
      rewrite (HJ2 i0 eq_refl). reflexivity. }
    clearbody k.
    assert (Hupd : m_size best < k -> j = i).
    { intros Hk. destruct (lt_eq_lt_dec j i) as [[Hji|Hji]|Hji]; [|exact Hji|].
      - specialize (HB2 j Hji). lia.
      - destruct HB3 as [[HB3|HB3]|HB3]; [lia|specialize (Hlt i HB3); lia|lia]. }
    apply IH; clear IH.
    + exact Hs.
    + intros j' Hj'. apply Hjs. right. exact Hj'.
    + intros j'. simpl. destruct (Nat.eqb_spec j j') as [E|E].
      * subst j'. split; assumption.
      * apply HN1.
    + destruct (Nat.eq_dec j i) as [E|E].
      * right. simpl. subst j. rewrite Nat.eqb_refl. apply kC. reflexivity.
      * destruct HN2 as [[HN2|HN2]|HN2]; [contradiction|left; exact HN2|].
        right. simpl. destruct (Nat.eqb_spec j i); [contradiction|exact HN2].
    + destruct (Nat.ltb_spec (m_size best) k) as [Hk|Hk]; [|exact HB1].
      simpl. rewrite (Hupd Hk). reflexivity.
    + intros i' Hi'. specialize (HB2 i' Hi').
      destruct (Nat.ltb_spec (m_size best) k); cbn [m_size]; lia.
    + destruct (Nat.eq_dec j i) as [E|E].
      * right. rewrite <- (kC E).
        destruct (Nat.ltb_spec (m_size best) k); cbn [m_size]; lia.
      * destruct HB3 as [[HB3|HB3]|HB3]; [contradiction|left; exact HB3|].
        right. destruct (Nat.ltb_spec (m_size best) k); cbn [m_size]; lia.
Qed.

Lemma scan_rows_diagonal (n : nat) :
  forall i0 j2len best,
  i0 + n <= length a ->
  diagonal_j2len a i0 j2len ->
  m_a best = m_b best ->
  (forall i', i' < i0 -> run_before a (S i') <= m_size best) ->
  m_a (scan_rows (seq i0 n) a a 0 (length a) j2len best)
  = m_b (scan_rows (seq i0 n) a a 0 (length a) j2len best).
Proof.
  induction n as [|n IH]; intros i0 j2len best Hn HJ HB1 HB2; simpl.
  - exact HB1.
  - destruct (scan_row (b2j a (nth i0 a 0%N)) i0 0 (length a) j2len [] best)
      as [newj2len best'] eqn:E.
    assert (H : diagonal_j2len a (S i0) newj2len
                /\ m_a best' = m_b best'
                /\ (forall i', i' < S i0 -> run_before a (S i') <= m_size best')).
    { unfold b2j in E. destruct (popular a (nth i0 a 0%N)) eqn:Hpop.
      - simpl in E. inversion E; subst newj2len best'.
        split; [split|split].
        + intros j. simpl. lia.
        + intros i1 E1. inversion E1; subst i1. simpl. rewrite Hpop. reflexivity.
        + exact HB1.
        + intros i' Hi'. destruct (Nat.eq_dec i' i0) as [Ei|Ei].
          * subst i'. simpl. rewrite Hpop. lia.
          * apply HB2. lia.
      - pose proof (scan_row_diagonal i0 j2len ltac:(lia) Hpop HJ
                      (indices_from a 0 (nth i0 a 0%N)) [] best
                      (indices_from_sorted a _ 0)) as H.
        rewrite E in H. simpl in H. apply H.
        + intros j Hj. apply indices_from_In in Hj.
          rewrite Nat.sub_0_r in Hj. split; [lia|apply Hj].
        + intros j. simpl. lia.
        + left. apply indices_from_In. rewrite Nat.sub_0_r.
          repeat split; lia.
        + exact HB1.
        + exact HB2.
        + left. apply indices_from_In. rewrite Nat.sub_0_r.
          repeat split; lia. }
    destruct H as (H1 & H2 & H3).
    apply IH; try assumption. lia.
Qed.

Lemma char_eqb_refl (c : char) : char_eqb c c = true.
Proof. apply N.eqb_refl. Qed.

Lemma extend_back_self (p : nat) :
  forall size, extend_back a a 0 0 p p size = MkBlock 0 0 (size + p).
Proof.
  induction p as [|p IH]; intros size; simpl.
  - rewrite Nat.add_0_r. reflexivity.
  - rewrite Nat.sub_0_r, char_eqb_refl. simpl. rewrite IH. f_equal. lia.
Qed.

Lemma extend_fwd_self (k : nat) :
  forall size,
  size + k <= length a ->
  extend_fwd k a a (length a) (length a) 0 0 size = size + k.
Proof.
  induction k as [|k IH]; intros size H; simpl.
  - lia.
  - destruct (Nat.ltb_spec size (length a)); [|lia]. simpl.
    rewrite char_eqb_refl. rewrite IH by lia. lia.
Qed.

(** Compared with itself, a sequence is one block. *)
Lemma find_longest_match_self :
  find_longest_match a a 0 (length a) 0 (length a) = MkBlock 0 0 (length a).
Proof.
  unfold find_longest_match.
  set (best := scan_rows (seq 0 (length a - 0)) a a 0 (length a) []
                         (MkBlock 0 0 0)).
  assert (Hin : block_in 0 (length a) 0 (length a) best).
  { apply scan_rows_in; try lia; [constructor|].
    unfold block_in. simpl. lia. }
  assert (Hd : m_a best = m_b best).
  { apply scan_rows_diagonal; try lia.
    - split; [intros j; simpl; lia|intros i0 E; discriminate].
    - reflexivity. }
  destruct Hin as (_ & H2 & _). clearbody best.
  rewrite <- Hd, extend_back_self. simpl.
  rewrite extend_fwd_self by lia. f_equal. lia.
Qed.

Lemma get_matching_blocks_self :
  exists blocks,
    get_matching_blocks a a = Done blocks /\ sum_sizes blocks = length a.
Proof.
  unfold get_matching_blocks.
  replace (2 * length a + 2) with (S (2 * length a + 1)) by lia.
  rewrite blocks_loop_step, find_longest_match_self. cbv zeta. simpl m_size.
  destruct (Nat.eqb_spec (length a) 0) as [E|E].
  - destruct (2 * length a + 1); simpl; (eexists; split; [reflexivity|]);
      rewrite E; reflexivity.
  - simpl m_a. simpl m_b. rewrite !Nat.add_0_l, !Nat.ltb_irrefl.
    cbn [andb app].
    destruct (2 * length a + 1); simpl;
      (destruct (Nat.eqb_spec (length a) 0); [contradiction|]);
      (eexists; split; [reflexivity|]); unfold sum_sizes; simpl; lia.
Qed.

End SelfMatch.

(* ------------------------------------------------------------------ *)
(** ** Floats: rounding, and what float(), *, / and int() return *)

Section FloatFacts.
Local Open Scope Z_scope.


Lemma digits2_pos_size (p : positive) : digits2_pos p = Pos.size p.
Proof. induction p; simpl; congruence. Qed.

Lemma Zdigits2_bounds (m : Z) :
  0 < m -> 2 ^ (Zdigits2 m - 1) <= m < 2 ^ Zdigits2 m.
Proof.
  destruct m as [|p|p]; try lia. intros _.
  change (Zdigits2 (Zpos p)) with (Zpos (digits2_pos p)). rewrite digits2_pos_size.
  split.
  - pose proof (Pos.size_le p) as H.
    apply Pos2Z.pos_le_pos in H. rewrite Pos2Z.inj_pow in H.
    replace (Zpos (Pos.size p)) with (Zpos (Pos.size p) - 1 + 1) in H at 1 by lia.
    rewrite Z.pow_add_r in H by lia. change (2 ^ 1) with 2 in H. lia.
  - pose proof (Pos.size_gt p) as H.
    apply Pos2Z.pos_lt_pos in H. rewrite Pos2Z.inj_pow in H. exact H.
Qed.

Lemma Zdigits2_nonneg (m : Z) : 0 <= Zdigits2 m.
Proof. destruct m; simpl; lia. Qed.

Lemma Zdigits2_le (m z : Z) : 0 <= z -> 0 <= m < 2 ^ z -> Zdigits2 m <= z.
Proof.
  intros Hz [H0 H1]. destruct (Z.eq_dec m 0) as [E|E]; [subst; simpl; lia|].
  destruct (Zdigits2_bounds m ltac:(lia)) as [H2 _].
  destruct (Z.le_gt_cases (Zdigits2 m) z) as [H|H]; [exact H|].
  assert (2 ^ z <= 2 ^ (Zdigits2 m - 1)) by (apply Z.pow_le_mono_r; lia). lia.
Qed.

Lemma Zdigits2_unique (m d : Z) : 2 ^ (d - 1) <= m < 2 ^ d -> 0 < m -> Zdigits2 m = d.
Proof.
  intros [H1 H2] Hm.
  destruct (Zdigits2_bounds m Hm) as [H3 H4].
  pose proof (Zdigits2_nonneg m).
  assert (Hd : 0 <= d).
  { destruct (Z.le_gt_cases 0 d); [assumption|]. rewrite Z.pow_neg_r in H2 by lia. lia. }
  destruct (Z.lt_trichotomy (Zdigits2 m) d) as [Hc|[Hc|Hc]]; [|exact Hc|].
  - assert (2 ^ Zdigits2 m <= 2 ^ (d - 1)) by (apply Z.pow_le_mono_r; lia). lia.
  - assert (2 ^ d <= 2 ^ (Zdigits2 m - 1)) by (apply Z.pow_le_mono_r; lia). lia.
Qed.

Lemma loc_roundtrip (m : Z) (l : location) :
  shr_m (shr_record_of_loc m l) = m
  /\ loc_of_shr_record (shr_record_of_loc m l) = l.
Proof. destruct l as [|[ | | ]]; simpl; auto. Qed.

Lemma sinv_init (a D : Z) : sinv a D (shr_record_of_loc (a / D) (loc_of a D)).
Proof. unfold sinv. apply loc_roundtrip. Qed.

Lemma shr_1_inv (a D : Z) (mrs : shr_record) :
  0 <= a -> 0 < D -> sinv a D mrs -> sinv a (2 * D) (shr_1 mrs).
Proof.
  intros Ha HD [Hm Hl]. destruct mrs as [m r s]. simpl in Hm, Hl.
  pose proof (Z.div_mod a D ltac:(lia)) as Hdm.
  pose proof (Z.mod_pos_bound a D HD) as Hrem.
  assert (Hm0 : 0 <= m) by (subst m; apply Z.div_pos; lia).
  rewrite <- Hm in Hdm.
  assert (Hs : orb r s = negb (a mod D =? 0)).
  { unfold loc_of in Hl. destruct (a mod D =? 0); destruct r, s; simpl in *;
      try discriminate; reflexivity. }
  unfold sinv, loc_of.
  assert (Hcase : forall q bit, (bit = 0 \/ bit = 1) -> m = 2 * q + bit ->
            a / (2 * D) = q /\ a mod (2 * D) = a mod D + D * bit).
  { intros q bit Hbit Eq.
    assert (E : a = (2 * D) * q + (a mod D + D * bit)) by nia.
    split.
    - symmetry. apply (Z.div_unique a (2 * D) q (a mod D + D * bit)); [left; nia|exact E].
    - symmetry. apply (Z.mod_unique a (2 * D) q (a mod D + D * bit)); [left; nia|exact E]. }
  destruct m as [|[p|p|]|p]; try lia; simpl shr_1; cbn [shr_m loc_of_shr_record].
  - (* 0 *) destruct (Hcase 0 0 ltac:(lia) ltac:(lia)) as [E1 E2].
    rewrite E1, E2, Hs. split; [reflexivity|].
    destruct (Z.eqb_spec (a mod D) 0) as [E|E]; cbn [negb loc_of_shr_record].
    + destruct (Z.eqb_spec (a mod D + D * 0) 0); [reflexivity|lia].
    + destruct (Z.eqb_spec (a mod D + D * 0) 0); [lia|].
      f_equal. symmetry. apply Z.compare_lt_iff. lia.
  - (* 2p+1 *) destruct (Hcase (Zpos p) 1 ltac:(lia) ltac:(lia)) as [E1 E2].
    rewrite E1, E2, Hs. split; [reflexivity|].
    destruct (Z.eqb_spec (a mod D) 0) as [E|E]; cbn [negb loc_of_shr_record].
    + destruct (Z.eqb_spec (a mod D + D * 1) 0); [lia|].
      f_equal. symmetry. apply Z.compare_eq_iff. lia.
    + destruct (Z.eqb_spec (a mod D + D * 1) 0); [lia|].
      f_equal. symmetry. apply Z.compare_gt_iff. lia.
  - (* 2p *) destruct (Hcase (Zpos p) 0 ltac:(lia) ltac:(lia)) as [E1 E2].
    rewrite E1, E2, Hs. split; [reflexivity|].
    destruct (Z.eqb_spec (a mod D) 0) as [E|E]; cbn [negb loc_of_shr_record].
    + destruct (Z.eqb_spec (a mod D + D * 0) 0); [reflexivity|lia].
    + destruct (Z.eqb_spec (a mod D + D * 0) 0); [lia|].
      f_equal. symmetry. apply Z.compare_lt_iff. lia.
  - (* 1 *) destruct (Hcase 0 1 ltac:(lia) ltac:(lia)) as [E1 E2].
    rewrite E1, E2, Hs. split; [reflexivity|].
    destruct (Z.eqb_spec (a mod D) 0) as [E|E]; cbn [negb loc_of_shr_record].
    + destruct (Z.eqb_spec (a mod D + D * 1) 0); [lia|].
      f_equal. symmetry. apply Z.compare_eq_iff. lia.
    + destruct (Z.eqb_spec (a mod D + D * 1) 0); [lia|].
      f_equal. symmetry. apply Z.compare_gt_iff. lia.
Qed.

Lemma iter_pos_inv (p : positive) :
  forall a D mrs, 0 <= a -> 0 < D -> sinv a D mrs ->
  sinv a (D * 2 ^ Zpos p) (iter_pos shr_1 p mrs).
Proof.
  induction p as [p IH|p IH|]; intros a D mrs Ha HD H; simpl iter_pos.
  - replace (D * 2 ^ Zpos p~1) with (2 * D * 2 ^ Zpos p * 2 ^ Zpos p).
    + apply IH; [lia|nia|]. apply IH; [lia|lia|]. apply shr_1_inv; assumption.
    + replace (Zpos p~1) with (Zpos p + Zpos p + 1) by lia.
      rewrite !Z.pow_add_r by lia. ring.
  - replace (D * 2 ^ Zpos p~0) with (D * 2 ^ Zpos p * 2 ^ Zpos p).
    + apply IH; [lia|nia|]. apply IH; assumption.
    + replace (Zpos p~0) with (Zpos p + Zpos p) by lia.
      rewrite !Z.pow_add_r by lia. ring.
  - replace (D * 2 ^ 1) with (2 * D) by (change (2 ^ 1) with 2; lia).
    apply shr_1_inv; assumption.
Qed.

Lemma shr_inv (a D : Z) (mrs : shr_record) (e n : Z) :
  0 <= a -> 0 < D -> sinv a D mrs ->
  sinv a (D * 2 ^ Z.max 0 n) (fst (shr mrs e n))
  /\ snd (shr mrs e n) = e + Z.max 0 n.
Proof.
  intros Ha HD H. destruct n as [|p|p]; simpl.
  - rewrite Z.mul_1_r, Z.add_0_r. auto.
  - split; [|reflexivity]. apply iter_pos_inv; assumption.
  - rewrite Z.mul_1_r, Z.add_0_r. auto.
Qed.

Lemma fexp_eq (z : Z) : fexp prec emax z = Z.max (z - 53) (-1074).
Proof. reflexivity. Qed.

Lemma round_nearest_even_range (m : Z) (l : location) :
  m <= round_nearest_even m l <= m + 1
  /\ (l = loc_Exact -> round_nearest_even m l = m).
Proof.
  destruct l as [|[ | | ]]; simpl; try (split; [lia|]; intros; try reflexivity; discriminate).
  destruct (Z.even m); split; try lia; intros; discriminate.
Qed.

Lemma binary_round_aux_spec (a D ex : Z) :
  0 <= a -> 0 < D ->
  let n1 := Z.max 0 (fexp prec emax (Zdigits2 (a / D) + ex) - ex) in
  let D1 := D * 2 ^ n1 in
  let e1 := ex + n1 in
  let mr := round_nearest_even (a / D1) (loc_of a D1) in
  let n2 := Z.max 0 (fexp prec emax (Zdigits2 mr + e1) - e1) in
  binary_round_aux prec emax false (a / D) ex (loc_of a D)
  = match mr / 2 ^ n2 with
    | Z0 => S754_zero false
    | Zpos m =>
        if e1 + n2 <=? emax - prec then S754_finite false m (e1 + n2)
        else S754_infinity false
    | Zneg _ => S754_nan
    end.
Proof.
  intros Ha HD n1 D1 e1 mr n2.
  unfold binary_round_aux, shr_fexp.
  destruct (shr_inv a D (shr_record_of_loc (a / D) (loc_of a D)) ex
              (fexp prec emax (Zdigits2 (a / D) + ex) - ex) Ha HD (sinv_init a D))
    as [[H1 H2] H3].
  destruct (shr (shr_record_of_loc (a / D) (loc_of a D)) ex
              (fexp prec emax (Zdigits2 (a / D) + ex) - ex)) as [mrs' e'].
  cbn [fst snd] in H1, H2, H3. subst e'. rewrite H1, H2.
  fold n1 D1 e1 mr.
  assert (HD1 : 0 < D1) by (unfold D1; apply Z.mul_pos_pos; [lia|apply Z.pow_pos_nonneg; lia]).
  assert (Hmr : 0 <= mr).
  { pose proof (Z.div_pos a D1 Ha HD1).
    destruct (round_nearest_even_range (a / D1) (loc_of a D1)) as [? _].
    fold mr in H0. lia. }
  assert (Hs : sinv mr 1 (shr_record_of_loc mr loc_Exact)).
  { split; simpl; [rewrite Z.div_1_r; reflexivity|].
    unfold loc_of. rewrite Z.mod_1_r. reflexivity. }
  destruct (shr_inv mr 1 _ e1 (fexp prec emax (Zdigits2 mr + e1) - e1) Hmr ltac:(lia) Hs)
    as [[H4 H5] H6].
  destruct (shr (shr_record_of_loc mr loc_Exact) e1
              (fexp prec emax (Zdigits2 mr + e1) - e1)) as [mrs'' e''].
  cbn [fst snd] in H4, H5, H6. subst e''. rewrite H4. fold n2.
  rewrite Z.mul_1_l. reflexivity.
Qed.

Lemma pow2_pos (z : Z) : 0 <= z -> 0 < 2 ^ z.
Proof. intros. apply Z.pow_pos_nonneg; lia. Qed.

Lemma pow2_split (x y : Z) : 0 <= x -> 0 <= y -> 2 ^ (x + y) = 2 ^ x * 2 ^ y.
Proof. intros. apply Z.pow_add_r; assumption. Qed.

(** Rounding a value at most [B] (an integer below 2^53) gives at most [B]. *)
Lemma binary_round_aux_le (B a D ex : Z) :
  0 <= a -> 0 < D -> ex <= 0 -> 0 < B < 2 ^ 53 ->
  a <= B * D * 2 ^ (- ex) ->
  float_le B (binary_round_aux prec emax false (a / D) ex (loc_of a D)).
Proof.
  intros Ha HD Hex HB Hv.
  rewrite binary_round_aux_spec by assumption. cbv zeta.
  set (n1 := Z.max 0 (fexp prec emax (Zdigits2 (a / D) + ex) - ex)).
  set (D1 := D * 2 ^ n1).
  set (e1 := ex + n1).
  set (mr := round_nearest_even (a / D1) (loc_of a D1)).
  set (n2 := Z.max 0 (fexp prec emax (Zdigits2 mr + e1) - e1)).
  assert (Hn1 : 0 <= n1) by (unfold n1; lia).
  assert (Hn2 : 0 <= n2) by (unfold n2; lia).
  (* the first shift stays at a non-positive exponent *)
  assert (Hmx : 0 <= a / D < 2 ^ (53 - ex)).
  { split; [apply Z.div_pos; lia|].
    apply Z.div_lt_upper_bound; [lia|].
    replace (53 - ex) with (53 + - ex) by lia.
    rewrite (pow2_split 53 (- ex)) by lia.
    pose proof (pow2_pos (- ex) ltac:(lia)). nia. }
  assert (He1 : e1 <= 0).
  { unfold e1, n1. rewrite fexp_eq.
    pose proof (Zdigits2_le (a / D) (53 - ex) ltac:(lia) Hmx). lia. }
  assert (HD1 : 0 < D1).
  { unfold D1. pose proof (pow2_pos n1 Hn1). nia. }
  (* the rounded mantissa is at most B * 2^(-e1) *)
  assert (Hq : a <= (B * 2 ^ (- e1)) * D1).
  { unfold D1. replace (- ex) with (- e1 + n1) in Hv by (unfold e1; lia).
    rewrite pow2_split in Hv by lia. nia. }
  assert (Hmr : 0 <= mr <= B * 2 ^ (- e1)).
  { pose proof (Z.div_pos a D1 Ha HD1) as H0.
    destruct (round_nearest_even_range (a / D1) (loc_of a D1)) as [[R1 R2] R3].
    fold mr in R1, R2, R3.
    split; [lia|].
    assert (Hle : a / D1 <= B * 2 ^ (- e1)).
    { apply Z.div_le_upper_bound; [lia|]. lia. }
    destruct (Z.eq_dec (a / D1) (B * 2 ^ (- e1))) as [E|E]; [|lia].
    assert (Hex0 : loc_of a D1 = loc_Exact).
    { unfold loc_of.
      pose proof (Z.div_mod a D1 ltac:(lia)) as Hdm.
      pose proof (Z.mod_pos_bound a D1 HD1) as Hrem.
      rewrite E in Hdm.
      assert (a mod D1 = 0) by nia.
      destruct (Z.eqb_spec (a mod D1) 0); [reflexivity|contradiction]. }
    rewrite (R3 Hex0). lia. }
  assert (Hmr53 : 0 <= mr < 2 ^ (53 - e1)).
  { split; [lia|]. replace (53 - e1) with (53 + - e1) by lia.
    rewrite (pow2_split 53 (- e1)) by lia.
    pose proof (pow2_pos (- e1) ltac:(lia)). nia. }
  assert (He2 : e1 + n2 <= 0).
  { unfold n2. rewrite fexp_eq.
    pose proof (Zdigits2_le mr (53 - e1) ltac:(lia) Hmr53). lia. }
  assert (Hm2 : 0 <= mr / 2 ^ n2 <= B * 2 ^ (- (e1 + n2))).
  { pose proof (pow2_pos n2 Hn2) as Hp.
    split; [apply Z.div_pos; lia|].
    apply Z.div_le_upper_bound; [lia|].
    replace (- e1) with (n2 + - (e1 + n2)) in Hmr by lia.
    rewrite pow2_split in Hmr by lia. nia. }
  destruct (mr / 2 ^ n2) as [|m|m] eqn:Em; [left; reflexivity| |lia].
  right. exists m, (e1 + n2).
  destruct (Z.leb_spec (e1 + n2) (emax - prec)) as [_|Hbad];
    [|unfold emax, prec in Hbad; lia].
  repeat split; [exact He2|lia].
Qed.

Lemma loc_of_1 (a : Z) : loc_of a 1 = loc_Exact.
Proof. unfold loc_of. rewrite Z.mod_1_r. reflexivity. Qed.

Lemma binary_round_aux_exact_le (B : Z) (a : positive) (ex : Z) :
  ex <= 0 -> 0 < B < 2 ^ 53 -> Zpos a <= B * 2 ^ (- ex) ->
  float_le B (binary_round_aux prec emax false (Zpos a) ex loc_Exact).
Proof.
  intros Hex HB Hv.
  rewrite <- (Z.div_1_r (Zpos a)), <- (loc_of_1 (Zpos a)).
  apply binary_round_aux_le; try lia.
Qed.

Lemma Zdigits2_mul_pow2 (m k : Z) :
  0 < m -> 0 <= k -> Zdigits2 (m * 2 ^ k) = Zdigits2 m + k.
Proof.
  intros Hm Hk. destruct (Zdigits2_bounds m Hm) as [H1 H2].
  pose proof (pow2_pos k Hk) as Hp.
  assert (Hd : 1 <= Zdigits2 m).
  { destruct m; try lia. simpl. lia. }
  apply Zdigits2_unique; [|nia].
  replace (Zdigits2 m + k - 1) with (Zdigits2 m - 1 + k) by lia.
  rewrite !pow2_split by lia. nia.
Qed.

(** A mantissa of 53 bits followed by [k] zero bits rounds to itself. *)
Lemma binary_round_aux_exact_shift (m : positive) (e k : Z) :
  Zdigits2 (Zpos m) = 53 -> -1074 <= e <= 971 -> 0 <= k ->
  binary_round_aux prec emax false (Zpos m * 2 ^ k) (e - k) loc_Exact
  = S754_finite false m e.
Proof.
  intros Hd He Hk.
  pose proof (pow2_pos k Hk) as Hp.
  rewrite <- (Z.div_1_r (Zpos m * 2 ^ k)), <- (loc_of_1 (Zpos m * 2 ^ k)).
  rewrite binary_round_aux_spec by nia. cbv zeta.
  rewrite Z.div_1_r, Zdigits2_mul_pow2, Hd, fexp_eq by lia.
  replace (Z.max 0 (Z.max (53 + k + (e - k) - 53) (-1074) - (e - k))) with k by lia.
  rewrite Z.mul_1_l, Z.div_mul by lia.
  assert (El : loc_of (Zpos m * 2 ^ k) (2 ^ k) = loc_Exact).
  { unfold loc_of. rewrite Z.mod_mul by lia. reflexivity. }
  rewrite El. cbn [round_nearest_even]. rewrite Hd, fexp_eq.
  replace (Z.max 0 (Z.max (53 + (e - k + k) - 53) (-1074) - (e - k + k))) with 0 by lia.
  change (2 ^ 0) with 1. rewrite Z.div_1_r.
  replace (e - k + k + 0) with e by lia.
  destruct (Z.leb_spec e (emax - prec)) as [_|Hbad];
    [reflexivity|unfold emax, prec in Hbad; lia].
Qed.

Lemma Pos_iter_xO (m d : positive) :
  Zpos (Pos.iter xO m d) = Zpos m * 2 ^ Zpos d.
Proof.
  induction d as [|d IH] using Pos.peano_ind.
  - simpl. lia.
  - rewrite Pos.iter_succ, Pos2Z.inj_succ, Z.pow_succ_r by lia.
    rewrite Pos2Z.inj_xO, IH. ring.
Qed.

Lemma shl_align_spec (mx : positive) (ex ex' : Z) :
  ex' <= ex ->
  exists mz, shl_align mx ex ex' = (mz, ex')
             /\ Zpos mz = Zpos mx * 2 ^ (ex - ex').
Proof.
  intros H. unfold shl_align. destruct (ex' - ex) as [|d|d] eqn:E; try lia.
  - assert (ex' = ex) by lia. subst ex'. exists mx.
    rewrite Z.sub_diag. simpl. split; [reflexivity|lia].
  - exists (Pos.iter xO mx d). split; [reflexivity|].
    rewrite Pos_iter_xO. f_equal. f_equal. lia.
Qed.

Lemma float_of_int_exact (n : Z) :
  0 < n < 2 ^ 53 -> exists m e, int_float n m e.
Proof.
  intros [H0 H1]. destruct n as [|p|p]; try lia.
  pose proof (Zdigits2_le (Zpos p) 53 ltac:(lia) ltac:(lia)) as Hd.
  pose proof (Zdigits2_bounds (Zpos p) ltac:(lia)) as Hb.
  assert (Hd1 : 1 <= Zdigits2 (Zpos p)) by (simpl; lia).
  destruct (shl_align_spec p 0 (Zdigits2 (Zpos p) - 53) ltac:(lia)) as (mz & Hs & Hmz).
  exists mz, (Zdigits2 (Zpos p) - 53).
  assert (Hdz : Zdigits2 (Zpos mz) = 53).
  { rewrite Hmz, Zdigits2_mul_pow2 by lia. lia. }
  repeat split; try assumption.
  - unfold float_of_int, binary_normalize, binary_round.
    rewrite fexp_eq.
    change (Zdigits2 (Zpos p)) with (Zpos (digits2_pos p)) in *.
    replace (Z.max (Zpos (digits2_pos p) + 0 - 53) (-1074))
      with (Zpos (digits2_pos p) - 53) by lia.
    rewrite Hs.
    pose proof (binary_round_aux_exact_shift mz (Zpos (digits2_pos p) - 53) 0 Hdz
                  ltac:(lia) ltac:(lia)) as Hr.
    change (2 ^ 0) with 1 in Hr. rewrite Z.mul_1_r, Z.sub_0_r in Hr.
    rewrite Hr. reflexivity.
Qed.

Lemma float_mul_2 (m : positive) (e : Z) :
  Zdigits2 (Zpos m) = 53 -> -1075 <= e <= 970 ->
  float_mul float_2 (S754_finite false m e) = S754_finite false m (e + 1).
Proof.
  intros Hd He. unfold float_mul, float_2, SFmul. cbn [xorb].
  rewrite Pos2Z.inj_mul.
  replace (-51 + e) with (e + 1 - 52) by lia.
  change (Zpos 4503599627370496) with (2 ^ 52).
  rewrite Z.mul_comm.
  apply binary_round_aux_exact_shift; lia.
Qed.

Lemma div_eucl_eq (a b : Z) : Z.div_eucl a b = (a / b, a mod b).
Proof. unfold Z.div, Z.modulo. destruct (Z.div_eucl a b). reflexivity. Qed.

Lemma new_location_spec (a D : Z) :
  0 < D -> new_location D (a mod D) = loc_of a D.
Proof.
  intros HD. pose proof (Z.mod_pos_bound a D HD) as Hr.
  unfold new_location, new_location_even, new_location_odd, loc_of.
  destruct (Z.even D) eqn:Ev; destruct (Z.eqb_spec (a mod D) 0); try reflexivity.
  f_equal.
  destruct (Z.compare_spec (2 * (a mod D) + 1) D);
    destruct (Z.compare_spec (2 * (a mod D)) D) as [E2|E2|E2];
    try reflexivity; try lia.
  assert (Z.even D = true) by (rewrite <- E2, Z.even_mul; reflexivity).
  congruence.
Qed.

(** The quotient of two normal floats [x <= y] is at most 1. *)
Lemma float_div_le_1 (mx my : positive) (ex ey : Z) :
  Zdigits2 (Zpos mx) = 53 -> Zdigits2 (Zpos my) = 53 ->
  ex < ey \/ (ex = ey /\ (mx <= my)%positive) ->
  ey - ex <= 1021 ->
  float_le 1 (SFdiv prec emax (S754_finite false mx ex) (S754_finite false my ey)).
Proof.
  intros Hdx Hdy Hle Hrange.
  unfold SFdiv, SFdiv_core_binary. cbn [xorb].
  rewrite Hdx, Hdy, fexp_eq.
  replace (Z.min (Z.max (53 + ex - (53 + ey) - 53) (-1074)) (ex - ey))
    with (ex - ey - 53) by lia.
  replace (ex - ey - (ex - ey - 53)) with 53 by lia.
  rewrite div_eucl_eq, new_location_spec by lia.
  rewrite Z.shiftl_mul_pow2 by lia.
  destruct (Zdigits2_bounds (Zpos mx) ltac:(lia)) as [X1 X2].
  destruct (Zdigits2_bounds (Zpos my) ltac:(lia)) as [Y1 Y2].
  rewrite Hdx in X1, X2. rewrite Hdy in Y1, Y2.
  apply binary_round_aux_le; try lia.
  replace (- (ex - ey - 53)) with (53 + (ey - ex)) by lia.
  rewrite pow2_split by lia.
  pose proof (pow2_pos (ey - ex) ltac:(lia)) as Hp.
  destruct Hle as [Hlt|[He Hm]].
  - assert (2 <= 2 ^ (ey - ex)).
    { replace (ey - ex) with (1 + (ey - ex - 1)) by lia.
      rewrite pow2_split by lia. pose proof (pow2_pos (ey - ex - 1) ltac:(lia)).
      change (2 ^ 1) with 2. lia. }
    change (2 ^ (53 - 1)) with 4503599627370496 in *.
    change (2 ^ 53) with 9007199254740992 in *. nia.
  - subst ey. rewrite Z.sub_diag. change (2 ^ 0) with 1. nia.
Qed.

Lemma float_div_self (m : positive) (e : Z) :
  SFdiv prec emax (S754_finite false m e) (S754_finite false m e) = float_1.
Proof.
  unfold SFdiv, SFdiv_core_binary. cbn [xorb].
  rewrite !Z.sub_diag.
  change (Z.min (fexp prec emax 0) 0) with (-53).
  change (0 - -53) with 53.
  rewrite div_eucl_eq, new_location_spec by lia.
  rewrite Z.shiftl_mul_pow2 by lia.
  replace (Zpos m * 2 ^ 53) with (2 ^ 53 * Zpos m) by ring.
  unfold loc_of. rewrite Z.div_mul, Z.mod_mul by lia.
  vm_compute. reflexivity.
Qed.

Lemma float_of_int_100 : float_of_int 100 = Done float_100.
Proof. vm_compute. reflexivity. Qed.

Lemma float_mul_100_le (q : float) :
  float_le 1 q -> float_le 100 (float_mul q float_100).
Proof.
  intros [Hq|(m & e & Hq & He & Hm)]; subst q.
  - left. reflexivity.
  - unfold float_mul, float_100, SFmul. cbn [xorb].
    apply binary_round_aux_exact_le; [lia|change (2 ^ 53) with 9007199254740992; lia|].
    replace (- (e + -46)) with (46 + - e) by lia.
    rewrite pow2_split by lia. rewrite Pos2Z.inj_mul.
    change (2 ^ 46) with 70368744177664.
    pose proof (pow2_pos (- e) ltac:(lia)). nia.
Qed.

Lemma int_of_float_le (B : Z) (f : float) :
  0 <= B -> float_le B f -> exists z, int_of_float f = Done z /\ 0 <= z <= B.
Proof.
  intros HB [Hf|(m & e & Hf & He & Hm)]; subst f; simpl.
  - exists 0. split; [reflexivity|lia].
  - destruct e as [|p|p]; try lia.
    + eexists. split; [reflexivity|]. rewrite Z.shiftl_0_r.
      change (2 ^ (- 0)) with 1 in Hm. lia.
    + eexists. split; [reflexivity|]. rewrite Z.shiftr_div_pow2 by lia.
      change (- Zneg p) with (Zpos p) in Hm.
      pose proof (pow2_pos (Zpos p) ltac:(lia)) as Hp.
      split; [apply Z.div_pos; lia|].
      apply Z.div_le_upper_bound; [lia|]. nia.
Qed.

Lemma Zdigits2_mono (x y : Z) : 0 < x <= y -> Zdigits2 x <= Zdigits2 y.
Proof.
  intros [Hx Hxy]. destruct (Zdigits2_bounds y ltac:(lia)) as [_ H].
  apply Zdigits2_le; [apply Zdigits2_nonneg|lia].
Qed.

Lemma Zdigits2_double (n : Z) : 0 < n -> Zdigits2 (2 * n) = Zdigits2 n + 1.
Proof.
  intros H. rewrite Z.mul_comm. change 2 with (2 ^ 1) at 1.
  apply Zdigits2_mul_pow2; lia.
Qed.

Lemma round_nearest_even_loc (m a D : Z) :
  0 < D ->
  round_nearest_even m (loc_of a D)
  = m + (if (D <? 2 * (a mod D)) || ((2 * (a mod D) =? D) && Z.odd m)
         then 1 else 0).
Proof.
  intros HD. pose proof (Z.mod_pos_bound a D HD) as Hr.
  unfold loc_of. destruct (Z.eqb_spec (a mod D) 0) as [E|E].
  - rewrite E. change (2 * 0) with 0.
    destruct (Z.ltb_spec D 0); [lia|]. destruct (Z.eqb_spec 0 D); [lia|].
    cbn [orb andb round_nearest_even]. lia.
  - destruct (Z.compare_spec (2 * (a mod D)) D) as [C|C|C];
      cbn [round_nearest_even].
    + destruct (Z.ltb_spec D (2 * (a mod D))); [lia|].
      destruct (Z.eqb_spec (2 * (a mod D)) D); [|lia]. cbn [orb andb].
      rewrite <- Z.negb_even. destruct (Z.even m); cbn [negb]; lia.
    + destruct (Z.ltb_spec D (2 * (a mod D))); [lia|].
      destruct (Z.eqb_spec (2 * (a mod D)) D); [lia|]. cbn [orb andb]. lia.
    + destruct (Z.ltb_spec D (2 * (a mod D))); [|lia]. cbn [orb andb]. lia.
Qed.

Lemma rounded_small (n : Z) : shift_of n = 0 -> rounded n = n.
Proof.
  intros H. unfold rounded. rewrite H. change (2 ^ 0) with 1.
  rewrite loc_of_1, Z.div_1_r. simpl. lia.
Qed.

Lemma shift_of_bounds (n : Z) :
  0 < n ->
  0 <= shift_of n /\ n < 2 ^ (53 + shift_of n)
  /\ (0 < shift_of n -> 2 ^ (52 + shift_of n) <= n).
Proof.
  intros Hn. destruct (Zdigits2_bounds n Hn) as [H1 H2]. unfold shift_of.
  split; [lia|]. split.
  - assert (2 ^ Zdigits2 n <= 2 ^ (53 + Z.max 0 (Zdigits2 n - 53)))
      by (apply Z.pow_le_mono_r; lia). lia.
  - intros Hk.
    replace (52 + Z.max 0 (Zdigits2 n - 53)) with (Zdigits2 n - 1) by lia.
    exact H1.
Qed.

Lemma rounded_bounds (n : Z) :
  0 < n ->
  (n / 2 ^ shift_of n) * 2 ^ shift_of n <= rounded n
  /\ rounded n <= 2 ^ 53 * 2 ^ shift_of n.
Proof.
  intros Hn. destruct (shift_of_bounds n Hn) as (Hk & Hlt & _).
  pose proof (pow2_pos (shift_of n) Hk) as Hp.
  destruct (round_nearest_even_range (n / 2 ^ shift_of n)
              (loc_of n (2 ^ shift_of n))) as [[R1 R2] _].
  unfold rounded. split; [nia|].
  assert (n / 2 ^ shift_of n < 2 ^ 53).
  { apply Z.div_lt_upper_bound; [lia|].
    rewrite pow2_split in Hlt by lia. lia. }
  nia.
Qed.

Lemma rounded_mono (n n' : Z) : 0 < n <= n' -> rounded n <= rounded n'.
Proof.
  intros [Hn Hle].
  assert (Hk : shift_of n <= shift_of n').
  { unfold shift_of. pose proof (Zdigits2_mono n n' ltac:(lia)). lia. }
  destruct (shift_of_bounds n Hn) as (K0 & K1 & K2).
  destruct (shift_of_bounds n' ltac:(lia)) as (K0' & K1' & K2').
  destruct (Z.eq_dec (shift_of n) (shift_of n')) as [E|E].
  - unfold rounded. rewrite <- E.
    set (k := shift_of n) in *.
    pose proof (pow2_pos k K0) as Hp.
    rewrite !round_nearest_even_loc by lia.
    pose proof (Z.div_le_mono n n' (2 ^ k) Hp Hle) as Hm.
    pose proof (Z.div_mod n (2 ^ k) ltac:(lia)) as D1.
    pose proof (Z.div_mod n' (2 ^ k) ltac:(lia)) as D2.
    pose proof (Z.mod_pos_bound n (2 ^ k) Hp) as B1.
    pose proof (Z.mod_pos_bound n' (2 ^ k) Hp) as B2.
    destruct (Z.eq_dec (n / 2 ^ k) (n' / 2 ^ k)) as [Em|Em].
    + rewrite <- Em in *.
      assert (Hr : n mod 2 ^ k <= n' mod 2 ^ k) by lia.
      apply Z.mul_le_mono_nonneg_r; [lia|].
      destruct (Z.ltb_spec (2 ^ k) (2 * (n mod 2 ^ k)));
        destruct (Z.ltb_spec (2 ^ k) (2 * (n' mod 2 ^ k)));
        destruct (Z.eqb_spec (2 * (n mod 2 ^ k)) (2 ^ k));
        destruct (Z.eqb_spec (2 * (n' mod 2 ^ k)) (2 ^ k));
        destruct (Z.odd (n / 2 ^ k)); simpl; lia.
    + assert (n / 2 ^ k + 1 <= n' / 2 ^ k) by lia.
      apply Z.mul_le_mono_nonneg_r; [lia|].
      destruct ((2 ^ k <? 2 * (n mod 2 ^ k))
                || (2 * (n mod 2 ^ k) =? 2 ^ k) && Z.odd (n / 2 ^ k));
        destruct ((2 ^ k <? 2 * (n' mod 2 ^ k))
                  || (2 * (n' mod 2 ^ k) =? 2 ^ k) && Z.odd (n' / 2 ^ k)); lia.
  - destruct (rounded_bounds n Hn) as [_ U].
    destruct (rounded_bounds n' ltac:(lia)) as [L _].
    specialize (K2' ltac:(lia)).
    pose proof (pow2_pos (shift_of n') K0') as Hp'.
    assert (2 ^ 52 <= n' / 2 ^ shift_of n').
    { apply Z.div_le_lower_bound; [lia|].
      rewrite pow2_split in K2' by lia. lia. }
    assert (2 ^ 53 * 2 ^ shift_of n <= 2 ^ 52 * 2 ^ shift_of n').
    { rewrite <- !pow2_split by lia. apply Z.pow_le_mono_r; lia. }
    nia.
Qed.

Lemma rounded_double (n : Z) : 0 < n -> rounded (2 * n) = 2 * rounded n.
Proof.
  intros Hn. pose proof (Zdigits2_double n Hn) as Hd.
  destruct (Z.le_gt_cases (Zdigits2 n) 52) as [Hs|Hs].
  - rewrite !rounded_small; [reflexivity| |]; unfold shift_of; lia.
  - assert (Hk : shift_of (2 * n) = shift_of n + 1) by (unfold shift_of; lia).
    assert (K0 : 0 <= shift_of n) by (unfold shift_of; lia).
    unfold rounded. rewrite Hk.
    set (k := shift_of n) in *.
    pose proof (pow2_pos k K0) as Hp.
    replace (2 ^ (k + 1)) with (2 * 2 ^ k)
      by (rewrite pow2_split by lia; change (2 ^ 1) with 2; ring).
    rewrite !round_nearest_even_loc by lia.
    rewrite Z.div_mul_cancel_l by lia.
    rewrite Z.mul_mod_distr_l by lia.
    replace (2 * 2 ^ k <? 2 * (2 * (n mod 2 ^ k)))
      with (2 ^ k <? 2 * (n mod 2 ^ k)).
    2:{ destruct (Z.ltb_spec (2 ^ k) (2 * (n mod 2 ^ k)));
        destruct (Z.ltb_spec (2 * 2 ^ k) (2 * (2 * (n mod 2 ^ k))));
        try reflexivity; lia. }
    replace (2 * (2 * (n mod 2 ^ k)) =? 2 * 2 ^ k)
      with (2 * (n mod 2 ^ k) =? 2 ^ k).
    2:{ destruct (Z.eqb_spec (2 * (n mod 2 ^ k)) (2 ^ k));
        destruct (Z.eqb_spec (2 * (2 * (n mod 2 ^ k))) (2 * 2 ^ k));
        try reflexivity; lia. }
    ring.
Qed.

Lemma shl_align_up (mx : positive) (ex ex' : Z) :
  ex <= ex' -> shl_align mx ex ex' = (mx, ex).
Proof.
  intros H. unfold shl_align. destruct (ex' - ex) eqn:E; try reflexivity. lia.
Qed.

(** [float(n)] succeeds on every int a length can be, and its value is
    [rounded n]. *)
Lemma float_of_int_rounded (n : Z) :
  0 < n < 2 ^ 64 ->
  exists m e, float_of_int n = Done (S754_finite false m e)
              /\ float_value (rounded n) m e /\ e <= 12.
Proof.
  intros [H0 H1].
  destruct (Z.le_gt_cases (Zdigits2 n) 53) as [Hs|Hs].
  - destruct (Zdigits2_bounds n H0) as [B1 B2].
    assert (n < 2 ^ 53).
    { assert (2 ^ Zdigits2 n <= 2 ^ 53) by (apply Z.pow_le_mono_r; lia). lia. }
    destruct (float_of_int_exact n ltac:(lia)) as (m & e & Hf & Hd & He & Hm).
    assert (Hd1 : 1 <= Zdigits2 n) by (destruct n; simpl; lia).
    exists m, e. split; [exact Hf|]. split; [|lia].
    rewrite rounded_small by (unfold shift_of; lia).
    repeat split; [exact Hd|lia|].
    rewrite Hm, <- Z.mul_assoc, <- pow2_split by lia.
    f_equal. f_equal. lia.
  - destruct n as [|p|p]; try lia.
    assert (Hd64 : Zdigits2 (Zpos p) <= 64) by (apply Zdigits2_le; lia).
    destruct (shift_of_bounds (Zpos p) H0) as (K0 & K1 & K2).
    assert (Hk : shift_of (Zpos p) = Zdigits2 (Zpos p) - 53) by (unfold shift_of; lia).
    specialize (K2 ltac:(lia)).
    unfold float_of_int, binary_normalize, binary_round.
    rewrite fexp_eq, shl_align_up
      by (change (Zpos (digits2_pos p)) with (Zdigits2 (Zpos p)); lia).
    replace (binary_round_aux prec emax false (Zpos p) 0 loc_Exact)
      with (binary_round_aux prec emax false (Zpos p / 1) 0 (loc_of (Zpos p) 1))
      by (rewrite Z.div_1_r, loc_of_1; reflexivity).
    rewrite binary_round_aux_spec by lia. cbv zeta.
    rewrite Z.div_1_r, fexp_eq.
    replace (Z.max 0 (Z.max (Zdigits2 (Zpos p) + 0 - 53) (-1074) - 0))
      with (shift_of (Zpos p)) by lia.
    rewrite Z.mul_1_l, Z.add_0_l.
    set (k := shift_of (Zpos p)) in *.
    pose proof (pow2_pos k K0) as Hp.
    assert (Hm1 : 2 ^ 52 <= Zpos p / 2 ^ k < 2 ^ 53).
    { split.
      - apply Z.div_le_lower_bound; [lia|]. rewrite pow2_split in K2 by lia. lia.
      - apply Z.div_lt_upper_bound; [lia|]. rewrite pow2_split in K1 by lia. lia. }
    destruct (round_nearest_even_range (Zpos p / 2 ^ k) (loc_of (Zpos p) (2 ^ k)))
      as [[R1 R2] _].
    assert (Hr : rounded (Zpos p)
                 = round_nearest_even (Zpos p / 2 ^ k) (loc_of (Zpos p) (2 ^ k)) * 2 ^ k)
      by reflexivity.
    set (mr := round_nearest_even (Zpos p / 2 ^ k) (loc_of (Zpos p) (2 ^ k))) in *.
    rewrite fexp_eq.
    destruct (Z.eq_dec mr (2 ^ 53)) as [E|E].
    + rewrite E. change (Zdigits2 (2 ^ 53)) with 54.
      replace (Z.max 0 (Z.max (54 + k - 53) (-1074) - k)) with 1 by lia.
      change (2 ^ 53 / 2 ^ 1) with (Zpos 4503599627370496).
      destruct (Z.leb_spec (k + 1) (emax - prec)) as [_|Hbad];
        [|unfold emax, prec in Hbad; lia].
      eexists _, _. split; [reflexivity|]. split; [|lia].
      repeat split; [lia|].
      rewrite Hr, E. change (Zpos 4503599627370496) with (2 ^ 52).
      replace (k + 1 + 52) with (1 + k + 52) by lia.
      rewrite !pow2_split by lia. change (2 ^ 53) with (2 ^ 52 * 2 ^ 1). ring.
    + assert (Hd : Zdigits2 mr = 53) by (apply Zdigits2_unique; lia).
      rewrite Hd.
      replace (Z.max 0 (Z.max (53 + k - 53) (-1074) - k)) with 0 by lia.
      change (2 ^ 0) with 1. rewrite Z.div_1_r, Z.add_0_r.
      destruct mr as [|m|m] eqn:Emr; try lia.
      destruct (Z.leb_spec k (emax - prec)) as [_|Hbad];
        [|unfold emax, prec in Hbad; lia].
      eexists _, _. split; [reflexivity|]. split; [|lia].
      repeat split; [exact Hd|lia|].
      rewrite Hr, pow2_split by lia. ring.
Qed.

(** Normal floats are ordered as their values are. *)
Lemma float_value_le (V V' : Z) (m m' : positive) (e e' : Z) :
  float_value V m e -> float_value V' m' e' -> V <= V' ->
  e < e' \/ (e = e' /\ (m <= m')%positive).
Proof.
  intros (Hd & He & Hv) (Hd' & He' & Hv') Hle.
  destruct (Zdigits2_bounds (Zpos m) ltac:(lia)) as [X1 X2].
  destruct (Zdigits2_bounds (Zpos m') ltac:(lia)) as [Y1 Y2].
  rewrite Hd in X1, X2. rewrite Hd' in Y1, Y2.
  change (2 ^ (53 - 1)) with (2 ^ 52) in *.
  assert (Hmm : Zpos m * 2 ^ (e + 52) <= Zpos m' * 2 ^ (e' + 52)).
  { rewrite Hv, Hv'. apply Z.mul_le_mono_nonneg_r; [|exact Hle].
    pose proof (pow2_pos 52 ltac:(lia)). lia. }
  pose proof (pow2_pos (e + 52) ltac:(lia)) as P1.
  pose proof (pow2_pos (e' + 52) ltac:(lia)) as P2.
  destruct (Z.lt_trichotomy e e') as [H|[H|H]]; [left; exact H| |].
  - right. split; [exact H|]. subst e'.
    assert (Zpos m <= Zpos m') by nia. lia.
  - exfalso.
    replace (e + 52) with (e' + 52 + (e - e')) in Hmm by lia.
    rewrite pow2_split in Hmm by lia.
    assert (2 <= 2 ^ (e - e')).
    { replace (e - e') with (1 + (e - e' - 1)) by lia.
      rewrite pow2_split by lia. pose proof (pow2_pos (e - e' - 1) ltac:(lia)).
      change (2 ^ 1) with 2. lia. }
    change (2 ^ 53) with (2 * 2 ^ 52) in *.
    pose proof (pow2_pos 52 ltac:(lia)).
    assert (A : Zpos m' < Zpos m * 2 ^ (e - e')) by nia.
    assert (B : Zpos m' * 2 ^ (e' + 52) < Zpos m * 2 ^ (e - e') * 2 ^ (e' + 52))
      by (apply Z.mul_lt_mono_pos_r; lia).
    replace (Zpos m * (2 ^ (e' + 52) * 2 ^ (e - e')))
      with (Zpos m * 2 ^ (e - e') * 2 ^ (e' + 52)) in Hmm by ring.
    lia.
Qed.

Lemma float_value_unique (V : Z) (m m' : positive) (e e' : Z) :
  float_value V m e -> float_value V m' e' -> m = m' /\ e = e'.
Proof.
  intros H H'.
  destruct (float_value_le V V m m' e e' H H' ltac:(lia)) as [L1|[L1 L2]];
    destruct (float_value_le V V m' m e' e H' H ltac:(lia)) as [L3|[L3 L4]];
    lia.
Qed.

Lemma float_le_1_1 : float_le 1 float_1.
Proof.
  right. exists 4503599627370496%positive, (-52).
  repeat split; try lia; vm_compute; discriminate.
Qed.

(** For [0 <= 2 * matches <= length], [_calculate_ratio] returns a float
    that is at most 1. *)
Lemma calculate_ratio_le (M T : Z) :
  0 <= M -> 2 * M <= T -> T < 2 ^ 64 ->
  exists q, Difflib._calculate_ratio M T = Done q /\ float_le 1 q.
Proof.
  intros HM HMT HT. unfold Difflib._calculate_ratio.
  destruct (Z.eqb_spec T 0) as [E|E].
  - exists float_1. split; [reflexivity|exact float_le_1_1].
  - destruct (float_of_int_rounded T ltac:(lia)) as (mt & et & Ft & Vt & Et).
    destruct (Z.eq_dec M 0) as [EM|EM].
    + subst M. rewrite Ft. simpl. eexists. split; [reflexivity|]. left. reflexivity.
    + destruct (float_of_int_rounded M ltac:(lia)) as (mm & em & Fm & Vm & Em).
      rewrite Fm, Ft. cbn [bind float_div].
      destruct Vm as (Dm & Lm & Xm). 
      rewrite float_mul_2 by lia.
      eexists. split; [reflexivity|].
      apply float_div_le_1; [exact Dm|apply Vt| |lia].
      apply (float_value_le (rounded (2 * M)) (rounded T)).
      * repeat split; [exact Dm|lia|].
        rewrite rounded_double by lia.
        replace (em + 1 + 52) with (1 + (em + 52)) by lia.
        rewrite pow2_split by lia. change (2 ^ 1) with 2. lia.
      * exact Vt.
      * apply rounded_mono. lia.
Qed.

(** With [matches] the whole of a sequence and [length] twice that,
    [_calculate_ratio] returns 1.0. *)
Lemma calculate_ratio_self (n : Z) :
  0 <= n < 2 ^ 63 -> Difflib._calculate_ratio n (n + n) = Done float_1.
Proof.
  intros [H0 H1]. unfold Difflib._calculate_ratio.
  destruct (Z.eqb_spec (n + n) 0) as [E|E]; [reflexivity|].
  change (2 ^ 63) with 9223372036854775808 in H1.
  destruct (float_of_int_rounded n ltac:(change (2 ^ 64) with 18446744073709551616; lia))
    as (m & e & Fn & Vn & En).
  destruct (float_of_int_rounded (n + n)
              ltac:(change (2 ^ 64) with 18446744073709551616; lia))
    as (m2 & e2 & F2 & V2 & E2).
  rewrite Fn, F2. cbn [bind float_div].
  destruct Vn as (Dn & Ln & Xn).
  rewrite float_mul_2 by lia.
  assert (Hu : m = m2 /\ e + 1 = e2).
  { apply (float_value_unique (rounded (n + n))); [|exact V2].
    repeat split; [exact Dn|lia|].
    replace (n + n) with (2 * n) by lia. rewrite rounded_double by lia.
    replace (e + 1 + 52) with (1 + (e + 52)) by lia.
    rewrite pow2_split by lia. change (2 ^ 1) with 2. lia. }
  destruct Hu; subst m2 e2. rewrite float_div_self. reflexivity.
Qed.

End FloatFacts.

(* ------------------------------------------------------------------ *)
(** ** Similarity Comparator *)

(** C9.  For strings as long as CPython allows (at most sys.maxsize, that is
    2^63 - 1, characters each), the comparison raises nothing and returns
    an integer from 0 to 100. *)
Theorem similar_in_range (a b : str) :
  (Z.of_nat (length a) < 2 ^ 63)%Z ->
  (Z.of_nat (length b) < 2 ^ 63)%Z ->
  exists z, Fallback._similar a b = Done z /\ (0 <= z <= 100)%Z.
Proof.
  intros Ha Hb. unfold Fallback._similar, Difflib.ratio.
  destruct (get_matching_blocks_total a b) as (blocks & Hbl & H1 & H2).
  rewrite Hbl. cbn [bind].
  change (2 ^ 63)%Z with 9223372036854775808%Z in Ha, Hb.
  destruct (calculate_ratio_le (Z.of_nat (Difflib.sum_sizes blocks))
              (Z.of_nat (length a + length b)))
    as (q & Hq & Hle);
    [lia|lia|change (2 ^ 64)%Z with 18446744073709551616%Z; lia|].
  rewrite Hq, float_of_int_100. cbn [bind].
  apply int_of_float_le; [lia|]. apply float_mul_100_le. exact Hle.
Qed.

Lemma similar_in_range_witness :
  exists z, Fallback._similar (lit "fn a() { return 1; }")
                              (lit "fn b() { while (true) { } }") = Done z
            /\ (0 <= z <= 100)%Z.
Proof.
  apply similar_in_range; vm_compute; reflexivity.
Defined.

(** X19.  A string (of at most sys.maxsize characters) compared with
    itself scores 100. *)
Theorem similar_self (a : str) :
  (Z.of_nat (length a) < 2 ^ 63)%Z -> Fallback._similar a a = Done 100%Z.
Proof.
  intros Ha. unfold Fallback._similar, Difflib.ratio.
  destruct (get_matching_blocks_self a) as (blocks & Hbl & Hsum).
  rewrite Hbl. cbn [bind]. rewrite Hsum, Nat2Z.inj_add.
  rewrite calculate_ratio_self by lia.
  vm_compute. reflexivity.
Qed.

Lemma similar_self_witness :
  Fallback._similar (lit "fn a() { return 1; }") (lit "fn a() { return 1; }")
  = Done 100%Z.
Proof.
  apply similar_self. vm_compute. reflexivity.
Defined.

(** C4.  The comparison is not symmetric.  The docstring of [_similar]
    names difflib's quick_ratio, a measure that does not depend on the
    order of its arguments, but line 62 calls ratio(), which does: the
    pair tide, diet scores 25 in one order and 50 in the other. *)
Lemma similar_not_symmetric :
  Fallback._similar (lit "tide") (lit "diet") = Done 25%Z
  /\ Fallback._similar (lit "diet") (lit "tide") = Done 50%Z
  /\ Fallback._similar (lit "tide") (lit "diet")
     <> Fallback._similar (lit "diet") (lit "tide").
Proof.
  split; [vm_compute; reflexivity|].
  split; [vm_compute; reflexivity|].
  vm_compute. discriminate.
Qed.

(* ================================================================== *)
(** * Further properties of the script *)

(* ------------------------------------------------------------------ *)
(** ** The matches of a text: their order and what they hold *)

Lemma finditer_from_start (r : regex) (s : str) :
  forall pos skip m,
  In m (finditer_from r s pos skip) -> pos + skip <= m_start m.
Proof.
  induction s as [|c s IH]; intros pos skip m H; simpl in H.
  - destruct skip; [|contradiction].
    destruct (match_at r [] pos) as [m'|] eqn:E; [|contradiction].
    destruct H as [H|[]]; subst m'.
    apply match_at_bounds in E. lia.
  - destruct skip as [|n].
    + destruct (match_at r (c :: s) pos) as [m'|] eqn:E.
      * destruct H as [H|H].
        -- subst m'. apply match_at_bounds in E. lia.
        -- apply IH in H. lia.
      * apply IH in H. lia.
    + apply IH in H. lia.
Qed.

Lemma finditer_from_sorted (r : regex) (s : str) :
  forall pos skip,
  StronglySorted (fun m1 m2 => m_end m1 <= m_start m2) (finditer_from r s pos skip).
Proof.
  induction s as [|c s IH]; intros pos skip; simpl.
  - destruct skip; [|constructor].
    destruct (match_at r [] pos); repeat constructor.
  - destruct skip as [|n]; [|apply IH].
    destruct (match_at r (c :: s) pos) as [m|] eqn:E; [|apply IH].
    constructor; [apply IH|].
    apply Forall_forall. intros m' H. apply finditer_from_start in H.
    apply match_at_bounds in E. lia.
Qed.

(** X3.  The entries [extract_functions] returns are those of the matches
    of [FUNC_RE] in the order of the text; each match is at least twelve
    characters long, and a match ends before the next one starts. *)
Theorem extract_functions_in_text_order (source : str) :
  extract_functions source = Done (map (entry_of source) (finditer FUNC_RE source))
  /\ StronglySorted (fun m1 m2 => m_end m1 <= m_start m2) (finditer FUNC_RE source)
  /\ Forall (fun m => m_start m + 12 <= m_end m /\ m_end m <= length source)
            (finditer FUNC_RE source).
Proof.
  split; [apply extract_functions_eq|]. split.
  - apply finditer_from_sorted.
  - apply Forall_forall. intros m H. split.
    + apply (match_name_group source m H).
    + apply (finditer_bounds _ _ _ H).
Qed.

Lemma firstn_add_app (A : Type) (l : list A) :
  forall n1 n2, firstn (n1 + n2) l = firstn n1 l ++ firstn n2 (skipn n1 l).
Proof.
  induction l as [|a l IH]; intros [|n1] n2; simpl; try reflexivity.
  - rewrite firstn_nil. reflexivity.
  - f_equal. apply IH.
Qed.

Lemma star_sound (R : Type) (p : char -> bool) (s : str) :
  forall (pos : nat) (k : str -> nat -> option R) (x : R),
  star p s pos k = Some x ->
  exists n, n <= length s /\ Forall (fun c => p c = true) (firstn n s)
            /\ k (skipn n s) (pos + n) = Some x.
Proof.
  induction s as [|c s IH]; intros pos k x H; simpl in H.
  - exists 0. rewrite Nat.add_0_r. simpl. auto.
  - destruct (p c) eqn:Ep.
    + destruct (star p s (S pos) k) as [r|] eqn:E.
      * inversion H; subst r. apply IH in E. destruct E as (n & Hn & Hf & Hk).
        exists (S n). simpl. split; [lia|]. split; [constructor; assumption|].
        replace (pos + S n) with (S pos + n) by lia. exact Hk.
      * exists 0. rewrite Nat.add_0_r. simpl. split; [lia|]. split; [constructor|exact H].
    + exists 0. rewrite Nat.add_0_r. simpl. split; [lia|]. split; [constructor|exact H].
Qed.

(** The matcher is sound: what it consumed is a text of the pattern, and the
    span it stored for a group is a text of that group.  [Q] is what is
    known of the spans stored before. *)
Lemma exec_sound (R : Type) (source : str) (i : nat) (r : regex) :
  forall (Q : nat -> nat -> Prop) (s : str) (pos : nat) (g : groups)
         (k : str -> nat -> groups -> option R) (x : R),
  s = skipn pos source ->
  (forall lo hi, lookup_group i g = Some (lo, hi) -> Q lo hi) ->
  exec r s pos g k = Some x ->
  exists n g',
    n <= length s
    /\ matches r (firstn n s)
    /\ (forall lo hi, lookup_group i g' = Some (lo, hi) ->
          Q lo hi \/ group_matches i r (slice source lo hi))
    /\ k (skipn n s) (pos + n) g' = Some x.
Proof.
  induction r as [a|a|a|r1 IH1 r2 IH2|r1 IH1|m r1 IH1];
    intros Q s pos g k x Hs HQ H; simpl in H.
  - destruct s as [|d s']; [discriminate|].
    destruct (atom_ok a d) eqn:Ea; [|discriminate].
    exists 1, g. simpl. repeat split; try lia.
    + exists d. auto.
    + intros lo hi Hl. left. auto.
    + replace (pos + 1) with (S pos) by lia. exact H.
  - apply star_sound in H. destruct H as (n & Hn & Hf & Hk).
    exists n, g. simpl. repeat split; try assumption.
    intros lo hi Hl. left. auto.
  - destruct s as [|d s']; [discriminate|].
    destruct (atom_ok a d) eqn:Ea; [|discriminate].
    apply star_sound in H. destruct H as (n & Hn & Hf & Hk).
    exists (S n), g. simpl. repeat split; try lia.
    + discriminate.
    + constructor; assumption.
    + intros lo hi Hl. left. auto.
    + replace (pos + S n) with (S pos + n) by lia. exact Hk.
  - apply (IH1 Q) in H; [|exact Hs|exact HQ].
    destruct H as (n1 & g1 & Hn1 & Hm1 & Hg1 & H).
    apply (IH2 (fun lo hi => Q lo hi \/ group_matches i r1 (slice source lo hi))) in H;
      [|rewrite Hs, skipn_skipn; f_equal; lia|exact Hg1].
    destruct H as (n2 & g2 & Hn2 & Hm2 & Hg2 & H).
    rewrite length_skipn in Hn2.
    exists (n1 + n2), g2. simpl. repeat split; try lia.
    + exists (firstn n1 s), (firstn n2 (skipn n1 s)).
      split; [apply firstn_add_app|]. split; assumption.
    + intros lo hi Hl. destruct (Hg2 lo hi Hl) as [[Hq|Hq]|Hq]; auto.
    + rewrite skipn_skipn in H.
      replace (n1 + n2) with (n2 + n1) at 1 by lia.
      replace (pos + (n1 + n2)) with (pos + n1 + n2) by lia. exact H.
  - destruct (exec r1 s pos g k) as [y|] eqn:E.
    + inversion H; subst y. apply (IH1 Q) in E; [|exact Hs|exact HQ].
      destruct E as (n & g' & Hn & Hm & Hg & E).
      exists n, g'. simpl. repeat split; auto.
    + exists 0, g. simpl. rewrite Nat.add_0_r.
      repeat split; try lia; auto.
  - apply (IH1 Q) in H; [|exact Hs|exact HQ].
    destruct H as (n & g' & Hn & Hm & Hg & H).
    exists n, ((m, (pos, pos + n)) :: g'). simpl.
    repeat split; try assumption.
    intros lo hi Hl. destruct (Nat.eqb_spec m i) as [Em|Em].
    + inversion Hl; subst lo hi. right. left. split; [exact Em|].
      unfold slice. replace (pos + n - pos) with n by lia.
      rewrite <- Hs. exact Hm.
    + destruct (Hg lo hi Hl) as [Hq|Hq]; auto.
Qed.

Lemma match_at_sound (source : str) (i : nat) (r : regex) (pos : nat) (m : re_match) :
  match_at r (skipn pos source) pos = Some m ->
  matches r (slice source (m_start m) (m_end m))
  /\ forall lo hi, lookup_group i (m_groups m) = Some (lo, hi) ->
                   group_matches i r (slice source lo hi).
Proof.
  unfold match_at. intros H.
  apply (exec_sound _ source i r (fun _ _ => False)) in H;
    [|reflexivity|intros lo hi Hl; discriminate].
  destruct H as (n & g' & Hn & Hm & Hg & H). inversion H; subst m. simpl.
  split.
  - unfold slice. replace (pos + n - pos) with n by lia. exact Hm.
  - intros lo hi Hl. destruct (Hg lo hi Hl) as [[]|Hq]. exact Hq.
Qed.

Lemma skipn_cons_tail (A : Type) (l : list A) (n : nat) (c : A) (t : list A) :
  skipn n l = c :: t -> skipn (S n) l = t.
Proof.
  intros H. change (S n) with (1 + n). rewrite <- skipn_skipn, H. reflexivity.
Qed.

Lemma finditer_from_sound (source : str) (i : nat) (r : regex) (s : str) :
  forall pos skip m,
  s = skipn pos source ->
  In m (finditer_from r s pos skip) ->
  matches r (slice source (m_start m) (m_end m))
  /\ forall lo hi, lookup_group i (m_groups m) = Some (lo, hi) ->
                   group_matches i r (slice source lo hi).
Proof.
  induction s as [|c s IH]; intros pos skip m Hs H; simpl in H.
  - destruct skip; [|contradiction].
    destruct (match_at r [] pos) as [m'|] eqn:E; [|contradiction].
    destruct H as [H|[]]; subst m'. rewrite Hs in E.
    apply (match_at_sound source i r pos m E).
  - assert (Hs' : s = skipn (S pos) source)
      by (symmetry; apply (skipn_cons_tail _ _ _ c); auto).
    destruct skip as [|n]; [|apply (IH (S pos) n); assumption].
    destruct (match_at r (c :: s) pos) as [m'|] eqn:E.
    + destruct H as [H|H].
      * subst m'. rewrite Hs in E. apply (match_at_sound source i r pos m E).
      * apply (IH (S pos) _ m Hs' H).
    + apply (IH (S pos) 0 m Hs' H).
Qed.

(** The texts the first group of [FUNC_RE] matches. *)
Lemma group_1_FUNC_RE (t : str) :
  group_matches 1 FUNC_RE t -> exists n, t = c_backslash :: repeat (ch "w") (S n).
Proof.
  unfold FUNC_RE. cbn [cat group_matches].
  intros H.
  repeat match type of H with
         | False \/ _ => destruct H as [[]|H]
         | _ \/ False => destruct H as [H|[]]
         | (_ /\ _) \/ _ => destruct H as [H|H]
         | _ \/ _ => destruct H as [H|H]
         | False => destruct H
         end; try (destruct H as [H _]; discriminate H).
  destruct H as [_ H]. simpl in H.
  destruct H as (t1 & t2 & Ht & (c & H1 & Hc) & Hne & Hf).
  subst t t1. simpl.
  unfold char_eqb in Hc. apply N.eqb_eq in Hc. subst c.
  assert (Hw : t2 = repeat (ch "w") (length t2)).
  { clear Hne. induction Hf as [|d l Hd Hl IHl]; [reflexivity|].
    simpl. unfold char_eqb in Hd. apply N.eqb_eq in Hd. subst d. f_equal. exact IHl. }
  destruct t2 as [|d t2]; [contradiction|].
  exists (length t2). rewrite Hw at 1. reflexivity.
Qed.

(** X4.  Every name [extract_functions] returns is a backslash followed by
    one or more letters w (the text of the first group of [FUNC_RE] as line
    64 writes it), and every match it was taken from is a text of
    [FUNC_RE]. *)
Theorem extract_function_names (source : str) :
  exists fs,
    extract_functions source = Done fs
    /\ Forall (fun nb => exists n, fst nb = c_backslash :: repeat (ch "w") (S n)) fs
    /\ Forall (fun m => matches FUNC_RE (slice source (m_start m) (m_end m)))
              (finditer FUNC_RE source).
Proof.
  eexists. split; [apply extract_functions_eq|]. split.
  - apply Forall_forall. intros nb H. apply in_map_iff in H.
    destruct H as (m & Hnb & Hm). subst nb. cbn [fst].
    destruct (match_name_group source m Hm) as [Hg _].
    unfold group in Hg.
    destruct (lookup_group 1 (m_groups m)) as [[lo hi]|] eqn:El; [|discriminate].
    injection Hg as Hn. rewrite <- Hn.
    apply group_1_FUNC_RE.
    apply (finditer_from_sound source 1 FUNC_RE source 0 0 m eq_refl Hm). exact El.
  - apply Forall_forall. intros m Hm.
    apply (finditer_from_sound source 1 FUNC_RE source 0 0 m eq_refl Hm).
Qed.

(* ------------------------------------------------------------------ *)
(** ** The brace loop on any text *)

Lemma depth_step_ge (d : Z) (c : char) : (d - 1 <= depth_step d c)%Z.
Proof.
  unfold depth_step. destruct (char_eqb c c_lbrace); [lia|].
  destruct (char_eqb c c_rbrace); lia.
Qed.

Lemma scan_len_spec (l : str) :
  forall d, (0 < d)%Z ->
  scan_len l d <= length l
  /\ (forall k, k < scan_len l d -> (0 < depth_after d (firstn k l))%Z)
  /\ (depth_after d (firstn (scan_len l d) l) = 0%Z
      \/ (scan_len l d = length l /\ (0 < depth_after d l)%Z)).
Proof.
  induction l as [|c l IH]; intros d Hd.
  - simpl. split; [lia|]. split; [intros k Hk; lia|].
    right. split; [reflexivity|exact Hd].
  - cbn [scan_len]. destruct (Z.eqb_spec d 0) as [E|E]; [lia|].
    pose proof (depth_step_ge d c) as Hge.
    destruct (Z.eq_dec (depth_step d c) 0) as [E0|E0].
    + rewrite E0, scan_len_zero. simpl. split; [lia|]. split.
      * intros k Hk. replace k with 0 by lia. exact Hd.
      * left. exact E0.
    + destruct (IH (depth_step d c) ltac:(lia)) as (H1 & H2 & H3).
      simpl length. split; [lia|]. split.
      * intros [|k] Hk; [exact Hd|]. simpl. apply H2. lia.
      * destruct H3 as [H3|[H3 H4]].
        -- left. exact H3.
        -- right. split; [lia|exact H4].
Qed.

(** X5.  For every text and every match [m] of [FUNC_RE], the body ends at
    the first position after the opening brace where the counter is zero,
    and at the end of the text when there is none: the counter is positive
    at every earlier position, so it never goes below zero. *)
Theorem body_ends_at_first_zero (source : str) (m : re_match) :
  In m (finditer FUNC_RE source) ->
  exists e,
    function_body source m = Done (match_name source m, slice source (m_start m) e)
    /\ m_end m <= e <= length source
    /\ (forall k, m_end m <= k < e ->
          (0 < depth_after 1 (slice source (m_end m) k))%Z)
    /\ (depth_after 1 (slice source (m_end m) e) = 0%Z
        \/ (e = length source /\ (0 < depth_after 1 (skipn (m_end m) source))%Z)).
Proof.
  intros Hm. pose proof (finditer_bounds _ _ _ Hm) as Hb.
  destruct (scan_len_spec (skipn (m_end m) source) 1%Z ltac:(lia)) as (H1 & H2 & H3).
  rewrite length_skipn in H1.
  exists (m_end m + scan_len (skipn (m_end m) source) 1%Z).
  split; [apply function_body_eq|]. split; [lia|]. split.
  - intros k Hk. unfold slice. apply H2. lia.
  - unfold slice.
    replace (m_end m + scan_len (skipn (m_end m) source) 1%Z - m_end m)
      with (scan_len (skipn (m_end m) source) 1%Z) by lia.
    destruct H3 as [H3|[H3 H4]]; [left; exact H3|right].
    rewrite length_skipn in H3. split; [lia|exact H4].
Qed.

Lemma body_ends_at_first_zero_witness :
  exists e,
    function_body (lit "fn\s\w\\\\\{a{b}}c}d") (MkMatch 0 12 [(2, (8, 9)); (1, (4, 6))])
    = Done (lit "\w", slice (lit "fn\s\w\\\\\{a{b}}c}d") 0 e)
    /\ e <= 20.
Proof.
  destruct (body_ends_at_first_zero (lit "fn\s\w\\\\\{a{b}}c}d")
              (MkMatch 0 12 [(2, (8, 9)); (1, (4, 6))]))
    as (e & He & Hb & _).
  - vm_compute. left. reflexivity.
  - exists e. split; [exact He|]. exact (proj2 Hb).
Defined.

(* ------------------------------------------------------------------ *)
(** ** What the collapse returns *)

Lemma sub_from_length (s : str) :
  forall pos skip,
  length (sub_from SPACE_RE [c_space] s pos skip) <= length s - skip.
Proof.
  induction s as [|c s' IH]; intros pos skip; simpl.
  - destruct skip; simpl; lia.
  - destruct skip as [|n]; [|apply IH].
    rewrite match_at_SPACE_RE.
    destruct (char_eqb c c_backslash && starts_s s') eqn:E; simpl.
    + match goal with
      | |- context [Nat.eqb ?a ?b] => destruct (Nat.eqb_spec a b)
      end; [lia|]. simpl.
      match goal with
      | |- context [sub_from _ _ _ _ ?k] => specialize (IH (S pos) k)
      end. lia.
    + specialize (IH (S pos) 0). lia.
Qed.

Lemma lstrip_length (s : str) : length (lstrip s) <= length s.
Proof.
  destruct (lstrip_suffix s) as [t Ht]. rewrite Ht at 2. rewrite length_app. lia.
Qed.

Lemma strip_length (s : str) : length (strip s) <= length s.
Proof.
  unfold strip, rstrip. rewrite length_rev.
  pose proof (lstrip_length (rev (lstrip s))) as H. rewrite length_rev in H.
  pose proof (lstrip_length s). lia.
Qed.

Lemma strip_no_edge_space (s : str) : no_edge_space (strip s).
Proof.
  unfold no_edge_space, strip. split.
  - pose proof (lstrip_head s) as Hh.
    destruct (rstrip_prefix (lstrip s)) as [t Ht].
    destruct (rstrip (lstrip s)) as [|c r]; [exact I|].
    rewrite Ht in Hh. exact Hh.
  - unfold rstrip. rewrite rev_involutive. apply lstrip_head.
Qed.

(** X6.  Whatever the body, the text the collapse returns holds no
    backslash followed by the letter s, neither starts nor ends with a
    whitespace character, and is not longer than the body. *)
Theorem normalize_result (body : str) :
  no_space_re (normalize body) = true
  /\ no_edge_space (normalize body)
  /\ length (normalize body) <= length body.
Proof.
  unfold normalize, re_sub. split; [apply strip_clean, sub_from_clean|].
  split; [apply strip_no_edge_space|].
  pose proof (strip_length (sub_from SPACE_RE [c_space] body 0 0)).
  pose proof (sub_from_length body 0 0). lia.
Qed.

(** X7.  A body that holds no backslash followed by the letter s is only
    trimmed at its ends: every whitespace run inside it stays as it is. *)
Theorem normalize_only_trims (body : str) :
  no_space_re body = true -> normalize body = strip body.
Proof.
  intros H. unfold normalize, re_sub. rewrite sub_from_id by exact H. reflexivity.
Qed.

Lemma normalize_only_trims_witness :
  normalize (lit "  fn a() {   return  1;   }  ") = lit "fn a() {   return  1;   }".
Proof.
  exact (normalize_only_trims (lit "  fn a() {   return  1;   }  ") eq_refl).
Defined.

(* ------------------------------------------------------------------ *)
(** ** The cluster mapping: when it is empty, its keys, its size *)

Section ClusterKeys.
Variable similar_fn : str -> str -> Z.

Lemma scan_pairs_quiet (k1 : key) (sig1 : str) (rest : tokens_t) (cl : clusters_t) :
  (forall it, In it rest -> (similar_fn sig1 (snd it) <= 90)%Z) ->
  scan_pairs similar_fn k1 sig1 rest cl = cl.
Proof.
  unfold scan_pairs. revert cl. induction rest as [|it rest IH]; intros cl H; simpl.
  - reflexivity.
  - destruct (Z.ltb_spec 90 (similar_fn sig1 (snd it))) as [Hs|Hs].
    + specialize (H it (or_introl eq_refl)). lia.
    + apply IH. intros it' Hit. apply H. right. exact Hit.
Qed.

Lemma scan_items_quiet (items : tokens_t) :
  forall cl,
  (forall h sh k sk, pair_in items h sh k sk -> (similar_fn sh sk <= 90)%Z) ->
  scan_items similar_fn items cl = cl.
Proof.
  induction items as [|[k1 sig1] rest IH]; intros cl H; simpl.
  - reflexivity.
  - rewrite scan_pairs_quiet.
    + apply IH. intros h sh k sk (pre & mid & post & E).
      apply (H h sh k sk). exists ((k1, sig1) :: pre), mid, post.
      rewrite E. reflexivity.
    + intros [k sk] Hit. apply in_split in Hit. destruct Hit as (mid & post & E).
      apply (H k1 sig1 k sk). exists [], mid, post. rewrite E. reflexivity.
Qed.

Lemma cluster_members_pair (items : tokens_t) (h : key) (sh : str) (k : key) (sk : str) :
  pair_in items h sh k sk -> (90 < similar_fn sh sk)%Z ->
  In k (cluster_members similar_fn (key_str h) items).
Proof.
  intros (pre & mid & post & E) Hs. subst items.
  induction pre as [|[k0 s0] pre IH]; simpl.
  - rewrite str_eqb_refl. apply in_or_app. left.
    unfold members. apply in_map_iff. exists (k, sk). split; [reflexivity|].
    apply filter_In. split.
    + apply in_or_app. right. left. reflexivity.
    + apply Z.ltb_lt. exact Hs.
  - apply in_or_app. right. exact IH.
Qed.

(** X8.  The cluster mapping is empty exactly when no entry scores above
    90 against an entry before it. *)
Theorem build_clusters_empty_iff (items : tokens_t) :
  build_clusters similar_fn items = []
  <-> (forall h sh k sk, pair_in items h sh k sk -> (similar_fn sh sk <= 90)%Z).
Proof.
  split.
  - intros E h sh k sk Hp.
    destruct (Z.le_gt_cases (similar_fn sh sk) 90) as [Hs|Hs]; [exact Hs|].
    exfalso.
    pose proof (cluster_members_pair items h sh k sk Hp ltac:(lia)) as Hin.
    pose proof (get_list_scan_items similar_fn (key_str h) items []) as Hg.
    fold (build_clusters similar_fn items) in Hg. rewrite E in Hg.
    change (get_list (key_str h) []) with (@nil key) in Hg. simpl in Hg.
    rewrite <- Hg in Hin. exact Hin.
  - intros H. apply (scan_items_quiet items [] H).
Qed.

Lemma setdefault_append_keys (k : str) (v : key) (d : clusters_t) :
  map fst (setdefault_append k v d)
  = if existsb (str_eqb k) (map fst d) then map fst d else map fst d ++ [k].
Proof.
  induction d as [|[k' l] d IH]; simpl.
  - reflexivity.
  - destruct (str_eqb k' k) eqn:E.
    + apply str_eqb_eq in E. subst k'. rewrite str_eqb_refl. reflexivity.
    + assert (E' : str_eqb k k' = false).
      { apply str_eqb_neq. intros X. subst k'. rewrite str_eqb_refl in E. discriminate. }
      rewrite E'. simpl. rewrite IH.
      destruct (existsb (str_eqb k) (map fst d)); reflexivity.
Qed.

Lemma setdefault_append_NoDup (k : str) (v : key) (d : clusters_t) :
  NoDup (map fst d) -> NoDup (map fst (setdefault_append k v d)).
Proof.
  intros H. rewrite setdefault_append_keys.
  destruct (existsb (str_eqb k) (map fst d)) eqn:E; [exact H|].
  apply NoDup_app; [exact H|repeat constructor; intros []|].
  intros x Hx [Hk|[]]. subst x.
  assert (X : existsb (str_eqb k) (map fst d) = true).
  { apply existsb_exists. exists k. split; [exact Hx|apply str_eqb_refl]. }
  congruence.
Qed.

Lemma scan_pairs_NoDup (k1 : key) (sig1 : str) (rest : tokens_t) :
  forall cl, NoDup (map fst cl) ->
             NoDup (map fst (scan_pairs similar_fn k1 sig1 rest cl)).
Proof.
  unfold scan_pairs. induction rest as [|it rest IH]; intros cl H; simpl.
  - exact H.
  - apply IH. destruct (90 <? similar_fn sig1 (snd it))%Z; [|exact H].
    apply setdefault_append_NoDup. exact H.
Qed.

Lemma scan_items_NoDup (items : tokens_t) :
  forall cl, NoDup (map fst cl) -> NoDup (map fst (scan_items similar_fn items cl)).
Proof.
  induction items as [|[k1 sig1] rest IH]; intros cl H; simpl.
  - exact H.
  - apply IH, scan_pairs_NoDup, H.
Qed.

Lemma removelast_app_cons (A : Type) (l : list A) (x : A) (l' : list A) :
  removelast (l ++ x :: l') = l ++ removelast (x :: l').
Proof. apply removelast_app. discriminate. Qed.

(** X9.  The keys of the cluster mapping are pairwise distinct; each is the
    key string of an entry other than the last one, with a non-empty list
    under it; so the number of groups reported is at most the number of
    entries less one. *)
Theorem build_clusters_keys (items : tokens_t) :
  NoDup (map fst (build_clusters similar_fn items))
  /\ (forall K, In K (map fst (build_clusters similar_fn items)) ->
        In K (map (fun it => key_str (fst it)) (removelast items)))
  /\ length (build_clusters similar_fn items) <= length items - 1.
Proof.
  assert (Hnd : NoDup (map fst (build_clusters similar_fn items))).
  { apply (scan_items_NoDup items []). constructor. }
  assert (Hin : forall K, In K (map fst (build_clusters similar_fn items)) ->
                  In K (map (fun it => key_str (fst it)) (removelast items))).
  { intros K HK. apply in_map_iff in HK. destruct HK as ([K' L] & EK & HKL).
    simpl in EK. subst K'.
    pose proof (scan_items_nonempty similar_fn items [] ltac:(constructor)) as Hne.
    unfold lists_nonempty in Hne. rewrite Forall_forall in Hne.
    specialize (Hne (K, L) HKL). simpl in Hne.
    destruct L as [|k L]; [contradiction|].
    assert (Hc : caused similar_fn items K k).
    { apply (scan_items_caused similar_fn items items [] []) with (L := k :: L);
        [reflexivity| |exact HKL|left; reflexivity].
      intros K' L' k' []. }
    destruct Hc as (pre & h & sh & mid & sk & post & Hit & HKh & Hs).
    rewrite Hit, removelast_app_cons, map_app. apply in_or_app. right.
    change ((h, sh) :: mid ++ (k, sk) :: post)
      with (((h, sh) :: mid) ++ (k, sk) :: post).
    rewrite removelast_app_cons. simpl. left. exact HKh. }
  split; [exact Hnd|]. split; [exact Hin|].
  rewrite <- (length_map fst).
  assert (Hl : length (removelast items) = length items - 1).
  { destruct items as [|x l]; [reflexivity|].
    destruct (exists_last (l := x :: l) ltac:(discriminate)) as (l0 & y & E).
    rewrite E, removelast_last, length_app. simpl. lia. }
  rewrite <- Hl, <- (length_map (fun it => key_str (fst it)) (removelast items)).
  apply NoDup_incl_length; [exact Hnd|]. intros K HK. apply Hin. exact HK.
Qed.

End ClusterKeys.

Lemma get_list_In (K : str) (d : clusters_t) :
  get_list K d <> [] -> In K (map fst d).
Proof.
  unfold get_list. induction d as [|[k' l] d IH]; simpl; intros H.
  - contradiction.
  - destruct (str_eqb k' K) eqn:E.
    + left. apply str_eqb_eq. exact E.
    + right. apply IH. exact H.
Qed.

(** C10.  In the cluster mapping (the one [main] writes out), every list
    is non-empty, and every key in a list is there because of a pair of
    entries that scored above 90: an entry whose key string is the head
    key, and the later entry of the listed key.  A key string is a head
    key of the mapping exactly when there is such a pair.  The two entries
    of a pair are different functions: in a mapping, whose keys are
    pairwise distinct, their keys differ. *)
Theorem build_clusters_groups (similar_fn : str -> str -> Z) (items : tokens_t) :
  Forall (fun kl =>
            snd kl <> []
            /\ forall k, In k (snd kl) ->
                 exists h sh sk,
                   pair_in items h sh k sk /\ key_str h = fst kl
                   /\ (90 < similar_fn sh sk)%Z)
         (build_clusters similar_fn items)
  /\ (forall K,
        In K (map fst (build_clusters similar_fn items))
        <-> exists h sh k sk,
              pair_in items h sh k sk /\ key_str h = K
              /\ (90 < similar_fn sh sk)%Z)
  /\ (NoDup (map fst items) ->
      forall h sh k sk, pair_in items h sh k sk -> h <> k).
Proof.
  assert (Hne : lists_nonempty (build_clusters similar_fn items)).
  { apply (scan_items_nonempty similar_fn items []). constructor. }
  assert (Hc : all_caused similar_fn items (build_clusters similar_fn items)).
  { apply (scan_items_caused similar_fn items items [] []); [reflexivity|].
    intros K' L' k' []. }
  assert (Hall : forall K L, In (K, L) (build_clusters similar_fn items) ->
            L <> []
            /\ forall k, In k L ->
                 exists h sh sk,
                   pair_in items h sh k sk /\ key_str h = K
                   /\ (90 < similar_fn sh sk)%Z).
  { intros K L HKL. split.
    - unfold lists_nonempty in Hne. rewrite Forall_forall in Hne.
      apply (Hne (K, L) HKL).
    - intros k Hk.
      destruct (Hc K L k HKL Hk) as (pre & h & sh & mid & sk & post & E & HK & Hs).
      exists h, sh, sk. split; [exists pre, mid, post; exact E|]. auto. }
  split; [|split].
  - apply Forall_forall. intros [K L] HKL. apply (Hall K L HKL).
  - intros K. split.
    + intros HK. apply in_map_iff in HK. destruct HK as ([K' L] & EK & HKL).
      simpl in EK. subst K'. destruct (Hall K L HKL) as [HL Hm].
      destruct L as [|k L]; [contradiction|].
      destruct (Hm k (or_introl eq_refl)) as (h & sh & sk & Hp & Hh & Hs).
      exists h, sh, k, sk. auto.
    + intros (h & sh & k & sk & Hp & Hh & Hs). subst K.
      apply get_list_In. unfold build_clusters.
      rewrite get_list_scan_items. simpl.
      pose proof (cluster_members_pair similar_fn items h sh k sk Hp Hs) as Hin.
      intros E. rewrite E in Hin. exact Hin.
  - intros Hnd h sh k sk (pre & mid & post & E).
    rewrite E, map_app in Hnd. simpl in Hnd. rewrite map_app in Hnd. simpl in Hnd.
    apply NoDup_split_neq in Hnd. exact Hnd.
Qed.

Lemma build_clusters_groups_witness :
  In (lit "x.zig::foo") (map fst (build_clusters fallback_similar sample_items))
  /\ (lit "x.zig", lit "foo") <> (lit "y.zig", lit "bar").
Proof.
  pose proof (build_clusters_groups fallback_similar sample_items) as (_ & Hk & Hd).
  assert (Hp : pair_in sample_items (lit "x.zig", lit "foo")
                 (lit "fn foo() { a(); b(); }") (lit "y.zig", lit "bar")
                 (lit "fn foo() { a(); b(); }")).
  { exists [], [],
      [((lit "y.zig", lit "baz"), lit "while (true) { doSomethingElseEntirely(); }")].
    reflexivity. }
  split.
  - apply (proj2 (Hk (lit "x.zig::foo"))).
    exists (lit "x.zig", lit "foo"), (lit "fn foo() { a(); b(); }"),
      (lit "y.zig", lit "bar"), (lit "fn foo() { a(); b(); }").
    split; [exact Hp|]. split; [reflexivity|vm_compute; reflexivity].
  - refine (Hd _ _ _ _ _ Hp).
    repeat constructor; simpl; intros H;
      repeat (destruct H as [H|H]; [vm_compute in H; discriminate|]);
      exact H.
Defined.

(* ------------------------------------------------------------------ *)
(** ** The token mapping *)

Lemma key_eqb_eq (k1 k2 : key) : key_eqb k1 k2 = true <-> k1 = k2.
Proof.
  unfold key_eqb. destruct k1 as [f1 n1], k2 as [f2 n2]. simpl.
  rewrite andb_true_iff, !str_eqb_eq. split.
  - intros [H1 H2]. congruence.
  - intros H. inversion H. auto.
Qed.

Lemma key_eqb_refl (k : key) : key_eqb k k = true.
Proof. apply key_eqb_eq. reflexivity. Qed.

Lemma key_eqb_neq (k1 k2 : key) : k1 <> k2 -> key_eqb k1 k2 = false.
Proof.
  intros H. destruct (key_eqb k1 k2) eqn:E; [|reflexivity].
  apply key_eqb_eq in E. contradiction.
Qed.

Lemma dict_set_keys (k : key) (v : str) (d : tokens_t) :
  exists new, map fst (dict_set k v d) = map fst d ++ new
              /\ (new = [] \/ (new = [k] /\ ~ In k (map fst d))).
Proof.
  induction d as [|[k' v'] d IH]; simpl.
  - exists [k]. split; [reflexivity|]. right. split; [reflexivity|intros []].
  - destruct (key_eqb k' k) eqn:E.
    + exists []. simpl. rewrite app_nil_r. split; [reflexivity|left; reflexivity].
    + destruct IH as (new & Hk & Hn). exists new. simpl. rewrite Hk.
      split; [reflexivity|]. destruct Hn as [Hn|[Hn Hi]]; [left; exact Hn|right].
      split; [exact Hn|]. intros [X|X]; [|contradiction].
      subst k'. rewrite key_eqb_refl in E. discriminate.
Qed.

Lemma dict_set_NoDup (k : key) (v : str) (d : tokens_t) :
  NoDup (map fst d) -> NoDup (map fst (dict_set k v d)).
Proof.
  intros H. destruct (dict_set_keys k v d) as (new & Hk & [Hn|[Hn Hi]]);
    rewrite Hk; subst new.
  - rewrite app_nil_r. exact H.
  - apply NoDup_app; [exact H|repeat constructor; intros []|].
    intros x Hx [X|[]]. subst x. contradiction.
Qed.

Lemma dict_set_In (k : key) (v : str) (d : tokens_t) : In (k, v) (dict_set k v d).
Proof.
  induction d as [|[k' v'] d IH]; simpl.
  - left. reflexivity.
  - destruct (key_eqb k' k) eqn:E.
    + apply key_eqb_eq in E. subst k'. left. reflexivity.
    + right. exact IH.
Qed.

Lemma dict_set_other (k : key) (v : str) (d : tokens_t) (k' : key) (v' : str) :
  k' <> k -> (In (k', v') (dict_set k v d) <-> In (k', v') d).
Proof.
  intros Hne. induction d as [|[k0 v0] d IH]; simpl.
  - split; [intros [H|[]]; inversion H; congruence|intros []].
  - destruct (key_eqb k0 k) eqn:E.
    + apply key_eqb_eq in E. subst k0. simpl.
      split; (intros [H|H]; [inversion H; congruence|right; exact H]).
    + simpl. rewrite IH. reflexivity.
Qed.

Section TokenMapping.
Variable hash_fn : str -> str.

Lemma add_functions_app (file : str) (fs1 fs2 : list (str * str)) (tokens : tokens_t) :
  add_functions hash_fn file (fs1 ++ fs2) tokens
  = add_functions hash_fn file fs2 (add_functions hash_fn file fs1 tokens).
Proof. unfold add_functions. apply fold_left_app. Qed.

Lemma add_functions_keys (file : str) (fs : list (str * str)) :
  forall tokens,
  NoDup (map fst tokens) ->
  NoDup (map fst (add_functions hash_fn file fs tokens))
  /\ exists new, map fst (add_functions hash_fn file fs tokens) = map fst tokens ++ new
                 /\ Forall (fun k => fst k = file /\ In (snd k) (map fst fs)) new.
Proof.
  induction fs as [|[n b] fs IH]; intros tokens H.
  - split; [exact H|]. exists []. rewrite app_nil_r. split; [reflexivity|constructor].
  - change (add_functions hash_fn file ((n, b) :: fs) tokens)
      with (add_functions hash_fn file fs (dict_set (file, n) (hash_fn b) tokens)).
    destruct (IH _ (dict_set_NoDup (file, n) (hash_fn b) tokens H)) as (Hnd & new & Hk & Hf).
    split; [exact Hnd|].
    destruct (dict_set_keys (file, n) (hash_fn b) tokens) as (new0 & Hk0 & Hn0).
    exists (new0 ++ new). rewrite Hk, Hk0, app_assoc. split; [reflexivity|].
    apply Forall_app. split.
    + destruct Hn0 as [Hn0|[Hn0 _]]; subst new0; constructor; [|constructor].
      simpl. auto.
    + eapply Forall_impl; [|exact Hf]. intros k [H1 H2]. simpl. auto.
Qed.

Lemma add_functions_keeps (file : str) (fs : list (str * str)) :
  forall tokens k v,
  (forall n, In n (map fst fs) -> k <> (file, n)) ->
  (In (k, v) (add_functions hash_fn file fs tokens) <-> In (k, v) tokens).
Proof.
  induction fs as [|[n b] fs IH]; intros tokens k v H.
  - reflexivity.
  - change (add_functions hash_fn file ((n, b) :: fs) tokens)
      with (add_functions hash_fn file fs (dict_set (file, n) (hash_fn b) tokens)).
    rewrite IH by (intros n' Hn'; apply H; right; exact Hn').
    apply dict_set_other. apply H. left. reflexivity.
Qed.

(** X10.  Adding the functions of one file to a mapping with distinct keys:
    the keys stay distinct, the keys already there keep their places and
    the new ones (all of this file) follow them; under a name the file
    declares more than once, the body kept is the last one; and the entries
    of other files are as before. *)
Theorem add_functions_spec (file : str) (fs : list (str * str)) (tokens : tokens_t) :
  NoDup (map fst tokens) ->
  NoDup (map fst (add_functions hash_fn file fs tokens))
  /\ (exists new,
        map fst (add_functions hash_fn file fs tokens) = map fst tokens ++ new
        /\ Forall (fun k => fst k = file /\ In (snd k) (map fst fs)) new)
  /\ (forall pre n b post,
        fs = pre ++ (n, b) :: post -> ~ In n (map fst post) ->
        In ((file, n), hash_fn b) (add_functions hash_fn file fs tokens))
  /\ (forall k v, fst k <> file ->
        (In (k, v) (add_functions hash_fn file fs tokens) <-> In (k, v) tokens)).
Proof.
  intros H. destruct (add_functions_keys file fs tokens H) as [H1 H2].
  split; [exact H1|]. split; [exact H2|]. split.
  - intros pre n b post E Hn. subst fs.
    rewrite add_functions_app.
    change (add_functions hash_fn file ((n, b) :: post)
              (add_functions hash_fn file pre tokens))
      with (add_functions hash_fn file post
              (dict_set (file, n) (hash_fn b) (add_functions hash_fn file pre tokens))).
    apply add_functions_keeps; [|apply dict_set_In].
    intros n' Hn' X. inversion X; subst n'. contradiction.
  - intros k v Hk. apply add_functions_keeps.
    intros n _ X. subst k. apply Hk. reflexivity.
Qed.

End TokenMapping.

Lemma add_functions_spec_witness :
  In ((lit "a.zig", lit "f"), lit "second")
     (add_functions (fun s => s) (lit "a.zig")
        [(lit "f", lit "first"); (lit "g", lit "other"); (lit "f", lit "second")]
        [((lit "b.zig", lit "f"), lit "elsewhere")]).
Proof.
  refine (proj1 (proj2 (proj2 (add_functions_spec (fun s => s) (lit "a.zig")
            [(lit "f", lit "first"); (lit "g", lit "other"); (lit "f", lit "second")]
            [((lit "b.zig", lit "f"), lit "elsewhere")] _)))
            [(lit "f", lit "first"); (lit "g", lit "other")]
            (lit "f") (lit "second") [] eq_refl _).
  - repeat constructor. intros [].
  - intros [].
Defined.

(* ------------------------------------------------------------------ *)
(** ** main: the files read and the report written *)

Section MainRun.
Variable hash_fn : str -> str.
Variable similar_fn : str -> str -> Z.
Variable path : Type.
Variable Path : str -> path.
Variable path_str : path -> str.
Variable parts : path -> list str.
Variable path_exists : path -> bool.
Variable rglob_zig : path -> list path.
Variable read_text : path -> read_result.
Variable write_ok : bool.
Variable stdout_print : str -> option exn.
Variable sys_argv : list str.

(** The loop over the files either reads every file and ends with a token
    mapping, or stops at the first file whose read raises something other
    than UnicodeDecodeError. *)
Lemma load_tokens_shape (files : list path) :
  forall tokens,
  NoDup (map fst tokens) ->
  (exists t,
     load_tokens hash_fn path_str read_text files tokens
       = (map ReadText files, Done t)
     /\ NoDup (map fst t)
     /\ Forall (fun q => read_text q <> ReadError) files)
  \/ (exists pre p post,
        files = pre ++ p :: post
        /\ read_text p = ReadError
        /\ Forall (fun q => read_text q <> ReadError) pre
        /\ load_tokens hash_fn path_str read_text files tokens
           = (map ReadText (pre ++ [p]), Raised OSError)).
Proof.
  induction files as [|f files IH]; intros tokens Hnd.
  - left. exists tokens. simpl. auto.
  - cbn [load_tokens]. destruct (read_text f) as [code| |] eqn:Er.
    + rewrite extract_functions_eq.
      match goal with
      | |- context [load_tokens _ _ _ files ?t] =>
          destruct (IH t) as [(t' & E & Hn & Hf)|(pre & p & post & Ef & Ep & Hf & E)]
      end.
      * apply add_functions_keys. exact Hnd.
      * left. exists t'. rewrite E. simpl. split; [reflexivity|]. split; [exact Hn|].
        constructor; [congruence|exact Hf].
      * right. exists (f :: pre), p, post. rewrite E, Ef. simpl.
        split; [reflexivity|]. split; [exact Ep|]. split; [|reflexivity].
        constructor; [congruence|exact Hf].
    + destruct (IH tokens Hnd)
        as [(t' & E & Hn & Hf)|(pre & p & post & Ef & Ep & Hf & E)].
      * left. exists t'. rewrite E. simpl. split; [reflexivity|]. split; [exact Hn|].
        constructor; [congruence|exact Hf].
      * right. exists (f :: pre), p, post. rewrite E, Ef. simpl.
        split; [reflexivity|]. split; [exact Ep|]. split; [|reflexivity].
        constructor; [congruence|exact Hf].
    + right. exists [], f, files. simpl. auto.
Qed.


(** X13.  A file whose read raises UnicodeDecodeError leaves the token
    mapping as if the file were not in the tree. *)
Theorem load_tokens_skips_undecodable (files : list path) (tokens : tokens_t) :
  snd (load_tokens hash_fn path_str read_text files tokens)
  = snd (load_tokens hash_fn path_str read_text
           (filter (fun p => decodable (read_text p)) files) tokens).
Proof.
  revert tokens. induction files as [|f files IH]; intros tokens.
  - reflexivity.
  - cbn [load_tokens filter]. destruct (read_text f) as [code| |] eqn:Er; cbn [decodable].
    + cbn [load_tokens]. rewrite Er. rewrite extract_functions_eq.
      specialize (IH (add_functions hash_fn (path_str f)
                        (map (fun m => (match_name code m,
                           normalize (slice code (m_start m)
                             (m_end m + scan_len (skipn (m_end m) code) 1%Z))))
                           (finditer FUNC_RE code)) tokens)).
      destruct (load_tokens hash_fn path_str read_text files _) as [tr r].
      destruct (load_tokens hash_fn path_str read_text (filter _ files) _) as [tr' r'].
      exact IH.
    + specialize (IH tokens).
      destruct (load_tokens hash_fn path_str read_text files tokens) as [tr r].
      exact IH.
    + cbn [load_tokens]. rewrite Er. reflexivity.
Qed.

(** When every file either does not decode or holds no backslash, the loop
    reads them all and adds no token. *)
Lemma load_tokens_nothing (files : list path) :
  forall tokens,
  (forall p, In p files ->
     read_text p = UnicodeDecodeError
     \/ exists code, read_text p = Text code /\ ~ In c_backslash code) ->
  load_tokens hash_fn path_str read_text files tokens
  = (map ReadText files, Done tokens).
Proof.
  induction files as [|f files IH]; intros tokens H; [reflexivity|].
  cbn [load_tokens].
  destruct (H f (or_introl eq_refl)) as [Er|(code & Er & Hc)]; rewrite Er.
  - rewrite IH by (intros p Hp; apply H; right; exact Hp). reflexivity.
  - unfold extract_functions, finditer.
    rewrite (finditer_from_requires c_backslash FUNC_RE code eq_refl Hc).
    cbn [mapM add_functions fold_left].
    rewrite IH by (intros p Hp; apply H; right; exact Hp). reflexivity.
Qed.

(** X14.  When the root exists, the report can be written, and every
    located file either does not decode or holds no backslash character,
    every file is read and the report written is the empty mapping; then
    the summary line counts 0 groups and [main] returns, unless the print
    of that line raises, which ends the run with the exception after the
    report. *)
Theorem main_reports_nothing (argv : option (list str)) :
  path_exists (root_of Path sys_argv argv) = true ->
  write_ok = true ->
  (forall p, In p (iter_zig_files parts rglob_zig (root_of Path sys_argv argv)) ->
     read_text p = UnicodeDecodeError
     \/ exists code, read_text p = Text code /\ ~ In c_backslash code) ->
  let reads :=
    map ReadText (iter_zig_files parts rglob_zig (root_of Path sys_argv argv)) in
  main hash_fn similar_fn Path path_str parts path_exists rglob_zig
       read_text write_ok stdout_print sys_argv argv
  = Done (match stdout_print (summary_text out_path 0) with
          | None =>
              MkRun (reads ++ [WriteText out_path [];
                               Stdout (summary_text out_path 0)])
                    Returned
          | Some e => MkRun (reads ++ [WriteText out_path []]) (Uncaught e)
          end).
Proof.
  intros Hex Hw Hfiles reads. unfold main. rewrite Hex, Hw. cbn [negb].
  rewrite (load_tokens_nothing _ [] Hfiles).
  change (build_clusters similar_fn []) with (@nil (str * list key)).
  cbn [length]. destruct (stdout_print _); reflexivity.
Qed.

(** X18.  On a stdout that encodes strictly and has no encoding for the
    check mark U+2713 of the summary line: when the root exists, no read
    raises anything but UnicodeDecodeError and the report can be written,
    [main] writes the report and then ends with UnicodeEncodeError, the
    summary not printed. *)
Theorem main_summary_unencodable (encodes : char -> bool)
    (argv : option (list str)) :
  path_exists (root_of Path sys_argv argv) = true ->
  write_ok = true ->
  Forall (fun q => read_text q <> ReadError)
         (iter_zig_files parts rglob_zig (root_of Path sys_argv argv)) ->
  encodes c_check_mark = false ->
  exists tokens,
    load_tokens hash_fn path_str read_text
      (iter_zig_files parts rglob_zig (root_of Path sys_argv argv)) []
    = (map ReadText (iter_zig_files parts rglob_zig (root_of Path sys_argv argv)),
       Done tokens)
    /\ main hash_fn similar_fn Path path_str parts path_exists rglob_zig
            read_text write_ok (strict_stream encodes) sys_argv argv
       = Done (MkRun
                 (map ReadText
                      (iter_zig_files parts rglob_zig (root_of Path sys_argv argv))
                  ++ [WriteText out_path (build_clusters similar_fn tokens)])
                 (Uncaught UnicodeEncodeError)).
Proof.
  intros Hex Hw Hreads Henc. unfold main. rewrite Hex, Hw. cbn [negb].
  destruct (load_tokens_shape
              (iter_zig_files parts rglob_zig (root_of Path sys_argv argv)) []
              ltac:(constructor))
    as [(t & E & Hn & Hf)|(pre & p & post & Ef & Ep & Hf & E)].
  - exists t. split; [exact E|]. rewrite E. cbv zeta.
    unfold strict_stream, summary_text. cbn [forallb]. rewrite Henc. reflexivity.
  - exfalso. rewrite Ef in Hreads. apply Forall_app in Hreads.
    destruct Hreads as [_ Hr]. inversion Hr as [|x l Hx Hl]; subst.
    apply Hx. exact Ep.
Qed.

End MainRun.


Lemma main_reports_nothing_witness :
  main (fun s => s) (fun _ _ => 100%Z) (fun s : str => s) (fun p => p)
       (fun p => [p]) (fun _ => true)
       (fun _ => [lit "a.zig"; lit "b.zig"])
       (fun _ => Text (lit "pub fn add(a: i32, b: i32) i32 { return a + b; }"))
       true (fun _ => None) [lit "find_function_dupes.py"] None
  = Done (MkRun [ReadText (lit "a.zig"); ReadText (lit "b.zig");
                 WriteText (lit "function_dupes.json") [];
                 Stdout (c_check_mark
                         :: lit " wrote function_dupes.json with 0 duplicate groups")]
                Returned).
Proof.
  refine (main_reports_nothing (fun s => s) (fun _ _ => 100%Z) str (fun s : str => s)
            (fun p => p) (fun p => [p]) (fun _ => true)
            (fun _ => [lit "a.zig"; lit "b.zig"])
            (fun _ => Text (lit "pub fn add(a: i32, b: i32) i32 { return a + b; }"))
            true (fun _ => None) [lit "find_function_dupes.py"] None eq_refl eq_refl _).
  intros p _. right. eexists. split; [reflexivity|].
  intros H. vm_compute in H.
  repeat (destruct H as [H|H]; [discriminate H|]). exact H.
Defined.

Lemma main_summary_unencodable_witness :
  main (fun s => s) (fun _ _ => 100%Z) (fun s : str => s) (fun p => p)
       (fun p => [p]) (fun _ => true)
       (fun _ => [lit "a.zig"; lit "b.zig"]) (fun _ => Text (lit "fn\s\w\\\\\{ x }"))
       true (strict_stream (fun c => (c <? 256)%N))
       [lit "find_function_dupes.py"] None
  = Done (MkRun [ReadText (lit "a.zig"); ReadText (lit "b.zig");
                 WriteText (lit "function_dupes.json")
                   [(lit "a.zig::\w", [(lit "b.zig", lit "\w")])]]
                (Uncaught UnicodeEncodeError)).
Proof.
  destruct (main_summary_unencodable (fun s => s) (fun _ _ => 100%Z) str
              (fun s : str => s) (fun p => p) (fun p => [p]) (fun _ => true)
              (fun _ => [lit "a.zig"; lit "b.zig"])
              (fun _ => Text (lit "fn\s\w\\\\\{ x }"))
              true [lit "find_function_dupes.py"] (fun c => (c <? 256)%N) None
              eq_refl eq_refl)
    as (tokens & E & H).
  - repeat constructor; discriminate.
  - reflexivity.
  - rewrite H. vm_compute in E. injection E as E. subst tokens.
    vm_compute. reflexivity.
Defined.

(* ------------------------------------------------------------------ *)
(** ** The fallback comparison of texts with no character in common *)

Section Disjoint.
Import Difflib.
Variables a b : str.
Hypothesis Hdisjoint : forall c, In c a -> ~ In c b.

Lemma indices_from_absent (l : str) (c : char) :
  ~ In c l -> forall j, indices_from l j c = [].
Proof.
  induction l as [|x l IH]; intros H j; simpl.
  - reflexivity.
  - destruct (N.eqb_spec x c) as [E|E].
    + exfalso. apply H. left. exact E.
    + unfold char_eqb. destruct (N.eqb_spec x c); [contradiction|].
      apply IH. intros X. apply H. right. exact X.
Qed.

Lemma b2j_absent (c : char) : In c a -> b2j b c = [].
Proof.
  intros H. unfold b2j. destruct (popular b c); [reflexivity|].
  apply indices_from_absent. apply Hdisjoint. exact H.
Qed.

Lemma scan_rows_disjoint (rows : list nat) (blo bhi : nat) :
  forall j2len best,
  (forall i, In i rows -> i < length a) ->
  scan_rows rows a b blo bhi j2len best = best.
Proof.
  induction rows as [|i rows IH]; intros j2len best H; simpl.
  - reflexivity.
  - rewrite b2j_absent by (apply nth_In; apply H; left; reflexivity).
    simpl. apply IH. intros i' Hi'. apply H. right. exact Hi'.
Qed.

Lemma find_longest_match_disjoint :
  find_longest_match a b 0 (length a) 0 (length b) = MkBlock 0 0 0.
Proof.
  unfold find_longest_match.
  rewrite scan_rows_disjoint
    by (intros i Hi; apply in_seq in Hi; lia).
  cbn [m_a m_b m_size extend_back]. rewrite Nat.add_0_r, Nat.sub_0_r.
  destruct a as [|x a'] eqn:Ea; [reflexivity|].
  cbn [length extend_fwd]. rewrite !Nat.add_0_r.
  destruct b as [|y b'] eqn:Eb; [reflexivity|].
  cbn [length nth Nat.ltb Nat.leb andb].
  destruct (N.eqb_spec x y) as [E|E].
  - exfalso. apply (Hdisjoint x); [left; reflexivity|left; symmetry; exact E].
  - unfold char_eqb. destruct (N.eqb_spec x y); [contradiction|]. reflexivity.
Qed.

Lemma get_matching_blocks_disjoint :
  get_matching_blocks a b = Done [MkBlock (length a) (length b) 0].
Proof.
  unfold get_matching_blocks.
  replace (2 * length a + 2) with (S (2 * length a + 1)) by lia.
  rewrite blocks_loop_step, find_longest_match_disjoint. cbv zeta.
  cbn [m_size Nat.eqb]. destruct (2 * length a + 1); reflexivity.
Qed.

End Disjoint.

Lemma calculate_ratio_zero (T : Z) :
  (0 < T < 2 ^ 64)%Z -> Difflib._calculate_ratio 0 T = Done (S754_zero false).
Proof.
  intros HT. unfold Difflib._calculate_ratio.
  destruct (Z.eqb_spec T 0) as [E|E]; [lia|].
  destruct (float_of_int_rounded T HT) as (mt & et & Ft & _).
  rewrite Ft. reflexivity.
Qed.

(** Texts with no character in common have no matching block, and the
    ratio of no match to a positive length is 0.0. *)
Lemma fallback_similar_disjoint (a b : str) :
  (forall c, In c a -> ~ In c b) ->
  a <> [] \/ b <> [] ->
  (Z.of_nat (length a) < 2 ^ 63)%Z ->
  (Z.of_nat (length b) < 2 ^ 63)%Z ->
  Fallback._similar a b = Done 0%Z.
Proof.
  intros Hd Hne Ha Hb. unfold Fallback._similar, Difflib.ratio.
  rewrite (get_matching_blocks_disjoint a b Hd). cbn [bind].
  change (Z.of_nat (Difflib.sum_sizes [Difflib.MkBlock (length a) (length b) 0]))
    with 0%Z.
  change (2 ^ 63)%Z with 9223372036854775808%Z in Ha, Hb.
  rewrite calculate_ratio_zero.
  - reflexivity.
  - change (2 ^ 64)%Z with 18446744073709551616%Z.
    destruct Hne as [Hn|Hn]; [destruct a|destruct b];
      try contradiction; simpl length in *; lia.
Qed.

(** X15.  Two texts with no character in common, not both empty (and each
    of at most sys.maxsize characters), score 0. *)
Theorem similar_disjoint (a b : str) :
  (forall c, In c a -> ~ In c b) ->
  a <> [] \/ b <> [] ->
  (Z.of_nat (length a) < 2 ^ 63)%Z ->
  (Z.of_nat (length b) < 2 ^ 63)%Z ->
  Fallback._similar a b = Done 0%Z.
Proof.
  intros Hd Hne Ha Hb. apply fallback_similar_disjoint; assumption.
Qed.

Lemma similar_disjoint_witness :
  Fallback._similar (lit "fn a() { return 1; }") (lit "WHILE[TRUE]") = Done 0%Z.
Proof.
  apply similar_disjoint.
  - intros c H. vm_compute in H.
    repeat (destruct H as [H|H];
            [subst c; vm_compute; intros X;
             repeat (destruct X as [X|X]; [discriminate X|]); exact X|]).
    destruct H.
  - left. discriminate.
  - vm_compute. reflexivity.
  - vm_compute. reflexivity.
Defined.

(* ------------------------------------------------------------------ *)
(** ** The pairwise scan with the fallback comparison *)

Lemma cluster_member_iff (similar_fn : str -> str -> Z) (items : tokens_t)
    (i j : nat) (ki kj : key) (si sj : str) :
  NoDup (map (fun it => key_str (fst it)) items) ->
  i < j ->
  nth_error items i = Some (ki, si) ->
  nth_error items j = Some (kj, sj) ->
  (exists L, dict_get (key_str ki) (build_clusters similar_fn items) = Some L
             /\ In kj L)
  <-> (90 < similar_fn si sj)%Z.
Proof.
  intros Hnd Hij Hi Hj.
  rewrite build_clusters_get, (cluster_members_at similar_fn items i ki si Hnd Hi).
  assert (Hin : In kj (members similar_fn si (skipn (S i) items))
                <-> (90 < similar_fn si sj)%Z).
  { unfold members. rewrite in_map_iff. split.
    - intros ([k s] & Hk & Hf). simpl in Hk. subst k.
      apply filter_In in Hf. destruct Hf as [Hf Hs]. simpl in Hs.
      apply In_skipn in Hf. apply nth_error_In in Hj.
      rewrite (nodup_key_unique items kj sj s Hnd Hj Hf).
      apply Z.ltb_lt. exact Hs.
    - intros Hs. exists (kj, sj). split; [reflexivity|].
      apply filter_In. split.
      + apply (nth_error_skipn_In _ items i j); assumption.
      + simpl. apply Z.ltb_lt. exact Hs. }
  rewrite <- Hin.
  destruct (members similar_fn si (skipn (S i) items)) as [|x l]; simpl.
  - split; [intros (L & HL & _); discriminate|intros []].
  - split.
    + intros (L & HL & HkL). inversion HL; subst. exact HkL.
    + intros H. exists (x :: l). auto.
Qed.

Lemma fallback_similar_self (a : str) :
  (Z.of_nat (length a) < 2 ^ 63)%Z -> fallback_similar a a = 100%Z.
Proof.
  intros Ha. unfold fallback_similar, Fallback._similar, Difflib.ratio.
  destruct (get_matching_blocks_self a) as (blocks & Hbl & Hsum).
  rewrite Hbl. cbn [bind]. rewrite Hsum, Nat2Z.inj_add.
  rewrite calculate_ratio_self by lia.
  vm_compute. reflexivity.
Qed.

(** X16.  With the fallback comparison and key strings that are pairwise
    distinct: of two entries with the same fingerprint, the later one is
    listed under the earlier one; of two entries whose fingerprints have no
    character in common, the later one is not. *)
Theorem fallback_clusters_duplicates (items : tokens_t) (i j : nat)
    (ki kj : key) (si sj : str) :
  NoDup (map (fun it => key_str (fst it)) items) ->
  i < j ->
  nth_error items i = Some (ki, si) ->
  nth_error items j = Some (kj, sj) ->
  (Z.of_nat (length si) < 2 ^ 63)%Z ->
  (Z.of_nat (length sj) < 2 ^ 63)%Z ->
  (si = sj ->
   exists L, dict_get (key_str ki) (build_clusters fallback_similar items) = Some L
             /\ In kj L)
  /\ ((forall c, In c si -> ~ In c sj) -> si <> [] \/ sj <> [] ->
      ~ exists L, dict_get (key_str ki) (build_clusters fallback_similar items) = Some L
                  /\ In kj L).
Proof.
  intros Hnd Hij Hi Hj Hli Hlj.
  pose proof (cluster_member_iff fallback_similar items i j ki kj si sj Hnd Hij Hi Hj)
    as Hiff.
  split.
  - intros E. subst sj. apply Hiff. rewrite fallback_similar_self by exact Hli. lia.
  - intros Hd Hne H. apply Hiff in H. unfold fallback_similar in H.
    rewrite (fallback_similar_disjoint si sj Hd Hne Hli Hlj) in H. lia.
Qed.

Lemma fallback_clusters_duplicates_witness :
  exists L, dict_get (lit "x.zig::foo") (build_clusters fallback_similar sample_items)
            = Some L
            /\ In (lit "y.zig", lit "bar") L.
Proof.
  refine (proj1 (fallback_clusters_duplicates sample_items 0 1
                   (lit "x.zig", lit "foo") (lit "y.zig", lit "bar")
                   (lit "fn foo() { a(); b(); }") (lit "fn foo() { a(); b(); }")
                   sample_items_distinct _ eq_refl eq_refl _ _) eq_refl).
  - lia.
  - vm_compute. reflexivity.
  - vm_compute. reflexivity.
Defined.

(* ------------------------------------------------------------------ *)
(** ** Floats: rounding below a bound that is a float *)

Section FloatBounds.
Local Open Scope Z_scope.

(** Rounding a value at most [B * 2^s] (a float: [B] an integer below 2^53)
    gives at most [B * 2^s]. *)
Lemma binary_round_aux_le_at (s B a D ex : Z) :
  0 <= a -> 0 < D -> ex <= s -> -1074 <= s <= 0 -> 0 < B < 2 ^ 53 ->
  a <= B * D * 2 ^ (s - ex) ->
  float_le_at s B (binary_round_aux prec emax false (a / D) ex (loc_of a D)).
Proof.
  intros Ha HD Hex Hs HB Hv.
  rewrite binary_round_aux_spec by assumption. cbv zeta.
  set (n1 := Z.max 0 (fexp prec emax (Zdigits2 (a / D) + ex) - ex)).
  set (D1 := D * 2 ^ n1).
  set (e1 := ex + n1).
  set (mr := round_nearest_even (a / D1) (loc_of a D1)).
  set (n2 := Z.max 0 (fexp prec emax (Zdigits2 mr + e1) - e1)).
  assert (Hn1 : 0 <= n1) by (unfold n1; lia).
  assert (Hn2 : 0 <= n2) by (unfold n2; lia).
  assert (Hmx : 0 <= a / D < 2 ^ (53 + (s - ex))).
  { split; [apply Z.div_pos; lia|].
    apply Z.div_lt_upper_bound; [lia|].
    rewrite (pow2_split 53 (s - ex)) by lia.
    pose proof (pow2_pos (s - ex) ltac:(lia)). nia. }
  assert (He1 : e1 <= s).
  { unfold e1, n1. rewrite fexp_eq.
    pose proof (Zdigits2_le (a / D) (53 + (s - ex)) ltac:(lia) Hmx). lia. }
  assert (HD1 : 0 < D1).
  { unfold D1. pose proof (pow2_pos n1 Hn1). nia. }
  assert (Hq : a <= (B * 2 ^ (s - e1)) * D1).
  { unfold D1. replace (s - ex) with (s - e1 + n1) in Hv by (unfold e1; lia).
    rewrite pow2_split in Hv by lia. nia. }
  assert (Hmr : 0 <= mr <= B * 2 ^ (s - e1)).
  { pose proof (Z.div_pos a D1 Ha HD1) as H0.
    destruct (round_nearest_even_range (a / D1) (loc_of a D1)) as [[R1 R2] R3].
    fold mr in R1, R2, R3.
    split; [lia|].
    assert (Hle : a / D1 <= B * 2 ^ (s - e1)).
    { apply Z.div_le_upper_bound; [lia|]. lia. }
    destruct (Z.eq_dec (a / D1) (B * 2 ^ (s - e1))) as [E|E]; [|lia].
    assert (Hex0 : loc_of a D1 = loc_Exact).
    { unfold loc_of.
      pose proof (Z.div_mod a D1 ltac:(lia)) as Hdm.
      pose proof (Z.mod_pos_bound a D1 HD1) as Hrem.
      rewrite E in Hdm.
      assert (a mod D1 = 0) by nia.
      destruct (Z.eqb_spec (a mod D1) 0); [reflexivity|contradiction]. }
    rewrite (R3 Hex0). lia. }
  assert (Hmr53 : 0 <= mr < 2 ^ (53 + (s - e1))).
  { split; [lia|].
    rewrite (pow2_split 53 (s - e1)) by lia.
    pose proof (pow2_pos (s - e1) ltac:(lia)). nia. }
  assert (He2 : e1 + n2 <= s).
  { unfold n2. rewrite fexp_eq.
    pose proof (Zdigits2_le mr (53 + (s - e1)) ltac:(lia) Hmr53). lia. }
  assert (Hm2 : 0 <= mr / 2 ^ n2 <= B * 2 ^ (s - (e1 + n2))).
  { pose proof (pow2_pos n2 Hn2) as Hp.
    split; [apply Z.div_pos; lia|].
    apply Z.div_le_upper_bound; [lia|].
    replace (s - e1) with (n2 + (s - (e1 + n2))) in Hmr by lia.
    rewrite pow2_split in Hmr by lia. nia. }
  destruct (mr / 2 ^ n2) as [|m|m] eqn:Em; [left; reflexivity| |lia].
  right. exists m, (e1 + n2).
  destruct (Z.leb_spec (e1 + n2) (emax - prec)) as [_|Hbad];
    [|unfold emax, prec in Hbad; lia].
  repeat split; [exact He2|lia].
Qed.

Lemma binary_round_aux_exact_le_at (s B : Z) (a : positive) (ex : Z) :
  ex <= s -> -1074 <= s <= 0 -> 0 < B < 2 ^ 53 -> Zpos a <= B * 2 ^ (s - ex) ->
  float_le_at s B (binary_round_aux prec emax false (Zpos a) ex loc_Exact).
Proof.
  intros Hex Hs HB Hv.
  rewrite <- (Z.div_1_r (Zpos a)), <- (loc_of_1 (Zpos a)).
  apply binary_round_aux_le_at; try lia.
Qed.

(** The quotient of two floats whose values are in a ratio of at most nine
    tenths is at most [fl(0.9)]. *)
Lemma float_div_le_nine_tenths (mx my : positive) (ex ey : Z) :
  Zdigits2 (Zpos mx) = 53 -> Zdigits2 (Zpos my) = 53 ->
  ex <= ey -> ey - ex <= 1021 ->
  10 * Zpos mx <= 9 * Zpos my * 2 ^ (ey - ex) ->
  float_le_at (-53) nine_tenths
    (SFdiv prec emax (S754_finite false mx ex) (S754_finite false my ey)).
Proof.
  intros Hdx Hdy Hle Hrange Hv.
  unfold SFdiv, SFdiv_core_binary. cbn [xorb].
  rewrite Hdx, Hdy, fexp_eq.
  replace (Z.min (Z.max (53 + ex - (53 + ey) - 53) (-1074)) (ex - ey))
    with (ex - ey - 53) by lia.
  replace (ex - ey - (ex - ey - 53)) with 53 by lia.
  rewrite div_eucl_eq, new_location_spec by lia.
  rewrite Z.shiftl_mul_pow2 by lia.
  apply binary_round_aux_le_at; try lia.
  - unfold nine_tenths. change (2 ^ 53) with 9007199254740992. lia.
  - replace (-53 - (ex - ey - 53)) with (ey - ex) by lia.
    pose proof (pow2_pos (ey - ex) ltac:(lia)) as Hp.
    unfold nine_tenths. change (2 ^ 53) with 9007199254740992. nia.
Qed.

(** A float at most [fl(0.9)], times 100, is below 91. *)
Lemma float_mul_100_le_at (q : float) :
  float_le_at (-53) nine_tenths q ->
  float_le_at (-46) (90 * 2 ^ 46 + 1) (float_mul q float_100).
Proof.
  intros [Hq|(m & e & Hq & He & Hm)]; subst q.
  - left. reflexivity.
  - unfold float_mul, float_100, SFmul. cbn [xorb].
    apply binary_round_aux_exact_le_at; try lia.
    replace (-46 - (e + -46)) with (53 + (-53 - e)) by lia.
    rewrite pow2_split by lia. rewrite Pos2Z.inj_mul.
    change (2 ^ 46) with 70368744177664. change (2 ^ 53) with 9007199254740992.
    unfold nine_tenths in Hm.
    pose proof (pow2_pos (-53 - e) ltac:(lia)). nia.
Qed.

Lemma int_of_float_le_at (f : float) :
  float_le_at (-46) (90 * 2 ^ 46 + 1) f ->
  exists z, int_of_float f = Done z /\ 0 <= z <= 90.
Proof.
  intros [Hf|(m & e & Hf & He & Hm)]; subst f; simpl.
  - exists 0. split; [reflexivity|lia].
  - destruct e as [|p|p]; try lia.
    eexists. split; [reflexivity|]. rewrite Z.shiftr_div_pow2 by lia.
    pose proof (pow2_pos (Zpos p) ltac:(lia)) as Hp.
    split; [apply Z.div_pos; lia|].
    assert (Hlt : Zpos m < 91 * 2 ^ Zpos p).
    { replace (Zpos p) with (46 + (-46 - Zneg p)) at 1 by lia.
      rewrite pow2_split by lia.
      pose proof (pow2_pos (-46 - Zneg p) ltac:(lia)).
      change (2 ^ 46) with 70368744177664 in *. nia. }
    assert (Zpos m / 2 ^ Zpos p < 91); [|lia].
    apply Z.div_lt_upper_bound; [lia|]. lia.
Qed.

(** With [20 * matches <= 9 * length] (and a length that a float holds
    exactly), [_calculate_ratio] returns a float that is at most
    [fl(0.9)]. *)
Lemma calculate_ratio_le_nine_tenths (M T : Z) :
  0 <= M -> 0 < T < 2 ^ 53 -> 20 * M <= 9 * T ->
  exists q, Difflib._calculate_ratio M T = Done q
            /\ float_le_at (-53) nine_tenths q.
Proof.
  intros HM HT HMT. unfold Difflib._calculate_ratio.
  destruct (Z.eqb_spec T 0) as [E|E]; [lia|].
  destruct (float_of_int_exact T HT) as (mt & et & Ft & Dt & Et & Xt).
  destruct (Z.eq_dec M 0) as [EM|EM].
  - subst M. rewrite Ft. simpl. eexists. split; [reflexivity|]. left. reflexivity.
  - destruct (float_of_int_exact M ltac:(lia)) as (mm & em & Fm & Dm & Em & Xm).
    rewrite Fm, Ft. cbn [bind float_div].
    pose proof (Zdigits2_nonneg M) as HdM.
    pose proof (Zdigits2_le M 53 ltac:(lia) ltac:(lia)) as HdM'.
    pose proof (Zdigits2_le T 53 ltac:(lia) ltac:(lia)) as HdT'.
    pose proof (Zdigits2_mono (2 * M) T ltac:(lia)) as Hmono.
    rewrite Zdigits2_double in Hmono by lia.
    rewrite float_mul_2 by lia.
    eexists. split; [reflexivity|].
    apply float_div_le_nine_tenths; try assumption; try lia.
    rewrite Xm, Xt.
    replace (- em) with (1 + (et - (em + 1)) + - et) by lia.
    rewrite !pow2_split by lia. change (2 ^ 1) with 2.
    pose proof (pow2_pos (et - (em + 1)) ltac:(lia)).
    pose proof (pow2_pos (- et) ltac:(lia)). nia.
Qed.

End FloatBounds.

(** X17.  Two texts whose lengths are in a ratio of 9 to 11 or less (not
    both empty, and together shorter than 2^53 characters) score at most
    90: such a pair is never above the threshold. *)
Theorem similar_length_gap (a b : str) :
  11 * Nat.min (length a) (length b) <= 9 * Nat.max (length a) (length b) ->
  0 < length a + length b ->
  (Z.of_nat (length a + length b) < 2 ^ 53)%Z ->
  exists z, Fallback._similar a b = Done z /\ (0 <= z <= 90)%Z.
Proof.
  intros Hgap Hpos Hlen. unfold Fallback._similar, Difflib.ratio.
  destruct (get_matching_blocks_total a b) as (blocks & Hbl & H1 & H2).
  rewrite Hbl. cbn [bind].
  destruct (calculate_ratio_le_nine_tenths
              (Z.of_nat (Difflib.sum_sizes blocks))
              (Z.of_nat (length a + length b)))
    as (q & Hq & Hle); [lia|lia|lia|].
  rewrite Hq, float_of_int_100. cbn [bind].
  apply int_of_float_le_at, float_mul_100_le_at. exact Hle.
Qed.

Lemma similar_length_gap_witness :
  exists z, Fallback._similar (lit "fn a() { return 1; }")
                              (lit "fn a() { return 1; } // and a longer tail") = Done z
            /\ (0 <= z <= 90)%Z.
Proof.
  apply similar_length_gap;
    [cbn [lit list_ascii_of_string map length Nat.min Nat.max]; lia
    |cbn [lit list_ascii_of_string map length]; lia
    |vm_compute; reflexivity].
Defined.
